(** * Background removal: segmentation and mask-refinement pipeline

    A shallow embedding of the JavaScript sources

      - [ImageAnalyzer]          (assets/js/image-analyzer.js)
      - [MediaPipeProcessor]     (balanced tier, same file)
      - [BackgroundRemovalApp]   (application logic)
      - [TensorFlowProcessor]    (precise tier)
      - [CanvasProcessor]        (fast tier)

    Pixel buffers are flat RGBA arrays ([list Z], one byte per entry) that
    the code updates in place; every loop of the source is a fold over the
    same index range, threading the buffer.  JavaScript numbers are modelled
    by [jsnum]: rationals plus the three non-finite values. *)

From Stdlib Require Import ZArith QArith Qround Qabs Qpower Lia Lqa Bool.
From stdpp Require Import base tactics option list list_numbers gmap strings.

Local Open Scope Z_scope.

(* ===================================================================== *)
(** * Part I.  Definitions                                                *)
(* ===================================================================== *)

(** ** JavaScript numbers *)

Module JS.

(** A JavaScript number.  Finite values are rationals and the sign of zero
    is not kept; [NaN] is what arithmetic on [undefined] produces.  [add],
    [mul] and [div] below are exact; [add64] and [mul64] round the result to
    the nearest double, and are what the luminance and the Sobel sums of the
    source are written with, where the rounding decides comparisons. *)
Inductive jsnum : Type :=
  | Fin (q : Q)
  | PInf
  | NInf
  | NaN.

Definition num (z : Z) : jsnum := Fin (inject_Z z).

(** ToNumber of an array read: [undefined] becomes [NaN]. *)
Definition of_read (o : option Z) : jsnum :=
  match o with Some v => num v | None => NaN end.

Definition Qsgn (q : Q) : Z := Z.sgn (Qnum q).

Definition inf_of_sign (s : Z) : jsnum :=
  if s =? 0 then NaN else if 0 <? s then PInf else NInf.

Definition sign_of (a : jsnum) : Z :=
  match a with Fin q => Qsgn q | PInf => 1 | NInf => -1 | NaN => 0 end.

Definition neg (a : jsnum) : jsnum :=
  match a with Fin q => Fin (- q) | PInf => NInf | NInf => PInf | NaN => NaN end.

Definition add (a b : jsnum) : jsnum :=
  match a, b with
  | NaN, _ | _, NaN => NaN
  | Fin p, Fin q => Fin (p + q)
  | PInf, NInf | NInf, PInf => NaN
  | PInf, _ | _, PInf => PInf
  | NInf, _ | _, NInf => NInf
  end.

Definition sub (a b : jsnum) : jsnum := add a (neg b).

Definition mul (a b : jsnum) : jsnum :=
  match a, b with
  | NaN, _ | _, NaN => NaN
  | Fin p, Fin q => Fin (p * q)
  | _, _ => inf_of_sign (sign_of a * sign_of b)
  end.

(** [a / b]: a finite quotient, or what IEEE prescribes when the divisor is
    zero or an operand is not finite. *)
Definition div (a b : jsnum) : jsnum :=
  match a, b with
  | NaN, _ | _, NaN => NaN
  | Fin p, Fin q =>
      if Qeq_bool q 0 then inf_of_sign (Qsgn p) else Fin (p / q)
  | Fin _, _ => Fin 0
  | _, Fin q => inf_of_sign (sign_of a * (if Qeq_bool q 0 then 1 else Qsgn q))
  | _, _ => NaN
  end.

(** [a < b]; every comparison with [NaN] is false. *)
Definition lt (a b : jsnum) : bool :=
  match a, b with
  | NaN, _ | _, NaN => false
  | Fin p, Fin q => negb (Qle_bool q p)
  | NInf, NInf | PInf, _ => false
  | NInf, _ | _, PInf => true
  | Fin _, NInf => false
  end.

Definition gt (a b : jsnum) : bool := lt b a.

(** [a <= b] and [a >= b]. *)
Definition le (a b : jsnum) : bool :=
  match a, b with
  | NaN, _ | _, NaN => false
  | Fin p, Fin q => Qle_bool p q
  | NInf, _ | _, PInf => true
  | PInf, _ | Fin _, NInf => false
  end.

Definition ge (a b : jsnum) : bool := le b a.

(** [a === b] on numbers. *)
Definition eq (a b : jsnum) : bool :=
  match a, b with
  | Fin p, Fin q => Qeq_bool p q
  | PInf, PInf | NInf, NInf => true
  | _, _ => false
  end.

(** [Math.max], [Math.min], [Math.abs], [Math.floor], [Math.ceil]. *)
Definition max (a b : jsnum) : jsnum :=
  match a, b with
  | NaN, _ | _, NaN => NaN
  | _, _ => if lt a b then b else a
  end.

Definition min (a b : jsnum) : jsnum :=
  match a, b with
  | NaN, _ | _, NaN => NaN
  | _, _ => if lt b a then b else a
  end.

Definition abs (a : jsnum) : jsnum :=
  match a with Fin q => Fin (Qabs q) | PInf | NInf => PInf | NaN => NaN end.

Definition floor (a : jsnum) : jsnum :=
  match a with Fin q => num (Qfloor q) | _ => a end.

Definition ceil (a : jsnum) : jsnum :=
  match a with Fin q => num (Qceiling q) | _ => a end.

(** Conversion on a store into a [Uint8ClampedArray]: round to the nearest
    integer, ties to even, clamp to [0,255]; [NaN] is stored as 0. *)
Definition round_half_even (q : Q) : Z :=
  let f := Qfloor q in
  let r := (q - inject_Z f)%Q in
  if Qle_bool r (1 # 2)
  then (if Qeq_bool r (1 # 2) then (if Z.even f then f else f + 1) else f)
  else f + 1.

Definition clamp8 (z : Z) : Z := Z.max 0 (Z.min 255 z).

Definition toUint8Clamped (a : jsnum) : Z :=
  match a with
  | Fin q => clamp8 (round_half_even q)
  | PInf => 255
  | NInf | NaN => 0
  end.

(** The binary exponent of a non-zero number: [2^e <= |q| < 2^(e+1)]. *)
Definition exponent (q : Q) : Z :=
  let e := Z.log2 (Z.abs (Qnum q)) - Z.log2 (Zpos (Qden q)) in
  if Qle_bool (2 ^ e) (Qabs q) then e else e - 1.

(** The double nearest to [q], ties to even: 53 significant bits.  Numbers
    beyond the range of normal doubles are not treated apart. *)
Definition to_double (q : Q) : Q :=
  if Qeq_bool q 0 then 0%Q
  else let k := 52 - exponent q in
       Qred (inject_Z (round_half_even (q * 2 ^ k)) / 2 ^ k).
Arguments to_double : simpl never.

Definition double (a : jsnum) : jsnum :=
  match a with Fin q => Fin (to_double q) | _ => a end.

(** [a + b] and [a * b] as the machine computes them. *)
Definition add64 (a b : jsnum) : jsnum := double (add a b).
Definition mul64 (a b : jsnum) : jsnum := double (mul a b).

(** [Math.sqrt] and [Math.exp] are implementation-approximated; the
    development is parametric in them.  Theorems state what they need. *)
Class JSMath : Type := {
  Math_sqrt : Q -> Q;
  Math_exp : Q -> Q
}.

Definition sqrt `{JSMath} (a : jsnum) : jsnum :=
  match a with
  | Fin q => if Qle_bool 0 q then Fin (Math_sqrt q) else NaN
  | PInf => PInf
  | NInf | NaN => NaN
  end.

Definition exp `{JSMath} (a : jsnum) : jsnum :=
  match a with
  | Fin q => Fin (Math_exp q)
  | PInf => PInf
  | NInf => Fin 0
  | NaN => NaN
  end.

(** ** Typed arrays and loops *)

(** [a[i]]: [None] is [undefined] (index outside the array). *)
Definition get (a : list Z) (i : Z) : option Z :=
  if decide (0 <= i) then a !! Z.to_nat i else None.

(** [a[i] = v] on a typed array: a store outside the array is ignored. *)
Definition set (a : list Z) (i : Z) (v : Z) : list Z :=
  if decide (0 <= i) then <[Z.to_nat i := v]> a else a.

(** [a[i] = v] on a [Uint8ClampedArray], with the conversion of [v]. *)
Definition store (a : list Z) (i : Z) (v : jsnum) : list Z :=
  set a i (toUint8Clamped v).

(** [for (i = lo; i < hi; i++) body], threading the state. *)
Definition for_range {S : Type} (lo hi : Z) (body : Z -> S -> S) (s : S) : S :=
  foldl (fun s i => body i s) s (seqZ lo (hi - lo)).

(** [for (i = lo; i < hi; i += step) body] for a positive [step]. *)
Definition for_step {S : Type} (lo hi step : Z) (body : Z -> S -> S) (s : S) : S :=
  foldl (fun s k => body (lo + k * step) s) s
        (seqZ 0 ((hi - lo + step - 1) / step)).

(** [for (i = lo; i <= hi; i++)] whose body only accumulates a count. *)
Definition count_range (lo hi : Z) (p : Z -> bool) : Z :=
  for_range lo (hi + 1) (fun i c => if p i then c + 1 else c) 0.

End JS.

Export JS(JSMath, Math_sqrt, Math_exp, jsnum).

(** An [ImageData] object: [data] has [4 * width * height] entries. *)
Record ImageData : Type := mkImageData {
  width : Z;
  height : Z;
  data : list Z
}.

Definition wf_image (img : ImageData) : Prop :=
  0 <= width img /\ 0 <= height img /\
  Z.of_nat (length (data img)) = 4 * (width img * height img).

(** A canvas filled from a pixel function: row-major RGBA. *)
Definition pixel : Type := (Z * Z * Z * Z)%type.

Definition pixel_bytes (p : pixel) : list Z :=
  let '(r, g, b, a) := p in [r; g; b; a].

Definition imageOf (w h : Z) (f : Z -> Z -> pixel) : ImageData :=
  mkImageData w h
    (seqZ 0 h ≫= fun y => seqZ 0 w ≫= fun x => pixel_bytes (f x y)).

Definition uniformImage (w h : Z) (p : pixel) : ImageData :=
  imageOf w h (fun _ _ => p).

(** A checkerboard of square cells of side [cell], [p0] in the top-left. *)
Definition checkerboard (w h cell : Z) (p0 p1 : pixel) : ImageData :=
  imageOf w h (fun x y => if Z.even (x / cell + y / cell) then p0 else p1).

(** ** ImageAnalyzer (image-analyzer.js) *)

Module ImageAnalyzer.
Import JS.

Section WithMath.
Context `{JSMath}.

(** The two disjuncts of [isSkinColor]. *)
Definition chromaticSkin (r g b : jsnum) : bool :=
  gt r (num 95) && gt g (num 40) && gt b (num 20) &&
  gt r g && gt r b &&
  gt (abs (sub r g)) (num 15) &&
  gt (sub (max (max r g) b) (min (min r g) b)) (num 15).

Definition paleSkin (r g b : jsnum) : bool :=
  gt r (num 220) && gt g (num 210) && gt b (num 170) &&
  le (abs (sub r g)) (num 15) &&
  gt r b && gt g b.

Definition isSkinColor (r g b : jsnum) : bool :=
  chromaticSkin r g b || paleSkin r g b.

(** [detectHuman]: the promise it returns always resolves, to this value. *)
Definition detectHuman (imageData : ImageData) : bool :=
  let pixels := data imageData in
  let len := Z.of_nat (length pixels) in
  let totalPixels := div (num len) (num 4) in
  let skinPixels :=
    for_step 0 len 4 (fun i skinPixels =>
      let r := of_read (get pixels i) in
      let g := of_read (get pixels (i + 1)) in
      let b := of_read (get pixels (i + 2)) in
      if isSkinColor r g b then skinPixels + 1 else skinPixels) 0 in
  let skinRatio := div (num skinPixels) totalPixels in
  gt skinRatio (Fin (5 # 100)).

(** [Math.floor(v / n) * n] of an array read; [None] is [NaN]. *)
Definition quantize (n : Z) (o : option Z) : option Z :=
  (fun v => v / n * n) <$> o.

(** The key [`${r}-${g}-${b}`] of a colour map, as the triple it spells. *)
Definition colorKey : Type := (option Z * option Z * option Z)%type.

Definition calculateColorVariance (imageData : ImageData) : jsnum :=
  let pixels := data imageData in
  let len := Z.of_nat (length pixels) in
  let colorMap : gmap colorKey Z :=
    for_step 0 len 4 (fun i (colorMap : gmap colorKey Z) =>
      let r := quantize 32 (get pixels i) in
      let g := quantize 32 (get pixels (i + 1)) in
      let b := quantize 32 (get pixels (i + 2)) in
      let colorKey := (r, g, b) in
      <[colorKey := default 0 (colorMap !! colorKey) + 1]> colorMap) ∅ in
  let uniqueColors := Z.of_nat (size colorMap) in
  let maxPossibleColors := 8 * 8 * 8 in
  div (num uniqueColors) (num maxPossibleColors).

(** [0.299 * r + 0.587 * g + 0.114 * b]: the three literals are doubles,
    and every product and sum is rounded. *)
Definition rgbToGray (r g b : jsnum) : jsnum :=
  add64 (add64 (mul64 (Fin (to_double (299 # 1000))) r)
               (mul64 (Fin (to_double (587 # 1000))) g))
        (mul64 (Fin (to_double (114 # 1000))) b).

Definition positions : list (Z * Z) :=
  [(-1, -1); (0, -1); (1, -1);
   (-1,  0); (0,  0); (1,  0);
   (-1,  1); (0,  1); (1,  1)].

Definition kernelX : list Z := [-1; 0; 1; -2; 0; 2; -1; 0; 1].
Definition kernelY : list Z := [-1; -2; -1; 0; 0; 0; 1; 2; 1].

Definition grayAt (pixels : list Z) (px py width : Z) : jsnum :=
  let idx := (py * width + px) * 4 in
  rgbToGray (of_read (get pixels idx)) (of_read (get pixels (idx + 1)))
            (of_read (get pixels (idx + 2))).

(** The loop shared by [getSobelX] and [getSobelY]. *)
Definition convolve (kernel : list Z) (pixels : list Z) (x y width : Z) : jsnum :=
  foldl (fun sum '((dx, dy), k) =>
           add64 sum (mul64 (grayAt pixels (x + dx) (y + dy) width) (num k)))
        (num 0) (zip positions kernel).

Definition getSobelX := convolve kernelX.
Definition getSobelY := convolve kernelY.

Definition calculateEdgeDensity (imageData : ImageData) : jsnum :=
  let pixels := data imageData in
  let width := width imageData in
  let height := height imageData in
  let threshold := num 30 in
  let edgeCount :=
    for_range 1 (height - 1) (fun y =>
      for_range 1 (width - 1) (fun x edgeCount =>
        let gx := getSobelX pixels x y width in
        let gy := getSobelY pixels x y width in
        let gradient := sqrt (add64 (mul64 gx gx) (mul64 gy gy)) in
        if gt gradient threshold then edgeCount + 1 else edgeCount)) 0 in
  let totalPixels := (width - 2) * (height - 2) in
  div (num edgeCount) (num totalPixels).

Definition lbpPositions : list (Z * Z) :=
  [(-1, -1); (0, -1); (1, -1);
   (1,   0);          (-1,  0);
   (1,   1); (0,  1); (-1,  1)].

Definition calculateLBP (pixels : list Z) (centerX centerY width : Z) : Z :=
  let centerGray := grayAt pixels centerX centerY width in
  foldl (fun lbpValue '(i, (dx, dy)) =>
           let gray := grayAt pixels (centerX + dx) (centerY + dy) width in
           if ge gray centerGray
           then Z.lor lbpValue (Z.shiftl 1 i) else lbpValue)
        0 (zip (seqZ 0 8) lbpPositions).

(** [lbpValue.toString(2).padStart(8, '0')]: eight binary digits, the most
    significant first ([lbpValue] is below 256). *)
Definition binaryDigits (lbpValue : Z) : list bool :=
  (fun i => Z.testbit lbpValue (7 - i)) <$> seqZ 0 8.

Definition getLBPVariance (lbpValue : Z) : Z :=
  let binary := binaryDigits lbpValue in
  for_range 0 8 (fun i transitions =>
    let current := binary !! Z.to_nat i in
    let next := binary !! Z.to_nat ((i + 1) mod 8) in
    if decide (current ≠ next) then transitions + 1 else transitions) 0.

Definition calculateTextureComplexity (imageData : ImageData) : jsnum :=
  let pixels := data imageData in
  let width := width imageData in
  let height := height imageData in
  let '(textureVariance, sampleCount) :=
    for_step 8 (height - 8) 8 (fun y =>
      for_step 8 (width - 8) 8 (fun x '(textureVariance, sampleCount) =>
        let lbp := calculateLBP pixels x y width in
        (textureVariance + getLBPVariance lbp, sampleCount + 1))) (0, 0) in
  if 0 <? sampleCount
  then div (div (num textureVariance) (num sampleCount)) (num 255)
  else num 0.

Definition calculateComplexity (imageData : ImageData) : jsnum :=
  let colorVariance := calculateColorVariance imageData in
  let edgeDensity := calculateEdgeDensity imageData in
  let textureComplexity := calculateTextureComplexity imageData in
  let complexity :=
    add (add (mul colorVariance (Fin (4 # 10))) (mul edgeDensity (Fin (4 # 10))))
        (mul textureComplexity (Fin (2 # 10))) in
  min (num 1) (max (num 0) complexity).

End WithMath.
End ImageAnalyzer.

(** ** Files, promises and the browser *)

(** A [File] as the code reads it: [file.name], [file.type], [file.size]. *)
Record File : Type := mkFile {
  name : string;
  type : string;
  size : Z
}.

Inductive Error : Type :=
  | Rejected (reason : string)   (* a provider, loader or canvas call failed *)
  | ProcessingFailed.            (* [new Error] thrown by [CanvasProcessor.process] *)

(** The outcome of a call: a value, a thrown error (a rejected promise; the
    timers of the source reject the promise they guard), or no outcome at
    all (a promise that stays pending, a loop that does not end). *)
Inductive result (A : Type) : Type :=
  | Ok (a : A)
  | Throw (e : Error)
  | Never.
Arguments Ok {A} a.
Arguments Throw {A} e.
Arguments Never {A}.

(** Sequencing of awaited calls: the first throw ends the block. *)
Global Instance result_bind : MBind result := fun A B k m =>
  match m with Ok a => k a | Throw e => Throw e | Never => Never end.

(** [try { body } catch (error) { handler }]. *)
Definition try_catch {A : Type} (body : result A) (handler : Error -> result A)
  : result A :=
  match body with Throw e => handler e | outcome => outcome end.

(** What the processors call outside this repository: image decoding, the
    canvas, and the two hosted segmentation models.  Each call either
    returns or throws.  [applyMask] stands for the loop of
    [applySegmentation] that writes the provider's mask into the alpha
    channel before post-processing. *)
Class Browser : Type := {
  Image : Type;
  Segmentation : Type;
  loadImage : File -> result Image;
  getImageData : Image -> result ImageData;
  toDataURL : ImageData -> result string;
  mediapipe_ensureLoaded : result unit;
  mediapipe_performSegmentation : Image -> result Segmentation;
  mediapipe_applyMask : ImageData -> Segmentation -> result ImageData;
  tensorflow_ensureLoaded : result unit;
  tensorflow_performInference : Image -> result Segmentation;
  tensorflow_applyMask : ImageData -> Segmentation -> result ImageData
}.

(** ** CanvasProcessor: the fast tier *)

Module CanvasProcessor.
Import JS.

(** A [Map] in insertion order, with [map.set(k, (map.get(k) || 0) + 1)]. *)
Fixpoint bump {K : Type} `{EqDecision K} (k : K) (m : list (K * Z)) : list (K * Z) :=
  match m with
  | [] => [(k, 1)]
  | (k', c) :: m' =>
      if decide (k = k') then (k', c + 1) :: m' else (k', c) :: bump k m'
  end.

(** [entries.sort((a, b) => b[1] - a[1])]: stable, by decreasing count. *)
Fixpoint insert_desc {K : Type} (x : K * Z) (l : list (K * Z)) : list (K * Z) :=
  match l with
  | [] => [x]
  | y :: l' => if x.2 <? y.2 then y :: insert_desc x l' else x :: l
  end.

Definition sort_desc {K : Type} (l : list (K * Z)) : list (K * Z) :=
  foldr insert_desc [] l.

Section WithMath.
Context `{JSMath}.

Definition colorKey : Type := ImageAnalyzer.colorKey.

(** A background colour [{r, g, b}], read back from its key. *)
Definition color : Type := (jsnum * jsnum * jsnum)%type.

Definition color_of_key (k : colorKey) : color :=
  let '(r, g, b) := k in
  (from_option num NaN r, from_option num NaN g, from_option num NaN b).

Definition detectBackgroundColors (imageData : ImageData) : list color :=
  let data := data imageData in
  let width := width imageData in
  let height := height imageData in
  let samplePoints : list (Z * Z) :=
    for_step 0 width 5 (fun x pts => pts ++ [(x, 0); (x, height - 1)]) [] in
  let samplePoints :=
    for_step 0 height 5 (fun y pts => pts ++ [(0, y); (width - 1, y)])
             samplePoints in
  let colorMap : list (colorKey * Z) :=
    foldl (fun colorMap '(x, y) =>
             let index := (y * width + x) * 4 in
             let r := ImageAnalyzer.quantize 16 (get data index) in
             let g := ImageAnalyzer.quantize 16 (get data (index + 1)) in
             let b := ImageAnalyzer.quantize 16 (get data (index + 2)) in
             bump (r, g, b) colorMap) [] samplePoints in
  let sortedColors := take 3 (sort_desc colorMap) in
  (fun '(colorKey, _) => color_of_key colorKey) <$> sortedColors.

(** The two Sobel loops are written out again in this class; they are the
    loops of [ImageAnalyzer]. *)
Definition getSobelX := ImageAnalyzer.convolve ImageAnalyzer.kernelX.
Definition getSobelY := ImageAnalyzer.convolve ImageAnalyzer.kernelY.

(** [new Uint8Array(n)]: [n] zeros. *)
Definition new_array (n : Z) : list Z := replicate (Z.to_nat n) 0.

Definition createEdgeMap (imageData : ImageData) : list Z :=
  let data := data imageData in
  let width := width imageData in
  let height := height imageData in
  for_range 1 (height - 1) (fun y =>
    for_range 1 (width - 1) (fun x edgeMap =>
      let gx := getSobelX data x y width in
      let gy := getSobelY data x y width in
      let magnitude := sqrt (add64 (mul64 gx gx) (mul64 gy gy)) in
      set edgeMap (y * width + x) (if gt magnitude (num 30) then 255 else 0)))
    (new_array (width * height)).

Definition in_bounds (nx ny width height : Z) : bool :=
  (0 <=? nx) && (nx <? width) && (0 <=? ny) && (ny <? height).

(** [edgeMap[i] > 0]. *)
Definition is_edge (edgeMap : list Z) (i : Z) : bool :=
  gt (of_read (get edgeMap i)) (num 0).

Definition isNearEdge (x y : Z) (edgeMap : list Z) (width height radius : Z) : bool :=
  existsb (fun dy =>
    existsb (fun dx =>
      let nx := x + dx in
      let ny := y + dy in
      in_bounds nx ny width height && is_edge edgeMap (ny * width + nx))
      (seqZ (- radius) (2 * radius + 1)))
    (seqZ (- radius) (2 * radius + 1)).

Definition sq (a : jsnum) : jsnum := mul a a.

Definition isBackgroundPixel (r g b : jsnum) (backgroundColors : list color)
    (edgeMap : list Z) (x y width height : Z) : bool :=
  existsb (fun '(bgr, bgg, bgb) =>
    let colorDistance :=
      sqrt (add (add (sq (sub r bgr)) (sq (sub g bgg))) (sq (sub b bgb))) in
    let isNearEdge := isNearEdge x y edgeMap width height 2 in
    let threshold := if isNearEdge then num 40 else num 60 in
    lt colorDistance threshold) backgroundColors.

Definition getEdgeDistance (x y : Z) (edgeMap : list Z) (width height : Z) : jsnum :=
  let minDistance :=
    for_range (-5) 6 (fun dy =>
      for_range (-5) 6 (fun dx minDistance =>
        let nx := x + dx in
        let ny := y + dy in
        if in_bounds nx ny width height && is_edge edgeMap (ny * width + nx)
        then min minDistance (sqrt (num (dx * dx + dy * dy)))
        else minDistance)) PInf in
  if eq minDistance PInf then num 10 else minDistance.

(** The 3x3 window count of [removeNoise]: the entries of [a] with alpha
    above 128 among the nine pixels around and including [(x, y)]. *)
Definition foregroundCount (a : list Z) (x y width : Z) : Z :=
  for_range (-1) 2 (fun dy =>
    for_range (-1) 2 (fun dx foregroundCount =>
      let nIndex := ((y + dy) * width + (x + dx)) * 4 in
      if gt (of_read (get a (nIndex + 3))) (num 128)
      then foregroundCount + 1 else foregroundCount)) 0.

(** First loop of [removeNoise]: erosion, reading the copy [originalData]. *)
Definition erode (originalData : list Z) (width height : Z) (data : list Z) : list Z :=
  for_range 1 (height - 1) (fun y =>
    for_range 1 (width - 1) (fun x data =>
      let index := (y * width + x) * 4 in
      if gt (of_read (get originalData (index + 3))) (num 128) then
        if foregroundCount originalData x y width <? 5
        then set data (index + 3) 0 else data
      else data)) data.

(** A store of an array read into a [Uint8ClampedArray]. *)
Definition copy_entry (data : list Z) (i : Z) (src : list Z) : list Z :=
  store data i (of_read (get src i)).

(** Second loop of [removeNoise]: dilation, reading the copy [erodedData]. *)
Definition dilate (originalData erodedData : list Z) (width height : Z)
    (data : list Z) : list Z :=
  for_range 1 (height - 1) (fun y =>
    for_range 1 (width - 1) (fun x data =>
      let index := (y * width + x) * 4 in
      if eq (of_read (get erodedData (index + 3))) (num 0) then
        if 6 <=? foregroundCount erodedData x y width then
          let data := copy_entry data index originalData in
          let data := copy_entry data (index + 1) originalData in
          let data := copy_entry data (index + 2) originalData in
          copy_entry data (index + 3) originalData
        else data
      else data)) data.

Definition removeNoise (imageData : ImageData) : ImageData :=
  let data := data imageData in
  let width := width imageData in
  let height := height imageData in
  let originalData := data in
  let data := erode originalData width height data in
  let erodedData := data in
  let data := dilate originalData erodedData width height data in
  mkImageData width height data.

Definition removeBackground (imageData : ImageData) : ImageData :=
  let data := data imageData in
  let width := width imageData in
  let height := height imageData in
  let backgroundColors := detectBackgroundColors imageData in
  let edgeMap := createEdgeMap imageData in
  let data :=
    for_step 0 (Z.of_nat (length data)) 4 (fun i data =>
      let pixelIndex := i / 4 in
      let x := pixelIndex mod width in
      let y := pixelIndex / width in
      let r := of_read (get data i) in
      let g := of_read (get data (i + 1)) in
      let b := of_read (get data (i + 2)) in
      if isBackgroundPixel r g b backgroundColors edgeMap x y width height
      then set data (i + 3) 0
      else
        let edgeDistance := getEdgeDistance x y edgeMap width height in
        if lt edgeDistance (num 3)
        then store data (i + 3)
               (max (num 0)
                    (sub (of_read (get data (i + 3)))
                         (div (mul (num 50) (sub (num 3) edgeDistance)) (num 3))))
        else data) data in
  removeNoise (mkImageData width height data).

End WithMath.

Section WithBrowser.
Context `{JSMath} `{Browser}.

(** The body of the [try] block of [process]. *)
Definition process_body (file : File) : result string :=
  image ← loadImage file;
  imageData ← getImageData image;
  let processedData := removeBackground imageData in
  toDataURL processedData.

Definition process (file : File) : result string :=
  try_catch (process_body file) (fun error => Throw ProcessingFailed).

End WithBrowser.
End CanvasProcessor.

(** ** MediaPipeProcessor: the balanced tier *)

Module MediaPipeProcessor.
Import JS.

(** [values.sort((a, b) => a - b)]: numbers in increasing order; [sort]
    moves every [undefined] entry to the end. *)
Fixpoint insert_asc (v : Z) (l : list Z) : list Z :=
  match l with
  | [] => [v]
  | u :: l' => if v <? u then v :: l else u :: insert_asc v l'
  end.

Definition sort_numbers (values : list (option Z)) : list (option Z) :=
  let defined := omap id values in
  (Some <$> foldr insert_asc [] defined)
    ++ replicate (length values - length defined) None.

(** The alpha values of the 3x3 window around [(x, y)], row by row. *)
Definition window3 (a : list Z) (x y width : Z) : list (option Z) :=
  seqZ (-1) 3 ≫= fun dy => seqZ (-1) 3 ≫= fun dx =>
    [get a (((y + dy) * width + (x + dx)) * 4 + 3)].

Definition medianFilter (imageData : ImageData) : ImageData :=
  let data := data imageData in
  let width := width imageData in
  let height := height imageData in
  let originalData := data in
  mkImageData width height
    (for_range 1 (height - 1) (fun y =>
       for_range 1 (width - 1) (fun x data =>
         let index := (y * width + x) * 4 in
         let alphaValues := sort_numbers (window3 originalData x y width) in
         store data (index + 3) (of_read (mjoin (alphaValues !! 4%nat))))) data).

(** One pass of [morphologicalOperations]: the fold of [op] ([Math.min] or
    [Math.max]) over the 3x3 window of the copy [src], from [init]. *)
Definition morph_pass (op : jsnum -> jsnum -> jsnum) (init : Z)
    (src : list Z) (width height : Z) (data : list Z) : list Z :=
  for_range 1 (height - 1) (fun y =>
    for_range 1 (width - 1) (fun x data =>
      let index := (y * width + x) * 4 in
      let extremeAlpha :=
        foldl (fun acc v => op acc (of_read v)) (num init)
              (window3 src x y width) in
      store data (index + 3) extremeAlpha)) data.

Definition morphologicalOperations (imageData : ImageData) : ImageData :=
  let data := data imageData in
  let width := width imageData in
  let height := height imageData in
  let tempData := data in
  let data := morph_pass min 255 tempData width height data in
  let erodedData := data in
  let data := morph_pass max 0 erodedData width height data in
  mkImageData width height data.

Definition in_bounds (nx ny width height : Z) : bool :=
  (0 <=? nx) && (nx <? width) && (0 <=? ny) && (ny <? height).

(** [|centerAlpha - nAlpha|] for the neighbour [(nx, ny)]. *)
Definition alphaDiff (data : list Z) (x y nx ny width : Z) : jsnum :=
  let centerAlpha := of_read (get data ((y * width + x) * 4 + 3)) in
  let nAlpha := of_read (get data ((ny * width + nx) * 4 + 3)) in
  abs (sub centerAlpha nAlpha).

Definition neighbors4 (x y : Z) : list (Z * Z) :=
  [(x - 1, y); (x + 1, y); (x, y - 1); (x, y + 1)].

Definition isEdgePixel (x y : Z) (data : list Z) (width height : Z) : bool :=
  existsb (fun '(nx, ny) =>
    in_bounds nx ny width height &&
    gt (alphaDiff data x y nx ny width) (num 100)) (neighbors4 x y).

Section WithMath.
Context `{JSMath}.

(** [Math.exp(-(distance * distance) / (2 * sigma * sigma))] with
    [distance = Math.sqrt(dx * dx + dy * dy)]. *)
Definition gaussianWeight (sigma : jsnum) (dx dy : Z) : jsnum :=
  let distance := sqrt (num (dx * dx + dy * dy)) in
  exp (div (neg (mul distance distance)) (mul (mul (num 2) sigma) sigma)).

(** The accumulation loop of the Gaussian average: [(alphaSum, weightSum)]
    after the window of the given radius around [(x, y)]. *)
Definition gaussianSums (originalData : list Z) (x y width radius : Z)
    (sigma : jsnum) : jsnum * jsnum :=
  for_range (- radius) (radius + 1) (fun dy =>
    for_range (- radius) (radius + 1) (fun dx '(alphaSum, weightSum) =>
      let weight := gaussianWeight sigma dx dy in
      let nIndex := ((y + dy) * width + (x + dx)) * 4 in
      (add alphaSum (mul (of_read (get originalData (nIndex + 3))) weight),
       add weightSum weight))) (num 0, num 0).

Definition edgeFeathering (imageData : ImageData) : ImageData :=
  let data := data imageData in
  let width := width imageData in
  let height := height imageData in
  let originalData := data in
  let radius := 2 in
  let sigma := num 1 in
  mkImageData width height
    (for_range radius (height - radius) (fun y =>
       for_range radius (width - radius) (fun x data =>
         let index := (y * width + x) * 4 in
         if isEdgePixel x y originalData width height then
           let '(alphaSum, weightSum) :=
             gaussianSums originalData x y width radius sigma in
           store data (index + 3) (div alphaSum weightSum)
         else data)) data).

Definition postProcessSegmentation (imageData : ImageData) : ImageData :=
  let imageData := medianFilter imageData in
  let imageData := morphologicalOperations imageData in
  edgeFeathering imageData.

End WithMath.

Section WithBrowser.
Context `{JSMath} `{Browser}.

Definition applySegmentation (image : Image) (segmentationResult : Segmentation)
  : result string :=
  imageData ← getImageData image;
  imageData ← mediapipe_applyMask imageData segmentationResult;
  toDataURL (postProcessSegmentation imageData).

Definition process_body (file : File) : result string :=
  _ ← mediapipe_ensureLoaded;
  image ← loadImage file;
  segmentationResult ← mediapipe_performSegmentation image;
  applySegmentation image segmentationResult.

(** On any failure the [catch] block runs a fresh [CanvasProcessor]. *)
Definition process (file : File) : result string :=
  try_catch (process_body file) (fun error => CanvasProcessor.process file).

End WithBrowser.
End MediaPipeProcessor.

(** ** TensorFlowProcessor: the precise tier *)

Module TensorFlowProcessor.
Import JS.

Definition in_bounds := MediaPipeProcessor.in_bounds.
Definition alphaDiff := MediaPipeProcessor.alphaDiff.

Definition neighbors8 (x y : Z) : list (Z * Z) :=
  [(x - 1, y - 1); (x, y - 1); (x + 1, y - 1);
   (x - 1, y);                 (x + 1, y);
   (x - 1, y + 1); (x, y + 1); (x + 1, y + 1)].

Definition isEdgePixel (x y : Z) (data : list Z) (width height : Z) : bool :=
  existsb (fun '(nx, ny) =>
    in_bounds nx ny width height &&
    gt (alphaDiff data x y nx ny width) (num 50)) (neighbors8 x y).

Definition calculateEdgeStrength (x y : Z) (data : list Z) (width height : Z) : jsnum :=
  foldl (fun maxDiff '(nx, ny) =>
    if in_bounds nx ny width height
    then max maxDiff (alphaDiff data x y nx ny width) else maxDiff)
    (num 0) (neighbors8 x y).

(** [data[pixelIndex + 3] > 128] for the pixel of flat index [index]. *)
Definition foreground (data : list Z) (index : Z) : bool :=
  gt (of_read (get data (index * 4 + 3))) (num 128).

(** [data[pixelIndex + 3] <= 128], the test of [floodFill]: false, like
    the test above, when the read is [undefined]. *)
Definition background (data : list Z) (index : Z) : bool :=
  le (of_read (get data (index * 4 + 3))) (num 128).

(** The [while (stack.length > 0)] loop of [floodFill].  The head of
    [stack] is its top; [visited] is the set of indices whose entry of the
    boolean array is [true].  [None] when [fuel] iterations do not empty the
    stack. *)
Fixpoint floodFill_loop (fuel : nat) (data : list Z) (width height : Z)
    (visited : gset Z) (stack : list (Z * Z)) (component : list Z)
  : option (gset Z * list Z) :=
  match stack with
  | [] => Some (visited, component)
  | (x, y) :: stack =>
      match fuel with
      | O => None
      | S fuel =>
          let index := y * width + x in
          if negb (MediaPipeProcessor.in_bounds x y width height)
             || bool_decide (index ∈ visited)
          then floodFill_loop fuel data width height visited stack component
          else if background data index
          then floodFill_loop fuel data width height visited stack component
          else
            floodFill_loop fuel data width height ({[index]} ∪ visited)
              ((x, y + 1) :: (x, y - 1) :: (x + 1, y) :: (x - 1, y) :: stack)
              (component ++ [index])
      end
  end.

(** Every iteration pops one entry, and only the marking of a new pixel
    pushes four: [4 * width * height + 1] iterations empty the stack. *)
Definition floodFill (data : list Z) (visited : gset Z)
    (startX startY width height : Z) : option (gset Z * list Z) :=
  floodFill_loop (Z.to_nat (4 * (width * height) + 1)) data width height
                 visited [(startX, startY)] [].

(** First loop of [connectedComponentAnalysis]: the components found. *)
Definition findComponents (data : list Z) (width height : Z)
  : option (gset Z * list (list Z)) :=
  for_range 0 height (fun y =>
    for_range 0 width (fun x st =>
      '(visited, components) ← st;
      let index := y * width + x in
      if bool_decide (index ∈ visited) then Some (visited, components)
      else if foreground data index then
        '(visited, component) ← floodFill data visited x y width height;
        if decide (0 < length component)%nat
        then Some (visited, components ++ [component])
        else Some (visited, components)
      else Some (visited, components))) (Some (∅, [])).

(** [Math.max(50, (width * height) / 1000)]. *)
Definition minComponentSize (width height : Z) : jsnum :=
  max (num 50) (div (num (width * height)) (num 1000)).

Definition connectedComponentAnalysis (imageData : ImageData) : option ImageData :=
  let data := data imageData in
  let width := width imageData in
  let height := height imageData in
  '(_, components) ← findComponents data width height;
  let minComponentSize := minComponentSize width height in
  Some (mkImageData width height
    (foldl (fun data component =>
       if lt (num (Z.of_nat (length component))) minComponentSize
       then foldl (fun data pixelIndex => set data (pixelIndex * 4 + 3) 0)
                  data component
       else data) data components)).

Section WithMath.
Context `{JSMath}.

Definition bilateralFilter (imageData : ImageData) : ImageData :=
  let data := data imageData in
  let width := width imageData in
  let height := height imageData in
  let originalData := data in
  let spatialSigma := num 5 in
  let rangeSigma := num 50 in
  let radius := 5 in
  mkImageData width height
    (for_range radius (height - radius) (fun y =>
       for_range radius (width - radius) (fun x data =>
         let centerIndex := (y * width + x) * 4 in
         let centerAlpha := of_read (get originalData (centerIndex + 3)) in
         let '(weightSum, alphaSum) :=
           for_range (- radius) (radius + 1) (fun dy =>
             for_range (- radius) (radius + 1) (fun dx '(weightSum, alphaSum) =>
               let nIndex := ((y + dy) * width + (x + dx)) * 4 in
               let nAlpha := of_read (get originalData (nIndex + 3)) in
               let spatialDistance := sqrt (num (dx * dx + dy * dy)) in
               let rangeDistance := abs (sub centerAlpha nAlpha) in
               let spatialWeight :=
                 exp (div (neg (mul spatialDistance spatialDistance))
                          (mul (mul (num 2) spatialSigma) spatialSigma)) in
               let rangeWeight :=
                 exp (div (neg (mul rangeDistance rangeDistance))
                          (mul (mul (num 2) rangeSigma) rangeSigma)) in
               let weight := mul spatialWeight rangeWeight in
               (add weightSum weight, add alphaSum (mul nAlpha weight))))
             (num 0, num 0) in
         store data (centerIndex + 3) (div alphaSum weightSum))) data).

(** The Gaussian accumulation of [edgeOptimization], with its adaptive
    [sigma] and [radius = Math.ceil(sigma * 2)]; the loops do not run when
    [radius] is not a number. *)
Definition adaptiveSums (originalData : list Z) (x y width height : Z)
  : jsnum * jsnum :=
  let edgeStrength := calculateEdgeStrength x y originalData width height in
  let sigma := max (Fin (1 # 2)) (min (num 2) (div edgeStrength (num 50))) in
  match ceil (mul sigma (num 2)) with
  | Fin radius =>
      MediaPipeProcessor.gaussianSums originalData x y width (Qfloor radius) sigma
  | _ => (num 0, num 0)
  end.

Definition edgeOptimization (imageData : ImageData) : ImageData :=
  let data := data imageData in
  let width := width imageData in
  let height := height imageData in
  let originalData := data in
  mkImageData width height
    (for_range 2 (height - 2) (fun y =>
       for_range 2 (width - 2) (fun x data =>
         let index := (y * width + x) * 4 in
         if isEdgePixel x y originalData width height then
           let '(alphaSum, weightSum) :=
             adaptiveSums originalData x y width height in
           store data (index + 3) (div alphaSum weightSum)
         else data)) data).

Definition postProcessSegmentation (imageData : ImageData) : option ImageData :=
  let imageData := bilateralFilter imageData in
  imageData ← connectedComponentAnalysis imageData;
  Some (edgeOptimization imageData).

End WithMath.

Section WithBrowser.
Context `{JSMath} `{Browser}.

Definition applySegmentation (image : Image) (segmentation : Segmentation)
  : result string :=
  imageData ← getImageData image;
  imageData ← tensorflow_applyMask imageData segmentation;
  match postProcessSegmentation imageData with
  | Some imageData => toDataURL imageData
  | None => Never
  end.

Definition process_body (file : File) : result string :=
  _ ← tensorflow_ensureLoaded;
  image ← loadImage file;
  segmentation ← tensorflow_performInference image;
  applySegmentation image segmentation.

(** On any failure the [catch] block runs a fresh [MediaPipeProcessor]. *)
Definition process (file : File) : result string :=
  try_catch (process_body file) (fun error => MediaPipeProcessor.process file).

End WithBrowser.
End TensorFlowProcessor.

(** ** BackgroundRemovalApp *)

Module BackgroundRemovalApp.
Import JS.

Inductive Mode : Type := fast | balanced | precise.

(** The object [ImageAnalyzer.analyze] resolves to (its [size] apart). *)
Record Analysis : Type := mkAnalysis {
  hasHuman : bool;
  complexity : jsnum;
  colorVariance : jsnum;
  edgeDensity : jsnum
}.

Definition getRecommendedMode (analysis : Analysis) : Mode :=
  if hasHuman analysis && gt (complexity analysis) (Fin (7 # 10)) then precise
  else if hasHuman analysis || gt (complexity analysis) (Fin (4 # 10)) then balanced
  else fast.

(** The two warnings of [processFiles]. *)
Inductive Message : Type :=
  | UnsupportedFormat
  | TooLarge (fileName : string).

(** What [processFiles] does to the page, in order. *)
Inductive Action : Type :=
  | ShowMessage (m : Message)
  | ShowImagePreviews (files : list File)
  | EnableProcessButton
  | AnalyzeImagesAndRecommend (files : list File).

Record App : Type := mkApp {
  currentFiles : list File;
  isManualMode : bool;
  actions : list Action
}.

Definition isValidType (file : File) : bool :=
  bool_decide (type file = "image/jpeg") || bool_decide (type file = "image/png").

Definition isValidSize (file : File) : bool :=
  size file <=? 10 * 1024 * 1024.

(** The callback of [files.filter]: its verdict, and the warning it shows. *)
Definition keepFile (file : File) (actions : list Action) : bool * list Action :=
  if negb (isValidType file)
  then (false, actions ++ [ShowMessage UnsupportedFormat])
  else if negb (isValidSize file)
  then (false, actions ++ [ShowMessage (TooLarge (name file))])
  else (true, actions).

Definition filterFiles (files : list File) (actions : list Action)
  : list File * list Action :=
  foldl (fun '(validFiles, actions) file =>
           let '(keep, actions) := keepFile file actions in
           (if keep then validFiles ++ [file] else validFiles, actions))
        ([], actions) files.

Definition processFiles (files : list File) (app : App) : App :=
  let '(validFiles, actions) := filterFiles files (actions app) in
  if decide (length validFiles = 0%nat)
  then mkApp (currentFiles app) (isManualMode app) actions
  else
    mkApp validFiles (isManualMode app)
      (actions ++ [ShowImagePreviews validFiles; EnableProcessButton]
               ++ (if negb (isManualMode app)
                   then [AnalyzeImagesAndRecommend validFiles] else [])).

End BackgroundRemovalApp.

(** ** Vocabulary of the statements *)

(** Entries are bytes, as in every [Uint8ClampedArray]. *)
Definition bytes (a : list Z) : Prop := Forall (fun v => 0 <= v <= 255) a.

(** Every pixel of the image is the mid-gray (128,128,128). *)
Definition midGray (img : ImageData) : Prop :=
  forall i, 0 <= i < Z.of_nat (length (data img)) -> i mod 4 = 0 ->
    JS.get (data img) i = Some 128 /\
    JS.get (data img) (i + 1) = Some 128 /\
    JS.get (data img) (i + 2) = Some 128.

(** The intake rule in words: JPEG or PNG, and at most 10MB. *)
Definition acceptable (file : File) : Prop :=
  (type file = "image/jpeg" \/ type file = "image/png") /\
  size file <= 10 * 1024 * 1024.

(** The verdict of the filter of [processFiles] on one file, and the
    warning a rejected file produces. *)
Definition accepted (file : File) : bool :=
  BackgroundRemovalApp.isValidType file && BackgroundRemovalApp.isValidSize file.

Definition warning (file : File) : option BackgroundRemovalApp.Action :=
  if negb (BackgroundRemovalApp.isValidType file)
  then Some (BackgroundRemovalApp.ShowMessage BackgroundRemovalApp.UnsupportedFormat)
  else if negb (BackgroundRemovalApp.isValidSize file)
  then Some (BackgroundRemovalApp.ShowMessage
               (BackgroundRemovalApp.TooLarge (name file)))
  else None.

(** The buffer after a list of stores [(index, value)], applied in order. *)
Definition apply_writes (ws : list (Z * Z)) (a : list Z) : list Z :=
  foldl (fun a '(i, v) => JS.set a i v) a ws.

(** Alpha of the pixel [(x, y)], and whether it is foreground (above 128). *)
Definition alphaAt (a : list Z) (width x y : Z) : option Z :=
  JS.get a ((y * width + x) * 4 + 3).

Definition fgAt (a : list Z) (width x y : Z) : bool :=
  JS.gt (JS.of_read (alphaAt a width x y)) (JS.num 128).

Definition neighbours8 (x y : Z) : list (Z * Z) :=
  [(x - 1, y - 1); (x, y - 1); (x + 1, y - 1);
   (x - 1, y);                 (x + 1, y);
   (x - 1, y + 1); (x, y + 1); (x + 1, y + 1)].

(** How many of the eight neighbours of [(x, y)] are foreground. *)
Definition fgNeighbours (a : list Z) (width x y : Z) : Z :=
  Z.of_nat (length (filter (fun '(nx, ny) => fgAt a width nx ny = true)
                           (neighbours8 x y))).

(** ** A rational [Math], to run the definitions on examples

    [Math.sqrt] to thirty binary digits, and [(1 + q/256)^256] for
    [Math.exp]. *)
Definition ref_sqrt (q : Q) : Q :=
  Z.sqrt (Qfloor (q * inject_Z (2 ^ 60))) # 1073741824.

Definition Qsquare (q : Q) : Q := (q * q)%Q.

Definition ref_exp (q : Q) : Q :=
  Nat.iter 8 Qsquare (1 + q / 256)%Q.

Definition refMath : JSMath :=
  {| Math_sqrt := ref_sqrt; Math_exp := ref_exp |}.

(** Two buffers of one size with the same R, G and B entries. *)
Definition same_rgb (a b : list Z) : Prop :=
  length a = length b /\ forall j, j mod 4 <> 3 -> JS.get a j = JS.get b j.

(** A 3x3 image whose centre is opaque and has exactly four opaque
    neighbours (the left column and the top middle). *)
Definition noiseSample : ImageData :=
  imageOf 3 3 (fun x y =>
    (10, 20, 30,
     if (x =? 0) || ((x =? 1) && (y <? 2)) then 255 else 0)).

(** The stores of one iteration of the two loops of [removeNoise]. *)
Definition erodeStores (orig : list Z) (w x y : Z) : list (Z * Z) :=
  if fgAt orig w x y && (CanvasProcessor.foregroundCount orig x y w <? 5)
  then [((y * w + x) * 4 + 3, 0)] else [].

Definition restored (orig : list Z) (i : Z) : Z :=
  JS.toUint8Clamped (JS.of_read (JS.get orig i)).

Definition dilateStores (orig eroded : list Z) (w x y : Z) : list (Z * Z) :=
  let index := (y * w + x) * 4 in
  if JS.eq (JS.of_read (alphaAt eroded w x y)) (JS.num 0)
     && (6 <=? CanvasProcessor.foregroundCount eroded x y w)
  then [(index, restored orig index); (index + 1, restored orig (index + 1));
        (index + 2, restored orig (index + 2)); (index + 3, restored orig (index + 3))]
  else [].

(** The invariant of every loop of the fast tier. *)
Definition frame (b a : list Z) : Prop := bytes a /\ same_rgb a b.

(** Pixels, as coordinates, of a [width] x [height] mask. *)
Definition pixelIndex (width : Z) (p : Z * Z) : Z := p.2 * width + p.1.

Definition inImage (width height : Z) (p : Z * Z) : Prop :=
  0 <= p.1 < width /\ 0 <= p.2 < height.

(** A foreground pixel: inside the mask, with alpha above 128. *)
Definition fgPixel (data : list Z) (width height : Z) (p : Z * Z) : Prop :=
  inImage width height p /\
  TensorFlowProcessor.foreground data (pixelIndex width p) = true.

Definition adjacent4 (p q : Z * Z) : Prop :=
  q ∈ MediaPipeProcessor.neighbors4 p.1 p.2.

(** One step between 4-adjacent foreground pixels, and 4-connectedness. *)
Definition fgStep (data : list Z) (width height : Z) (p q : Z * Z) : Prop :=
  fgPixel data width height p /\ fgPixel data width height q /\ adjacent4 p q.

Definition connected4 (data : list Z) (width height : Z) : relation (Z * Z) :=
  rtc (fgStep data width height).

(** [n < Math.max(50, (width * height) / 1000)] for a component of [n] pixels. *)
Definition smallComponent (n width height : Z) : Prop :=
  n < 50 \/ 1000 * n < width * height.

(** [comp] lists, once each, the pixels 4-connected to [p]. *)
Definition componentOf (data : list Z) (width height : Z) (p : Z * Z)
    (comp : list (Z * Z)) : Prop :=
  NoDup comp /\ forall q, q ∈ comp <-> connected4 data width height p q.

(** The stores of the pruning loop for one component. *)
Definition zeroStores (width height : Z) (component : list Z) : list (Z * Z) :=
  if JS.lt (JS.num (Z.of_nat (length component)))
           (TensorFlowProcessor.minComponentSize width height)
  then (fun pixelIndex => (pixelIndex * 4 + 3, 0)) <$> component
  else [].

(** ** Invariants of the flood fill *)

Section FloodInvariants.
Variables (data : list Z) (w h : Z).

(** A set of indices that holds whole components only. *)
Definition closedSet (V : gset Z) : Prop :=
  forall p q, fgStep data w h p q -> pixelIndex w p ∈ V -> pixelIndex w q ∈ V.

Definition indexSet (V : gset Z) : Prop := forall i, i ∈ V -> 0 <= i < w * h.

(** The invariant of the loop of [floodFill], started at [p0] on [V0]. *)
Record floodInv (V0 : gset Z) (p0 : Z * Z) (V : gset Z) (S : list (Z * Z))
    (C : list Z) : Prop := mkFloodInv {
  inv_visited : V = V0 ∪ list_to_set C;
  inv_nodup : NoDup C;
  inv_fresh : forall i, i ∈ C -> i ∉ V0;
  inv_conn : forall i, i ∈ C ->
     exists q, pixelIndex w q = i /\ fgPixel data w h q /\ connected4 data w h p0 q;
  inv_frontier : forall q, inImage w h q -> pixelIndex w q ∈ C ->
     forall n, adjacent4 q n ->
       n ∈ S \/ ~ fgPixel data w h n \/ pixelIndex w n ∈ V;
  inv_stack : forall s, s ∈ S -> fgPixel data w h s -> connected4 data w h p0 s;
  inv_start : p0 ∈ S \/ pixelIndex w p0 ∈ C
}.

(** A list of indices that is one whole component. *)
Definition componentList (c : list Z) : Prop :=
  NoDup c /\
  exists p, fgPixel data w h p /\
    forall i, i ∈ c <-> exists q, pixelIndex w q = i /\ connected4 data w h p q.

(** The invariant of the scan of [findComponents] before index [k]. *)
Definition foundUpTo (k : Z) (st : option (gset Z * list (list Z))) : Prop :=
  exists V comps, st = Some (V, comps) /\
    closedSet V /\ indexSet V /\
    (forall i, i ∈ V <-> exists c, c ∈ comps /\ i ∈ c) /\
    (forall c, c ∈ comps -> componentList c) /\
    (forall q, fgPixel data w h q -> pixelIndex w q < k -> pixelIndex w q ∈ V).

Definition pixelCoords (i : Z) : Z * Z := (i mod w, i / w).

End FloodInvariants.

(** A 5x5 mask with a vertical silhouette edge: opaque left, clear right. *)
Definition edgeSample : ImageData :=
  imageOf 5 5 (fun x y => (10, 20, 30, if x <? 2 then 255 else 0)).

(** A fully opaque 3x3 mask, and the same image fully transparent. *)
Definition opaque3 : ImageData := uniformImage 3 3 (10, 20, 30, 255).
Definition transparent3 : ImageData := uniformImage 3 3 (10, 20, 30, 0).

(** Channel [c] (0 to 3) of a pixel. *)
Definition channel (p : pixel) (c : Z) : Z :=
  let '(r, g, b, a) := p in
  if c =? 0 then r else if c =? 1 then g else if c =? 2 then b else a.

(** A pixel of a canvas: four bytes. *)
Definition bytePixel (p : pixel) : Prop :=
  forall c, 0 <= c < 4 -> 0 <= channel p c <= 255.

(** The bucket of a colour in the 32-level quantisation. *)
Definition colorBucket (p : pixel) : ImageAnalyzer.colorKey :=
  (ImageAnalyzer.quantize 32 (Some (channel p 0)),
   ImageAnalyzer.quantize 32 (Some (channel p 1)),
   ImageAnalyzer.quantize 32 (Some (channel p 2))).

(** The luminance of a pixel, as [rgbToGray] computes it. *)
Definition grayOf (p : pixel) : Q :=
  JS.to_double
    (JS.to_double
       (JS.to_double (JS.to_double (299 # 1000) * inject_Z (channel p 0))
        + JS.to_double (JS.to_double (587 # 1000) * inject_Z (channel p 1)))
     + JS.to_double (JS.to_double (114 # 1000) * inject_Z (channel p 2)))%Q.

(** One step of the colour-count loop of [calculateColorVariance], on the
    key of pixel [i], and the key the loop builds at index [i]. *)
Definition countStep (key : Z -> ImageAnalyzer.colorKey) (i : Z)
    (m : gmap ImageAnalyzer.colorKey Z) : gmap ImageAnalyzer.colorKey Z :=
  <[key i := default 0 (m !! key i) + 1]> m.

Definition pixelKey (pixels : list Z) (i : Z) : ImageAnalyzer.colorKey :=
  (ImageAnalyzer.quantize 32 (JS.get pixels i),
   ImageAnalyzer.quantize 32 (JS.get pixels (i + 1)),
   ImageAnalyzer.quantize 32 (JS.get pixels (i + 2))).

(** ** MediaPipeProcessor: writing the mask into the alpha channel

    The loop of [applySegmentation] over the canvas pixels and the mask
    drawn at the canvas size, and [calculateEdgeSoftening]. *)

Module MediaPipeMask.
Import JS.

Definition calculateEdgeSoftening (pixelIndex : Z) (maskData : list Z)
    (width height : Z) : jsnum :=
  let i := pixelIndex / 4 in
  let x := i mod width in
  let y := i / width in
  let radius := 2 in
  let '(foregroundCount, totalCount) :=
    for_range (- radius) (radius + 1) (fun dy =>
      for_range (- radius) (radius + 1) (fun dx '(foregroundCount, totalCount) =>
        let nx := x + dx in
        let ny := y + dy in
        if MediaPipeProcessor.in_bounds nx ny width height then
          let neighborIndex := (ny * width + nx) * 4 in
          let neighborMask := of_read (get maskData neighborIndex) in
          (if ge neighborMask (num 128)
           then foregroundCount + 1 else foregroundCount,
           totalCount + 1)
        else (foregroundCount, totalCount))) (0, 0) in
  let ratio := div (num foregroundCount) (num totalCount) in
  if gt ratio (Fin (8 # 10)) then Fin 1
  else if gt ratio (Fin (6 # 10)) then Fin (8 # 10)
  else if gt ratio (Fin (4 # 10)) then Fin (5 # 10)
  else if gt ratio (Fin (2 # 10)) then Fin (2 # 10)
  else Fin 0.

(** The loop [for (let i = 0; i < data.length; i += 4)] of
    [applySegmentation], on the mask's [data]. *)
Definition applyMask (maskData : list Z) (width height : Z) (data : list Z)
  : list Z :=
  for_step 0 (Z.of_nat (length data)) 4 (fun i data =>
    let maskValue := of_read (get maskData i) in
    if lt maskValue (num 128) then set data (i + 3) 0
    else
      let alpha := calculateEdgeSoftening i maskData width height in
      store data (i + 3)
            (min (num 255) (mul (of_read (get data (i + 3))) alpha))) data.

End MediaPipeMask.

(** The alpha [applyMask] stores for the pixel at entry [i], from its alpha
    [a] before the loop. *)
Definition maskedAlpha (maskData : list Z) (width height i a : Z) : Z :=
  if JS.lt (JS.of_read (JS.get maskData i)) (JS.num 128) then 0
  else JS.toUint8Clamped
         (JS.min (JS.num 255)
            (JS.mul (JS.num a)
               (MediaPipeMask.calculateEdgeSoftening i maskData width height))).

(** A mask that is foreground (at least 128) at every pixel of the image. *)
Definition foregroundMask (maskData : list Z) (width height : Z) : Prop :=
  forall x y, 0 <= x < width -> 0 <= y < height ->
    JS.ge (JS.of_read (JS.get maskData ((y * width + x) * 4))) (JS.num 128) = true.

(** ** BackgroundRemovalApp: processing a batch

    [startProcessing], with the page and [currentResults] as the state.  The
    files are those of [currentFiles] when the call starts. *)

Module Processing.
Import BackgroundRemovalApp.

(** What [startProcessing] does to the page, in order. *)
Inductive Event : Type :=
  | ShowProcessingUI
  | UpdateProcessingProgress (current total : Z) (fileName : option string)
  | ShowResults
  | ShowFailureMessage
  | HideProcessingUI.

(** An entry of [currentResults]; [mode] is [this.selectedMode], [None]
    when it is no key of [this.processors]. *)
Record Result : Type := mkResult {
  original : File;
  processed : string;
  mode : option Mode
}.

Record Session : Type := mkSession {
  currentResults : list Result;
  events : list Event
}.

Definition log (s : Session) (e : Event) : Session :=
  mkSession (currentResults s) (events s ++ [e]).

Definition push (s : Session) (r : Result) : Session :=
  mkSession (currentResults s ++ [r]) (events s).

Section WithBrowser.
Context `{JSMath} `{Browser}.

(** [this.processors[this.selectedMode].process(file)]: a [TypeError] when
    the table has no such key. *)
Definition processors (selectedMode : option Mode) (file : File) : result string :=
  match selectedMode with
  | Some fast => CanvasProcessor.process file
  | Some balanced => MediaPipeProcessor.process file
  | Some precise => TensorFlowProcessor.process file
  | None => Throw (Rejected "TypeError")
  end.

(** The [for] loop, from file number [i] on: the session it leaves, and how
    it ended. *)
Fixpoint processLoop (selectedMode : option Mode) (total i : Z)
    (files : list File) (s : Session) : Session * result unit :=
  match files with
  | [] => (s, Ok tt)
  | file :: files =>
      let s := log s (UpdateProcessingProgress i total (Some (name file))) in
      match processors selectedMode file with
      | Ok result =>
          let s := push s (mkResult file result selectedMode) in
          let s := log s (UpdateProcessingProgress (i + 1) total None) in
          processLoop selectedMode total (i + 1) files s
      | Throw e => (s, Throw e)
      | Never => (s, Never)
      end
  end.

Definition startProcessing (currentFiles : list File) (selectedMode : option Mode)
    (s : Session) : Session * result unit :=
  if decide (length currentFiles = 0%nat) then (s, Ok tt)
  else
    let s := log s ShowProcessingUI in
    let s := mkSession [] (events s) in
    let '(s, outcome) :=
      processLoop selectedMode (Z.of_nat (length currentFiles)) 0 currentFiles s in
    match outcome with
    | Ok _ => (log s ShowResults, Ok tt)
    | Throw error => (log (log s ShowFailureMessage) HideProcessingUI, Ok tt)
    | Never => (s, Never)
    end.

End WithBrowser.
End Processing.

(** The progress events and the result of a file that is processed to
    [url], as file number [i] of [total]. *)
Definition fileEvents (total i : Z) (file : File) : list Processing.Event :=
  [Processing.UpdateProcessingProgress i total (Some (name file));
   Processing.UpdateProcessingProgress (i + 1) total None].

Definition batchEvents (total i : Z) (files : list File) : list Processing.Event :=
  mjoin (imap (fun k file => fileEvents total (i + Z.of_nat k) file) files).

(** A browser in which images named [bad] do not load, every other image
    is the opaque 3x3 one, and no segmentation model is available. *)
Definition sampleBrowser : Browser := {|
  Image := unit;
  Segmentation := unit;
  loadImage file :=
    if bool_decide (name file = "bad") then Throw (Rejected "load") else Ok tt;
  getImageData _ := Ok opaque3;
  toDataURL _ := Ok "data:image/png";
  mediapipe_ensureLoaded := Throw (Rejected "mediapipe");
  mediapipe_performSegmentation _ := Throw (Rejected "mediapipe");
  mediapipe_applyMask img _ := Ok img;
  tensorflow_ensureLoaded := Throw (Rejected "tensorflow");
  tensorflow_performInference _ := Throw (Rejected "tensorflow");
  tensorflow_applyMask img _ := Ok img
|}.

(** A browser in which the deep-segmentation model loads but its inference
    call never settles, while the person-segmentation model and the canvas
    work. *)
Definition stalledBrowser : Browser := {|
  Image := unit;
  Segmentation := unit;
  loadImage _ := Ok tt;
  getImageData _ := Ok opaque3;
  toDataURL _ := Ok "data:image/png";
  mediapipe_ensureLoaded := Ok tt;
  mediapipe_performSegmentation _ := Ok tt;
  mediapipe_applyMask img _ := Ok img;
  tensorflow_ensureLoaded := Ok tt;
  tensorflow_performInference _ := Never;
  tensorflow_applyMask img _ := Ok img
|}.

Definition photo : File := mkFile "photo.png" "image/png" 1024.

(** The store of one iteration of the loop of [edgeOptimization]. *)
Definition edgeStores `{JSMath} (orig : list Z) (w h x y : Z) : list (Z * Z) :=
  if TensorFlowProcessor.isEdgePixel x y orig w h
  then [((y * w + x) * 4 + 3,
         JS.toUint8Clamped
           (JS.div (TensorFlowProcessor.adaptiveSums orig x y w h).1
                   (TensorFlowProcessor.adaptiveSums orig x y w h).2))]
  else [].

(** A 5x5 mask whose three left columns are opaque. *)
Definition stripeSample : ImageData :=
  imageOf 5 5 (fun x y => (10, 20, 30, if x <? 3 then 255 else 0)).

(** Every pixel of the image has alpha [a]. *)
Definition constantAlpha (img : ImageData) (a : Z) : Prop :=
  forall x y, 0 <= x < width img -> 0 <= y < height img ->
    JS.get (data img) ((y * width img + x) * 4 + 3) = Some a.


(** The bucket of a colour in the 16-level quantisation of the border
    samples. *)
Definition borderBucket (p : pixel) : ImageAnalyzer.colorKey :=
  (ImageAnalyzer.quantize 16 (Some (channel p 0)),
   ImageAnalyzer.quantize 16 (Some (channel p 1)),
   ImageAnalyzer.quantize 16 (Some (channel p 2))).

(** The 512 buckets of the 32-level quantisation. *)
Definition allBuckets : list ImageAnalyzer.colorKey :=
  i ← seqZ 0 8; j ← seqZ 0 8; k ← seqZ 0 8;
  [(Some (i * 32), Some (j * 32), Some (k * 32))].

(** The keys of the border samples of [detectBackgroundColors], in the
    order in which the loop counts them. *)
Definition borderKeys (img : ImageData) : list ImageAnalyzer.colorKey :=
  let samplePoints : list (Z * Z) :=
    JS.for_step 0 (width img) 5
      (fun x pts => pts ++ [(x, 0); (x, height img - 1)]) [] in
  let samplePoints :=
    JS.for_step 0 (height img) 5
      (fun y pts => pts ++ [(0, y); (width img - 1, y)]) samplePoints in
  (fun '(x, y) =>
     let index := (y * width img + x) * 4 in
     (ImageAnalyzer.quantize 16 (JS.get (data img) index),
      ImageAnalyzer.quantize 16 (JS.get (data img) (index + 1)),
      ImageAnalyzer.quantize 16 (JS.get (data img) (index + 2)))) <$> samplePoints.

(** How many border samples fall in the bucket [k]. *)
Definition sampleCount (img : ImageData) (k : ImageAnalyzer.colorKey) : Z :=
  Z.of_nat (length (filter (fun k' => k' = k) (borderKeys img))).

(** The count of [k] in an insertion-ordered map. *)
Fixpoint countOf {K : Type} `{EqDecision K} (m : list (K * Z)) (k : K) : Z :=
  match m with
  | [] => 0
  | (k', c) :: m => if decide (k' = k) then c else countOf m k
  end.

(** Counts that do not increase along the list. *)
Definition descending {K : Type} (l : list (K * Z)) : Prop :=
  forall i j x y, (i <= j)%nat -> l !! i = Some x -> l !! j = Some y -> y.2 <= x.2.

(** Numbers that do not decrease along the list. *)
Definition ascending (l : list Z) : Prop :=
  forall i j x y, (i <= j)%nat -> l !! i = Some x -> l !! j = Some y -> x <= y.

(** The store of one iteration of the loop of [medianFilter]. *)
Definition medianStores (orig : list Z) (w x y : Z) : list (Z * Z) :=
  [((y * w + x) * 4 + 3,
    JS.toUint8Clamped
      (JS.of_read (mjoin (MediaPipeProcessor.sort_numbers
                            (MediaPipeProcessor.window3 orig x y w) !! 4%nat))))].

(** Entry by entry, [out] holds bytes that do not exceed those of [a]. *)
Definition notAbove (a out : list Z) : Prop :=
  forall j v, JS.get a j = Some v -> exists v', JS.get out j = Some v' /\ 0 <= v' <= v.

(** ** TensorFlowProcessor: writing the DeepLab mask into the alpha channel

    The loop of [applyDeepLabMask] over the image and the mask drawn at the
    image size, and [calculateEdgeSmoothness]. *)

Module TensorFlowMask.
Import JS.

Definition calculateEdgeSmoothness (pixelIndex : Z) (maskData : list Z)
    (width height : Z) : jsnum :=
  let i := pixelIndex / 4 in
  let x := i mod width in
  let y := i / width in
  let centerMask := of_read (get maskData pixelIndex) in
  let neighbors := [(x - 1, y); (x + 1, y); (x, y - 1); (x, y + 1)] in
  let gradientSum :=
    foldl (fun gradientSum '(nx, ny) =>
      if MediaPipeProcessor.in_bounds nx ny width height then
        let nIndex := (ny * width + nx) * 4 in
        let nMask := of_read (get maskData nIndex) in
        add gradientSum (abs (sub centerMask nMask))
      else gradientSum) (num 0) neighbors in
  let avgGradient := div gradientSum (num (Z.of_nat (length neighbors))) in
  if lt avgGradient (num 10) then Fin 1
  else if lt avgGradient (num 50) then Fin (8 # 10)
  else if lt avgGradient (num 100) then Fin (5 # 10)
  else Fin (2 # 10).

Definition applyDeepLabMask (maskData : list Z) (width height : Z)
    (data : list Z) : list Z :=
  for_step 0 (Z.of_nat (length data)) 4 (fun i data =>
    let maskValue := of_read (get maskData i) in
    if lt maskValue (num 128) then set data (i + 3) 0
    else
      let alpha := calculateEdgeSmoothness i maskData width height in
      store data (i + 3)
            (min (num 255) (mul (of_read (get data (i + 3))) alpha))) data.

End TensorFlowMask.

(** The alpha [applyDeepLabMask] stores for the pixel at entry [i], from
    its alpha [a] before the loop. *)
Definition smoothedAlpha (maskData : list Z) (width height i a : Z) : Z :=
  if JS.lt (JS.of_read (JS.get maskData i)) (JS.num 128) then 0
  else JS.toUint8Clamped
         (JS.min (JS.num 255)
            (JS.mul (JS.num a)
               (TensorFlowMask.calculateEdgeSmoothness i maskData width height))).

(** ** The stages of mask post-processing, pixel by pixel

    What each stage of the two chains does to the alpha of a pixel, written
    without the loops and the stores of the code. *)

(** The alpha of pixel [(x, y)] of a mask: the number the code reads
    ([NaN] outside the buffer), and the byte. *)
Definition alphaNum (img : ImageData) (x y : Z) : jsnum :=
  JS.of_read (alphaAt (data img) (width img) x y).

Definition alphaZ (img : ImageData) (x y : Z) : Z :=
  default 0 (alphaAt (data img) (width img) x y).

(** At least [m] pixels away from every side of the image. *)
Definition inside (m : Z) (img : ImageData) (x y : Z) : Prop :=
  m <= x < width img - m /\ m <= y < height img - m.

(** [out] is [src] with new alphas: the size and the R, G and B entries are
    kept, a pixel at least [m] away from the sides gets an alpha that [R]
    relates to [src], and every other pixel keeps its alpha. *)
Definition stage (m : Z) (R : ImageData -> Z -> Z -> Z -> Prop)
    (src out : ImageData) : Prop :=
  width out = width src /\ height out = height src /\
  same_rgb (data out) (data src) /\
  forall x y, 0 <= x < width src -> 0 <= y < height src ->
    exists v, alphaAt (data out) (width src) x y = Some v /\
      (inside m src x y -> R src x y v) /\
      (~ inside m src x y -> alphaAt (data src) (width src) x y = Some v).

(** The offsets of the square window of radius [r], row by row. *)
Definition square (r : Z) : list (Z * Z) :=
  seqZ (- r) (2 * r + 1) ≫= fun dy => (fun dx => (dx, dy)) <$> seqZ (- r) (2 * r + 1).

(** The nine alphas of the 3x3 window of a pixel. *)
Definition windowAlphas (img : ImageData) (x y : Z) : list Z :=
  (fun d => alphaZ img (x + d.1) (y + d.2)) <$> square 1.

(** The fifth smallest of nine values, the least and the greatest. *)
Definition medianOf (values : list Z) (v : Z) : Prop :=
  exists sorted, sorted ≡ₚ values /\ ascending sorted /\ sorted !! 4%nat = Some v.

Definition minimumOf (values : list Z) (v : Z) : Prop :=
  v ∈ values /\ forall u, u ∈ values -> v <= u.

Definition maximumOf (values : list Z) (v : Z) : Prop :=
  v ∈ values /\ forall u, u ∈ values -> u <= v.

Definition medianStage : ImageData -> ImageData -> Prop :=
  stage 1 (fun src x y v => medianOf (windowAlphas src x y) v).

Definition erosionStage : ImageData -> ImageData -> Prop :=
  stage 1 (fun src x y v => minimumOf (windowAlphas src x y) v).

Definition dilationStage : ImageData -> ImageData -> Prop :=
  stage 1 (fun src x y v => maximumOf (windowAlphas src x y) v).

Definition neighbours4 (x y : Z) : list (Z * Z) :=
  [(x - 1, y); (x + 1, y); (x, y - 1); (x, y + 1)].

(** The jumps of alpha between a pixel and those of its neighbours that
    lie in the image, and the largest of them (0 when there is none). *)
Definition jumps (nbrs : Z -> Z -> list (Z * Z)) (img : ImageData) (x y : Z)
  : list Z :=
  nbrs x y ≫= fun n =>
    if decide (0 <= n.1 < width img /\ 0 <= n.2 < height img)
    then [Z.abs (alphaZ img x y - alphaZ img n.1 n.2)] else [].

Definition edgeStrength (nbrs : Z -> Z -> list (Z * Z)) (img : ImageData)
    (x y : Z) : Z :=
  foldr Z.max 0 (jumps nbrs img x y).

(** A sum of numbers, from the left. *)
Definition sumOver {A : Type} (f : A -> jsnum) (l : list A) : jsnum :=
  foldl (fun s a => JS.add s (f a)) (JS.num 0) l.

(** The Gaussian weight [exp(-d^2 / (2 sigma^2))] of an offset at distance
    [d = sqrt(dx^2 + dy^2)]. *)
Definition gaussian `{JSMath} (sigma : Q) (d : Z * Z) : jsnum :=
  let distance := JS.sqrt (JS.num (d.1 * d.1 + d.2 * d.2)) in
  JS.exp (JS.div (JS.neg (JS.mul distance distance))
                 (JS.Fin (inject_Z 2 * sigma * sigma))).

(** The mean of the alphas of the window of radius [r] around [(x, y)],
    with the weight [weight d] at offset [d].  The window is read from the
    flat buffer: a read outside it makes the mean [NaN]. *)
Definition weightedMean (img : ImageData) (weight : Z * Z -> jsnum)
    (r x y : Z) : jsnum :=
  JS.div (sumOver (fun d => JS.mul (alphaNum img (x + d.1) (y + d.2)) (weight d))
                  (square r))
         (sumOver weight (square r)).

(** Feathering: a pixel whose largest jump to a neighbour is above
    [threshold] gets the Gaussian mean of its window, with a sigma and a
    radius that may depend on the jump; other pixels keep their alpha. *)
Definition featherStage `{JSMath} (nbrs : Z -> Z -> list (Z * Z)) (threshold : Z)
    (sigma : Z -> Q) (radius : Z -> Z) : ImageData -> ImageData -> Prop :=
  stage 2 (fun src x y v =>
    let s := edgeStrength nbrs src x y in
    if decide (threshold < s)
    then v = JS.toUint8Clamped (weightedMean src (gaussian (sigma s)) (radius s) x y)
    else alphaAt (data src) (width src) x y = Some v).

(** The sigma and the radius of the adaptive feathering for a largest jump
    [s] above 50: sigma is [s / 50], at most 2 (the lower bound 0.5 of the
    code is idle there), and the radius is twice sigma, rounded up. *)
Definition adaptiveSigma (s : Z) : Q :=
  if s <? 100 then (inject_Z s / inject_Z 50)%Q else inject_Z 2.

Definition adaptiveRadius (s : Z) : Z := if s <=? 75 then 3 else 4.

(** The weight of the bilateral filter: the Gaussian of the offset with
    sigma 5, times the Gaussian of the alpha difference with sigma 50. *)
Definition bilateral `{JSMath} (img : ImageData) (x y : Z) (d : Z * Z) : jsnum :=
  let rangeDistance :=
    JS.abs (JS.sub (alphaNum img x y) (alphaNum img (x + d.1) (y + d.2))) in
  JS.mul (gaussian 5 d)
         (JS.exp (JS.div (JS.neg (JS.mul rangeDistance rangeDistance))
                         (JS.Fin (inject_Z 2 * 50 * 50)))).

Definition bilateralStage `{JSMath} : ImageData -> ImageData -> Prop :=
  stage 5 (fun src x y v =>
    v = JS.toUint8Clamped (weightedMean src (bilateral src x y) 5 x y)).

(** Pruning: a foreground pixel (alpha above 128) whose 4-connected
    component is small gets alpha 0; every other pixel keeps its alpha. *)
Definition pruningStage : ImageData -> ImageData -> Prop :=
  stage 0 (fun src x y v =>
    let w := width src in
    let h := height src in
    (~ fgPixel (data src) w h (x, y) -> alphaAt (data src) w x y = Some v) /\
    (fgPixel (data src) w h (x, y) ->
       (exists comp, componentOf (data src) w h (x, y) comp) /\
       forall comp, componentOf (data src) w h (x, y) comp ->
         (smallComponent (Z.of_nat (length comp)) w h -> v = 0) /\
         (~ smallComponent (Z.of_nat (length comp)) w h ->
            alphaAt (data src) w x y = Some v))).

(* ===================================================================== *)
(** * Part II.  Properties                                                *)
(* ===================================================================== *)

(** ** Loops *)

Module LoopFacts.
Import JS.

Lemma for_range_nil {S : Type} lo hi (body : Z -> S -> S) s :
  hi <= lo -> for_range lo hi body s = s.
Proof. intros Hle. unfold for_range. by rewrite seqZ_nil by lia. Qed.

Lemma for_range_first {S : Type} lo hi (body : Z -> S -> S) s :
  lo < hi -> for_range lo hi body s = for_range (lo + 1) hi body (body lo s).
Proof.
  intros Hlt. unfold for_range. rewrite seqZ_cons by lia. cbn [foldl].
  by replace (Z.pred (hi - lo)) with (hi - (lo + 1)) by lia.
Qed.

Lemma for_range_last {S : Type} lo hi (body : Z -> S -> S) s :
  lo <= hi -> for_range lo (hi + 1) body s = body hi (for_range lo hi body s).
Proof.
  intros Hle. unfold for_range.
  replace (hi + 1 - lo) with ((hi - lo) + 1) by lia.
  rewrite seqZ_app by lia. rewrite foldl_app.
  rewrite (seqZ_cons _ 1) by lia. rewrite (seqZ_nil _ (Z.pred 1)) by lia.
  cbn [foldl].
  by replace (lo + (hi - lo)) with hi by lia.
Qed.

(** Invariant rule: the body is only run at indices of the range. *)
Lemma for_range_ind {S : Type} (P : S -> Prop) lo hi (body : Z -> S -> S) s :
  P s ->
  (forall i s, lo <= i < hi -> P s -> P (body i s)) ->
  P (for_range lo hi body s).
Proof.
  intros Hs Hstep. unfold for_range.
  assert (Hin : forall i, i ∈ seqZ lo (hi - lo) -> lo <= i < hi).
  { intros i Hi. apply elem_of_seqZ in Hi. lia. }
  revert s Hs. induction (seqZ lo (hi - lo)) as [|i l IH]; intros s Hs; [done|].
  cbn [foldl]. apply IH.
  - intros j Hj. apply Hin. by right.
  - apply Hstep; [apply Hin; by left | done].
Qed.

Lemma for_step_ind {S : Type} (P : S -> Prop) lo hi step (body : Z -> S -> S) s :
  0 < step ->
  P s ->
  (forall i s, lo <= i < hi -> (i - lo) mod step = 0 -> P s -> P (body i s)) ->
  P (for_step lo hi step body s).
Proof.
  intros Hpos Hs Hstep. unfold for_step.
  assert (Hin : forall k, k ∈ seqZ 0 ((hi - lo + step - 1) / step) ->
                          lo <= lo + k * step < hi /\ (lo + k * step - lo) mod step = 0).
  { intros k Hk. apply elem_of_seqZ in Hk.
    assert (k * step < hi - lo + step - 1 - (step - 1)); [|split].
    - pose proof (Z.mul_div_le (hi - lo + step - 1) step Hpos).
      pose proof (Z.mod_pos_bound (hi - lo + step - 1) step Hpos).
      nia.
    - nia.
    - replace (lo + k * step - lo) with (k * step) by lia.
      apply Z.mod_mul. lia. }
  revert s Hs.
  induction (seqZ 0 ((hi - lo + step - 1) / step)) as [|k l IH]; intros s Hs; [done|].
  cbn [foldl]. apply IH.
  - intros j Hj. apply Hin. by right.
  - destruct (Hin k) as [? ?]; [by left|]. by apply Hstep.
Qed.

(** Two loops whose bodies agree on the states an invariant allows. *)
Lemma for_range_ext_inv {S : Type} (P : S -> Prop) lo hi (body body' : Z -> S -> S) s :
  P s ->
  (forall i s, lo <= i < hi -> P s -> body i s = body' i s /\ P (body i s)) ->
  for_range lo hi body s = for_range lo hi body' s.
Proof.
  intros Hs Hstep. unfold for_range.
  assert (Hin : forall i, i ∈ seqZ lo (hi - lo) -> lo <= i < hi).
  { intros i Hi. apply elem_of_seqZ in Hi. lia. }
  revert s Hs. induction (seqZ lo (hi - lo)) as [|i l IH]; intros s Hs; [done|].
  cbn [foldl]. destruct (Hstep i s) as [Heq HP]; [apply Hin; by left | done |].
  rewrite <- Heq. apply IH; [|done].
  intros j Hj. apply Hin. by right.
Qed.

Lemma for_range_ext {S : Type} lo hi (body body' : Z -> S -> S) s :
  (forall i s, lo <= i < hi -> body i s = body' i s) ->
  for_range lo hi body s = for_range lo hi body' s.
Proof.
  intros Hb. apply (for_range_ext_inv (fun _ => True)); [done|].
  intros i t Hi _. split; [by apply Hb | done].
Qed.

(** Invariant rule with the loop index. *)
Lemma for_range_ind_idx {S : Type} (P : Z -> S -> Prop) lo hi (body : Z -> S -> S) s :
  lo <= hi -> P lo s ->
  (forall i s, lo <= i < hi -> P i s -> P (i + 1) (body i s)) ->
  P hi (for_range lo hi body s).
Proof.
  intros Hle Hs Hstep.
  assert (Hn : forall n : nat, lo + Z.of_nat n <= hi ->
            P (lo + Z.of_nat n) (for_range lo (lo + Z.of_nat n) body s)).
  { induction n as [|n IHn]; intros Hn.
    - rewrite Z.add_0_r, for_range_nil by lia. done.
    - rewrite Nat2Z.inj_succ.
      replace (lo + Z.succ (Z.of_nat n)) with ((lo + Z.of_nat n) + 1) by lia.
      rewrite for_range_last by lia. apply Hstep; [lia|]. apply IHn. lia. }
  replace hi with (lo + Z.of_nat (Z.to_nat (hi - lo))) by lia. apply Hn. lia.
Qed.

End LoopFacts.

(** ** Arrays *)

Module ArrayFacts.
Import JS LoopFacts.

Lemma get_Some a i v : get a i = Some v -> 0 <= i < Z.of_nat (length a).
Proof.
  unfold get. destruct (decide _); [|done].
  intros Hl%lookup_lt_Some. lia.
Qed.

Lemma get_is_Some a i : 0 <= i < Z.of_nat (length a) -> is_Some (get a i).
Proof.
  intros Hi. unfold get. rewrite decide_True by lia.
  apply lookup_lt_is_Some. lia.
Qed.

Lemma get_None a i : ~ (0 <= i < Z.of_nat (length a)) -> get a i = None.
Proof.
  intros Hi. unfold get. destruct (decide _); [|done].
  apply lookup_ge_None. lia.
Qed.

Lemma length_set a i v : length (set a i v) = length a.
Proof. unfold set. destruct (decide _); [apply length_insert | done]. Qed.

Lemma get_set_eq a i v :
  0 <= i < Z.of_nat (length a) -> get (set a i v) i = Some v.
Proof.
  intros Hi. unfold get, set. rewrite !decide_True by lia.
  apply list_lookup_insert_eq. lia.
Qed.

Lemma get_set_ne a i j v : i <> j -> get (set a i v) j = get a j.
Proof.
  intros Hne. unfold get, set.
  destruct (decide (0 <= j)); [|done].
  destruct (decide (0 <= i)); [|done].
  apply list_lookup_insert_ne. lia.
Qed.

Lemma set_same a i v : get a i = Some v -> set a i v = a.
Proof.
  unfold get, set. destruct (decide _); [|done]. apply list_insert_id.
Qed.

Lemma get_bytes a i v : bytes a -> get a i = Some v -> 0 <= v <= 255.
Proof.
  unfold get, bytes. intros Hb. destruct (decide _); [|done].
  intros Hl. by apply (Forall_lookup_1 _ _ _ _ Hb Hl).
Qed.

Lemma bytes_set a i v : bytes a -> 0 <= v <= 255 -> bytes (set a i v).
Proof.
  unfold bytes, set. intros Hb Hv. destruct (decide _); [|done].
  by apply Forall_insert.
Qed.

Lemma round_half_even_Z z : round_half_even (inject_Z z) = z.
Proof.
  unfold round_half_even. rewrite Qfloor_Z.
  assert (Hr : (inject_Z z - inject_Z z == 0)%Q) by ring.
  destruct (Qle_bool _ _) eqn:Hle.
  - destruct (Qeq_bool _ _) eqn:Heq; [|done].
    apply Qeq_bool_iff in Heq. rewrite Hr in Heq. discriminate Heq.
  - assert (Hle' : Qle_bool (inject_Z z - inject_Z z) (1 # 2) = true).
    { apply Qle_bool_iff. rewrite Hr. discriminate. }
    congruence.
Qed.

Lemma toUint8Clamped_range a : 0 <= toUint8Clamped a <= 255.
Proof. destruct a; cbn; unfold clamp8; lia. Qed.

Lemma toUint8Clamped_byte v : 0 <= v <= 255 -> toUint8Clamped (num v) = v.
Proof.
  intros Hv. unfold toUint8Clamped, num. rewrite round_half_even_Z.
  unfold clamp8. lia.
Qed.

Lemma bytes_store a i v : bytes a -> bytes (store a i v).
Proof. intros Hb. apply bytes_set; [done | apply toUint8Clamped_range]. Qed.

Lemma length_store a i v : length (store a i v) = length a.
Proof. apply length_set. Qed.

(** Copying an entry of a byte array onto an equal entry changes nothing. *)
Lemma store_same a i src :
  bytes src -> get a i = get src i -> store a i (of_read (get src i)) = a.
Proof.
  intros Hb Heq. unfold store.
  destruct (get src i) as [v|] eqn:Hv.
  - cbn [of_read]. rewrite toUint8Clamped_byte by (by eapply get_bytes).
    by apply set_same.
  - unfold set, get in *. destruct (decide _); [|done].
    apply list_insert_ge. by apply lookup_ge_None.
Qed.

End ArrayFacts.

(** ** Tier recommendation *)

Module RecommendationFacts.
Import JS BackgroundRemovalApp.

End RecommendationFacts.

(** ** Skin-tone classifier *)

Module SkinFacts.
Import JS ImageAnalyzer LoopFacts.

Lemma isSkinColor_mid_gray : isSkinColor (num 128) (num 128) (num 128) = false.
Proof. reflexivity. Qed.

(** Claim C8.  On an image whose pixels are all mid-gray (128,128,128) the
    skin classifier reports no human: the pixel fails the chromatic rule and
    the pale rule, so no pixel is counted and the ratio is not above 0.05. *)
Theorem detectHuman_mid_gray (img : ImageData) :
  midGray img ->
  chromaticSkin (num 128) (num 128) (num 128) = false /\
  paleSkin (num 128) (num 128) (num 128) = false /\
  detectHuman img = false.
Proof.
  intros Hgray. do 2 (split; [reflexivity|]).
  unfold detectHuman.
  set (len := Z.of_nat (length (data img))).
  set (count := for_step 0 len 4 _ 0).
  assert (Hcount : count = 0).
  { subst count. apply (for_step_ind (fun c => c = 0)); [lia | done |].
    intros i c Hi Hmod ->.
    destruct (Hgray i) as (-> & -> & ->); [lia | by rewrite Z.sub_0_r in Hmod |].
    cbn [of_read]. by rewrite isSkinColor_mid_gray. }
  rewrite Hcount.
  change (div (num len) (num 4)) with (Fin (inject_Z len / inject_Z 4)).
  unfold div, num.
  destruct (Qeq_bool _ 0) eqn:Hz; [reflexivity|].
  unfold gt, lt. apply negb_false_iff, Qle_bool_iff.
  unfold Qdiv. rewrite Qmult_0_l. discriminate.
Qed.

Lemma detectHuman_mid_gray_witness :
  detectHuman (uniformImage 2 2 (128, 128, 128, 255)) = false.
Proof.
  apply (detectHuman_mid_gray (uniformImage 2 2 (128, 128, 128, 255))).
  intros i Hi Hmod.
  change (Z.of_nat (length (data (uniformImage 2 2 (128, 128, 128, 255)))))
    with 16 in Hi.
  assert (Hcases : i = 0 \/ i = 4 \/ i = 8 \/ i = 12)
    by (Z.div_mod_to_equations; lia).
  destruct Hcases as [-> | [-> | [-> | ->]]]; repeat split; reflexivity.
Defined.
End SkinFacts.

(** ** File intake and the fallback chain *)

Module IntakeFacts.
Import BackgroundRemovalApp.

Lemma accepted_spec file : accepted file = true <-> acceptable file.
Proof.
  unfold accepted, acceptable, isValidType, isValidSize.
  rewrite andb_true_iff, orb_true_iff, !bool_decide_eq_true, Z.leb_le. done.
Qed.

Lemma warning_accepted file : accepted file = true -> warning file = None.
Proof.
  unfold accepted, warning. by destruct (isValidType file), (isValidSize file).
Qed.

Lemma warning_rejected file :
  accepted file = false -> exists a, warning file = Some a.
Proof.
  unfold accepted, warning.
  destruct (isValidType file), (isValidSize file); cbn; try done; eauto.
Qed.

Lemma keepFile_spec file acts :
  keepFile file acts = (accepted file, acts ++ option_list (warning file)).
Proof.
  unfold keepFile, accepted, warning.
  destruct (isValidType file), (isValidSize file); cbn; by rewrite ?app_nil_r.
Qed.

Lemma filterFiles_spec files acts :
  filterFiles files acts =
    (filter (fun f => accepted f = true) files, acts ++ omap warning files).
Proof.
  unfold filterFiles.
  enough (Hgen : forall valid acts,
    foldl (fun '(validFiles, actions) file =>
             let '(keep, actions) := keepFile file actions in
             (if keep then validFiles ++ [file] else validFiles, actions))
          (valid, acts) files
    = (valid ++ filter (fun f => accepted f = true) files,
       acts ++ omap warning files)) by apply (Hgen []).
  induction files as [|f files IH]; intros valid acts'; cbn [foldl].
  - by rewrite !app_nil_r.
  - rewrite keepFile_spec, IH, filter_cons. cbn.
    destruct (decide (accepted f = true)) as [Hacc|Hacc].
    + rewrite Hacc, (warning_accepted f Hacc). cbn.
      by rewrite app_nil_r, <- app_assoc.
    + apply not_true_is_false in Hacc. rewrite Hacc.
      destruct (warning_rejected f Hacc) as [a ->]. cbn.
      by rewrite <- app_assoc.
Qed.

(** Claim C9.  The intake filter keeps a file exactly when its type is
    image/jpeg or image/png and its size is at most 10MB; the files kept are
    the acceptable files of the batch, in order, whatever else the batch
    holds; only they become [currentFiles] and reach the previews and the
    analysis, and each rejected file only adds its warning. *)
Theorem processFiles_intake (files : list File) (app : App) :
  let valid := filter (fun f => accepted f = true) files in
  let shown := actions app ++ omap warning files in
  (forall file, accepted file = true <-> acceptable file) /\
  (forall file, file ∈ valid <-> file ∈ files /\ acceptable file) /\
  processFiles files app =
    match valid with
    | [] => mkApp (currentFiles app) (isManualMode app) shown
    | _ => mkApp valid (isManualMode app)
             (shown ++ [ShowImagePreviews valid; EnableProcessButton]
                    ++ (if negb (isManualMode app)
                        then [AnalyzeImagesAndRecommend valid] else []))
    end.
Proof.
  cbn zeta. split; [apply accepted_spec|]. split.
  - intros file. rewrite list_elem_of_filter, accepted_spec. tauto.
  - unfold processFiles. rewrite filterFiles_spec.
    destruct (filter _ files); [done|]. by destruct (decide _).
Qed.

End IntakeFacts.

Module FallbackFacts.

Section Chain.
Context `{JSMath} `{Browser}.

Lemma try_catch_ok {A} (body : result A) handler a :
  body = Ok a -> try_catch body handler = Ok a.
Proof. by intros ->. Qed.

Lemma try_catch_throw {A} (body : result A) handler e :
  body = Throw e -> try_catch body handler = handler e.
Proof. by intros ->. Qed.

(** A rejection anywhere in the body of the precise tier is answered by
    the balanced tier, one in the body of the balanced tier by the fast
    tier; the fast tier returns the data URL of [removeBackground] of the
    decoded image; and an error leaves the precise tier only when all three
    bodies threw, as the error of the fast tier. *)
Lemma fallback_on_rejection (file : File) :
  (forall e, TensorFlowProcessor.process_body file = Throw e ->
     TensorFlowProcessor.process file = MediaPipeProcessor.process file) /\
  (forall e, MediaPipeProcessor.process_body file = Throw e ->
     MediaPipeProcessor.process file = CanvasProcessor.process file) /\
  (forall image imageData,
     loadImage file = Ok image -> getImageData image = Ok imageData ->
     forall url,
       toDataURL (CanvasProcessor.removeBackground imageData) = Ok url ->
       CanvasProcessor.process file = Ok url) /\
  (forall e, TensorFlowProcessor.process file = Throw e ->
     e = ProcessingFailed /\
     (exists e1, TensorFlowProcessor.process_body file = Throw e1) /\
     (exists e2, MediaPipeProcessor.process_body file = Throw e2) /\
     (exists e3, CanvasProcessor.process_body file = Throw e3)).
Proof.
  unfold TensorFlowProcessor.process, MediaPipeProcessor.process,
    CanvasProcessor.process.
  split; [by intros e ->|]. split; [by intros e ->|].
  split.
  { intros image imageData Himage Hdata url Hurl.
    unfold CanvasProcessor.process_body.
    rewrite Himage. cbn [mbind result_bind]. rewrite Hdata.
    cbn [mbind result_bind]. cbv zeta. by rewrite Hurl. }
  intros e.
  destruct (TensorFlowProcessor.process_body file) as [?|e1|]; try done.
  destruct (MediaPipeProcessor.process_body file) as [?|e2|]; try done.
  destruct (CanvasProcessor.process_body file) as [?|e3|]; try done.
  cbn. intros [= <-]. eauto 10.
Qed.

(** The precise tier awaits its provider with no timer: when the model
    loads, the image decodes and the inference call never settles,
    [process] never settles either, whatever the other tiers would do. *)
Lemma stalled_inference_never_settles (file : File) (image : Image) :
  tensorflow_ensureLoaded = Ok tt -> loadImage file = Ok image ->
  tensorflow_performInference image = Never ->
  TensorFlowProcessor.process file = Never.
Proof.
  intros Hload Himage Hstall.
  unfold TensorFlowProcessor.process, TensorFlowProcessor.process_body.
  rewrite Hload. cbn [mbind result_bind]. rewrite Himage.
  cbn [mbind result_bind]. by rewrite Hstall.
Qed.

End Chain.

(** Claim C4, at an input where the code departs from it.  In
    [stalledBrowser] the provider of the precise tier never answers: the
    precise tier then never settles (it neither returns an image nor throws),
    although the balanced tier and the fast tier, called on the same file,
    both return an image.  The code has no timer around the provider of the
    precise tier, unlike the two timers of the balanced tier. *)
Theorem stalled_precise_provider_never_degrades :
  @TensorFlowProcessor.process refMath stalledBrowser photo = Never /\
  @MediaPipeProcessor.process refMath stalledBrowser photo = Ok "data:image/png" /\
  @CanvasProcessor.process refMath stalledBrowser photo = Ok "data:image/png".
Proof. by vm_compute. Qed.

End FallbackFacts.

(** ** Loops that only store *)

Module WriteFacts.
Import JS LoopFacts ArrayFacts.

Lemma apply_writes_app ws1 ws2 a :
  apply_writes (ws1 ++ ws2) a = apply_writes ws2 (apply_writes ws1 a).
Proof. unfold apply_writes. apply foldl_app. Qed.

Lemma length_apply_writes ws a : length (apply_writes ws a) = length a.
Proof.
  revert a. induction ws as [|[i v] ws IH]; intros a; [done|].
  cbn. change (foldl _ ?b ws) with (apply_writes ws b).
  by rewrite IH, length_set.
Qed.

(** An index no store names keeps its entry. *)
Lemma get_apply_writes_miss ws a j :
  (forall v, (j, v) ∉ ws) -> get (apply_writes ws a) j = get a j.
Proof.
  revert a. induction ws as [|[i v] ws IH]; intros a Hmiss; [done|].
  cbn. change (foldl _ ?b ws) with (apply_writes ws b).
  rewrite IH.
  - apply get_set_ne. intros ->. apply (Hmiss v). by left.
  - intros v' Hin. apply (Hmiss v'). by right.
Qed.

(** An index whose stores all carry the same value holds that value. *)
Lemma get_apply_writes_hit ws a j v :
  (j, v) ∈ ws ->
  (forall v', (j, v') ∈ ws -> v' = v) ->
  0 <= j < Z.of_nat (length a) ->
  get (apply_writes ws a) j = Some v.
Proof.
  induction ws as [|[i u] ws IH] using rev_ind; intros Hin Hsame Hj.
  { by apply elem_of_nil in Hin. }
  rewrite apply_writes_app. cbn.
  destruct (decide (i = j)) as [->|Hne].
  - rewrite (Hsame u) by (apply elem_of_app; right; by left).
    apply get_set_eq. by rewrite length_apply_writes.
  - rewrite get_set_ne by done. apply IH; [|by intros v' Hv'; apply Hsame, elem_of_app; left | done].
    apply elem_of_app in Hin as [Hin|Hin]; [done|].
    apply list_elem_of_singleton in Hin. congruence.
Qed.

(** A loop whose body is a list of stores is the list of all its stores. *)
Lemma for_range_writes lo hi (g : Z -> list (Z * Z)) a :
  for_range lo hi (fun k a => apply_writes (g k) a) a
  = apply_writes (seqZ lo (hi - lo) ≫= g) a.
Proof.
  unfold for_range. revert a.
  induction (seqZ lo (hi - lo)) as [|k l IH]; intros a; [done|].
  cbn [foldl]. rewrite IH. rewrite bind_cons. by rewrite apply_writes_app.
Qed.

Lemma for_range2_writes lo hi lo' hi' (g : Z -> Z -> list (Z * Z)) a :
  for_range lo hi (fun y => for_range lo' hi' (fun x a => apply_writes (g x y) a)) a
  = apply_writes (seqZ lo (hi - lo) ≫= fun y => seqZ lo' (hi' - lo') ≫= fun x => g x y) a.
Proof.
  rewrite <- for_range_writes. apply for_range_ext. intros y b _.
  apply for_range_writes.
Qed.

Lemma elem_of_writes2 lo hi lo' hi' (g : Z -> Z -> list (Z * Z)) w :
  w ∈ (seqZ lo (hi - lo) ≫= fun y => seqZ lo' (hi' - lo') ≫= fun x => g x y)
  <-> exists x y, lo <= y < hi /\ lo' <= x < hi' /\ w ∈ g x y.
Proof.
  rewrite list_elem_of_bind. split.
  - intros (y & Hw & Hy). apply list_elem_of_bind in Hw as (x & Hw & Hx).
    apply elem_of_seqZ in Hx, Hy. exists x, y. repeat split; try done; lia.
  - intros (x & y & Hy & Hx & Hw). exists y. split.
    + apply list_elem_of_bind. exists x. split; [done|]. apply elem_of_seqZ. lia.
    + apply elem_of_seqZ. lia.
Qed.

(** Distinct pixels of a row-major buffer have distinct entries. *)
Lemma pixel_index_inj w x y x' y' c c' :
  0 <= x < w -> 0 <= x' < w -> 0 <= c < 4 -> 0 <= c' < 4 ->
  (y * w + x) * 4 + c = (y' * w + x') * 4 + c' ->
  x = x' /\ y = y' /\ c = c'.
Proof.
  intros Hx Hx' Hc Hc' Heq.
  assert (Hrow : y * w + x = y' * w + x') by lia.
  assert (Hy : y = y').
  { destruct (Z.lt_trichotomy y y') as [Hlt | [-> | Hlt]]; [|done|]; nia. }
  subst y'. lia.
Qed.

Lemma pixel_index_range w h x y c :
  0 <= x < w -> 0 <= y < h -> 0 <= c < 4 ->
  0 <= (y * w + x) * 4 + c < 4 * (w * h).
Proof. intros. nia. Qed.

End WriteFacts.

(** ** The fast tier touches alpha only *)

Module FrameFacts.
Import JS LoopFacts ArrayFacts WriteFacts CanvasProcessor.

Lemma same_rgb_refl a : same_rgb a a.
Proof. done. Qed.

Lemma same_rgb_trans a b c : same_rgb a b -> same_rgb b c -> same_rgb a c.
Proof.
  intros [Hl1 H1] [Hl2 H2]. split; [congruence|].
  intros j Hj. by rewrite H1, H2.
Qed.

Lemma same_rgb_set a b k v :
  k mod 4 = 3 -> same_rgb a b -> same_rgb (set a k v) b.
Proof.
  intros Hk [Hl Hrgb]. split; [by rewrite length_set|].
  intros j Hj. rewrite get_set_ne by congruence. by apply Hrgb.
Qed.

Lemma alpha_index_mod p : (p * 4 + 3) mod 4 = 3.
Proof. rewrite Z.add_comm, Z.mod_add by lia. done. Qed.

Lemma rgb_index_mod p c : 0 <= c < 3 -> (p * 4 + c) mod 4 <> 3.
Proof.
  intros Hc. rewrite Z.add_comm, Z.mod_add by lia.
  rewrite Z.mod_small by lia. lia.
Qed.

Lemma frame_set b a k v :
  k mod 4 = 3 -> 0 <= v <= 255 -> frame b a -> frame b (set a k v).
Proof.
  intros Hk Hv [Hb Hs]. split; [by apply bytes_set | by apply same_rgb_set].
Qed.

Lemma frame_store b a k v : k mod 4 = 3 -> frame b a -> frame b (store a k v).
Proof. intros Hk. apply frame_set; [done | apply toUint8Clamped_range]. Qed.

Lemma erode_frame b orig w h a : frame b a -> frame b (erode orig w h a).
Proof.
  intros Ha. unfold erode.
  apply for_range_ind; [done|]. intros y a1 _ Ha1.
  apply for_range_ind; [done|]. intros x a2 _ Ha2.
  destruct (gt _ _); [|done]. destruct (_ <? 5); [|done].
  apply frame_set; [apply alpha_index_mod | lia | done].
Qed.

(** Restoring a pixel from the copy writes back its own R, G and B. *)
Lemma copy_entry_rgb b orig a i :
  bytes orig -> same_rgb orig b -> frame b a -> i mod 4 <> 3 ->
  copy_entry a i orig = a.
Proof.
  intros Hbo [_ Ho] [_ [_ Ha]] Hi. unfold copy_entry.
  apply store_same; [done|]. by rewrite Ha, Ho.
Qed.

Lemma dilate_frame b orig er w h a :
  bytes orig -> same_rgb orig b -> frame b a -> frame b (dilate orig er w h a).
Proof.
  intros Hbo Ho Ha. unfold dilate.
  apply for_range_ind; [done|]. intros y a1 _ Ha1.
  apply for_range_ind; [done|]. intros x a2 _ Ha2.
  destruct (eq _ _); [|done]. destruct (6 <=? _); [|done].
  set (index := (y * w + x) * 4).
  rewrite (copy_entry_rgb b orig a2 index) by
    (try done; replace index with ((y * w + x) * 4 + 0) by lia;
     apply rgb_index_mod; lia).
  rewrite (copy_entry_rgb b orig a2 (index + 1)) by
    (try done; apply rgb_index_mod; lia).
  rewrite (copy_entry_rgb b orig a2 (index + 2)) by
    (try done; apply rgb_index_mod; lia).
  apply frame_store; [apply alpha_index_mod | done].
Qed.

Lemma removeNoise_frame b img :
  frame b (data img) -> frame b (data (removeNoise img)).
Proof.
  intros Ha. unfold removeNoise. cbn [data].
  apply dilate_frame; [apply Ha | apply Ha |]. by apply erode_frame.
Qed.

Section WithMath.
Context `{JSMath}.

(** Claim C10.  [removeBackground] (classification, edge falloff and noise
    removal) returns an image of the same width and height whose R, G and B
    entries are those of the input: only alpha entries change. *)
Theorem removeBackground_frame (img : ImageData) :
  bytes (data img) ->
  let out := removeBackground img in
  width out = width img /\
  height out = height img /\
  length (data out) = length (data img) /\
  forall p c, 0 <= c < 3 ->
    get (data out) (p * 4 + c) = get (data img) (p * 4 + c).
Proof.
  intros Hb out.
  assert (Hframe : frame (data img) (data out)).
  { subst out. unfold removeBackground. apply removeNoise_frame. cbn [data].
    apply for_step_ind; [lia | split; [done | apply same_rgb_refl] |].
    intros i a Hi Hmod Ha.
    assert (Hk : (i + 3) mod 4 = 3).
    { rewrite Z.sub_0_r in Hmod. rewrite Z.add_comm, <- Zplus_mod_idemp_r, Hmod. done. }
    destruct (isBackgroundPixel _ _ _ _ _ _ _ _ _).
    - apply frame_set; [done | lia | done].
    - destruct (lt _ _); [|done]. by apply frame_store. }
  split; [done|]. split; [done|].
  destruct Hframe as [_ [Hlen Hrgb]]. split; [done|].
  intros p c Hc. apply Hrgb. by apply rgb_index_mod.
Qed.

End WithMath.
End FrameFacts.

(** ** Noise removal *)

Module NoiseFacts.
Import JS LoopFacts ArrayFacts WriteFacts CanvasProcessor.

Lemma for_range_3 {S : Type} (body : Z -> S -> S) s :
  for_range (-1) 2 body s = body 1 (body 0 (body (-1) s)).
Proof. reflexivity. Qed.

Lemma count_step (b : bool) (c : Z) : (if b then c + 1 else c) = c + Z.b2z b.
Proof. destruct b; cbn; lia. Qed.

Lemma fg_filter_cons a w (p : Z * Z) l :
  Z.of_nat (length (filter (fun '(nx, ny) => fgAt a w nx ny = true) (p :: l)))
  = Z.b2z (fgAt a w p.1 p.2)
    + Z.of_nat (length (filter (fun '(nx, ny) => fgAt a w nx ny = true) l)).
Proof.
  destruct p as [nx ny]. rewrite filter_cons. cbn [fst snd].
  destruct (decide _) as [Hd|Hd].
  - change (fgAt a w nx ny = true) in Hd. rewrite Hd. cbn [length Z.b2z]. lia.
  - change (fgAt a w nx ny <> true) in Hd.
    apply not_true_is_false in Hd. rewrite Hd. cbn [Z.b2z]. lia.
Qed.

(** The window count is the centre plus its eight neighbours. *)
Lemma foregroundCount_split a x y w :
  foregroundCount a x y w = Z.b2z (fgAt a w x y) + fgNeighbours a w x y.
Proof.
  unfold foregroundCount, fgNeighbours, neighbours8.
  rewrite !for_range_3, !count_step, !fg_filter_cons, filter_nil.
  cbn [fst snd length]. unfold fgAt, alphaAt.
  replace (y + 0) with y by lia. replace (x + 0) with x by lia.
  replace (y + -1) with (y - 1) by lia. replace (x + -1) with (x - 1) by lia.
  lia.
Qed.

Lemma erode_writes orig w h a :
  erode orig w h a
  = apply_writes (seqZ 1 (h - 1 - 1) ≫= fun y =>
                  seqZ 1 (w - 1 - 1) ≫= fun x => erodeStores orig w x y) a.
Proof.
  unfold erode. rewrite <- for_range2_writes.
  apply for_range_ext. intros y a1 _. apply for_range_ext. intros x a2 _.
  unfold erodeStores, fgAt, alphaAt.
  destruct (gt _ _); [|done]. by destruct (_ <? 5).
Qed.

Lemma dilate_writes orig eroded w h a :
  dilate orig eroded w h a
  = apply_writes (seqZ 1 (h - 1 - 1) ≫= fun y =>
                  seqZ 1 (w - 1 - 1) ≫= fun x => dilateStores orig eroded w x y) a.
Proof.
  unfold dilate. rewrite <- for_range2_writes.
  apply for_range_ext. intros y a1 _. apply for_range_ext. intros x a2 _.
  unfold dilateStores, alphaAt.
  destruct (eq _ _); [|done]. by destruct (6 <=? _).
Qed.

Section Interior.
Variables (orig : list Z) (w h x y : Z).
Hypothesis Hlen : Z.of_nat (length orig) = 4 * (w * h).
Hypothesis Hx : 1 <= x < w - 1.
Hypothesis Hy : 1 <= y < h - 1.

Let index := (y * w + x) * 4.

Lemma erode_length a : length (erode orig w h a) = length a.
Proof. rewrite erode_writes. apply length_apply_writes. Qed.

Lemma erode_interior c :
  0 <= c < 4 ->
  get (erode orig w h orig) (index + c) =
    if (c =? 3) && fgAt orig w x y && (fgNeighbours orig w x y <? 4)
    then Some 0 else get orig (index + c).
Proof.
  intros Hc. rewrite erode_writes.
  assert (Hcount : fgAt orig w x y = true ->
            (foregroundCount orig x y w <? 5) = (fgNeighbours orig w x y <? 4)).
  { intros Hfg. rewrite foregroundCount_split, Hfg. cbn [Z.b2z].
    destruct (Z.ltb_spec (1 + fgNeighbours orig w x y) 5),
             (Z.ltb_spec (fgNeighbours orig w x y) 4); lia. }
  destruct ((c =? 3) && fgAt orig w x y && (fgNeighbours orig w x y <? 4)) eqn:Hcond.
  - apply andb_true_iff in Hcond as [Hcond Hnb].
    apply andb_true_iff in Hcond as [Hc3 Hfg]. apply Z.eqb_eq in Hc3. subst c.
    apply get_apply_writes_hit.
    + apply elem_of_writes2. exists x, y. split; [lia|]. split; [lia|].
      unfold erodeStores. rewrite Hfg, (Hcount Hfg), Hnb. by left.
    + intros v' Hv'. apply elem_of_writes2 in Hv' as (x' & y' & _ & _ & Hv').
      unfold erodeStores in Hv'.
      destruct (fgAt orig w x' y' && _); [|by apply elem_of_nil in Hv'].
      apply list_elem_of_singleton in Hv'. congruence.
    + rewrite Hlen. subst index. apply pixel_index_range; lia.
  - apply get_apply_writes_miss. intros v Hv.
    apply elem_of_writes2 in Hv as (x' & y' & Hy' & Hx' & Hv).
    unfold erodeStores in Hv.
    destruct (fgAt orig w x' y' && _) eqn:Hw; [|by apply elem_of_nil in Hv].
    apply list_elem_of_singleton in Hv. injection Hv as Hidx _.
    subst index. symmetry in Hidx.
    apply pixel_index_inj in Hidx as (Ex & Ey & Ec); [|lia..].
    subst x' y' c.
    apply andb_true_iff in Hw as [Hfg Hlt].
    rewrite (Hcount Hfg) in Hlt. rewrite Hfg, Hlt in Hcond. done.
Qed.

Lemma dilate_interior eroded a c :
  bytes orig -> length a = length orig -> 0 <= c < 4 ->
  get (dilate orig eroded w h a) (index + c) =
    if eq (of_read (alphaAt eroded w x y)) (num 0)
       && (6 <=? foregroundCount eroded x y w)
    then get orig (index + c) else get a (index + c).
Proof.
  intros Hb Hla Hc. rewrite dilate_writes.
  assert (Hin : 0 <= index + c < Z.of_nat (length orig)).
  { rewrite Hlen. subst index. apply pixel_index_range; lia. }
  destruct (eq _ _ && _) eqn:Hcond.
  - destruct (get_is_Some orig (index + c) Hin) as [v Hv]. rewrite Hv.
    assert (Hr : restored orig (index + c) = v).
    { unfold restored. rewrite Hv. cbn [of_read].
      apply toUint8Clamped_byte. by eapply get_bytes. }
    rewrite <- Hr.
    assert (Hall : forall j v', (j, v') ∈
              (seqZ 1 (h - 1 - 1) ≫= fun y => seqZ 1 (w - 1 - 1) ≫= fun x =>
                 dilateStores orig eroded w x y) -> v' = restored orig j).
    { intros j v' Hv'. apply elem_of_writes2 in Hv' as (x' & y' & _ & _ & Hv').
      unfold dilateStores in Hv'.
      destruct (eq (of_read (alphaAt eroded w x' y')) _ && _);
        [|by apply elem_of_nil in Hv'].
      repeat (apply elem_of_cons in Hv' as [Hv'|Hv']; [by injection Hv' as -> ->|]).
      by apply elem_of_nil in Hv'. }
    apply get_apply_writes_hit; [| by intros v' Hv'; apply Hall | by rewrite Hla].
    apply elem_of_writes2. exists x, y. split; [lia|]. split; [lia|].
    unfold dilateStores. rewrite Hcond. fold index.
    assert (Hcases : c = 0 \/ c = 1 \/ c = 2 \/ c = 3) by lia.
    destruct Hcases as [-> | [-> | [-> | ->]]]; rewrite ?Z.add_0_r;
      repeat first [by left | right].
  - apply get_apply_writes_miss. intros v Hv.
    apply elem_of_writes2 in Hv as (x' & y' & Hy' & Hx' & Hv).
    unfold dilateStores in Hv.
    destruct (eq (of_read (alphaAt eroded w x' y')) _ && _) eqn:Hw;
      [|by apply elem_of_nil in Hv].
    assert (Hidx : exists c', 0 <= c' < 4 /\ index + c = (y' * w + x') * 4 + c').
    { repeat (apply elem_of_cons in Hv as [Hv|Hv];
              [injection Hv as Hv _; eexists; split; [|rewrite Hv; try reflexivity;
                 symmetry; apply Z.add_0_r]; lia|]).
      by apply elem_of_nil in Hv. }
    destruct Hidx as (c' & Hc' & Hidx). subst index.
    apply pixel_index_inj in Hidx as (Ex & Ey & Ec); [|lia..].
    subst x' y' c'. by rewrite Hw in Hcond.
Qed.

End Interior.
End NoiseFacts.

Module NoiseTheorems.
Import JS LoopFacts ArrayFacts WriteFacts CanvasProcessor NoiseFacts FrameFacts.

Lemma noiseSample_wf : wf_image noiseSample.
Proof. by vm_compute. Qed.

Lemma noiseSample_bytes : bytes (data noiseSample).
Proof. unfold bytes. vm_compute. repeat constructor; discriminate. Qed.

(** Claim C1, amended.  At a pixel with all eight neighbours in bounds:
    erosion zeroes a foreground pixel exactly when fewer than 4 of its 8
    neighbours are foreground (the window count of the code includes the
    pixel itself) and otherwise leaves its alpha; dilation gives a pixel
    whose eroded alpha is 0 the colour and alpha of the original exactly
    when at least 6 of its 8 neighbours are foreground in the eroded image,
    and otherwise leaves it at 0. *)
Theorem removeNoise_interior (img : ImageData) (x y : Z) :
  wf_image img -> bytes (data img) ->
  1 <= x < width img - 1 -> 1 <= y < height img - 1 ->
  let w := width img in
  let orig := data img in
  let eroded := erode orig w (height img) orig in
  let out := data (removeNoise img) in
  (fgAt orig w x y = true ->
     (alphaAt eroded w x y = Some 0 <-> fgNeighbours orig w x y < 4) /\
     (4 <= fgNeighbours orig w x y ->
        alphaAt eroded w x y = alphaAt orig w x y)) /\
  (alphaAt eroded w x y = Some 0 ->
     (6 <= fgNeighbours eroded w x y ->
        forall c, 0 <= c < 4 ->
          get out ((y * w + x) * 4 + c) = get orig ((y * w + x) * 4 + c)) /\
     (fgNeighbours eroded w x y < 6 -> alphaAt out w x y = Some 0)).
Proof.
  intros (Hw & Hh & Hlen) Hb Hx Hy w orig eroded out.
  assert (Her : forall c, 0 <= c < 4 ->
            get eroded ((y * w + x) * 4 + c) =
              if (c =? 3) && fgAt orig w x y && (fgNeighbours orig w x y <? 4)
              then Some 0 else get orig ((y * w + x) * 4 + c)).
  { intros c Hc. by apply (erode_interior orig w (height img) x y). }
  assert (Hout : forall c, 0 <= c < 4 ->
            get out ((y * w + x) * 4 + c) =
              if eq (of_read (alphaAt eroded w x y)) (num 0)
                 && (6 <=? foregroundCount eroded x y w)
              then get orig ((y * w + x) * 4 + c)
              else get eroded ((y * w + x) * 4 + c)).
  { intros c Hc. subst out. unfold removeNoise. cbn [data].
    apply (dilate_interior orig w (height img) x y); try done.
    apply erode_length. }
  split.
  - intros Hfg. specialize (Her 3 ltac:(lia)). fold (alphaAt eroded w x y) in Her.
    fold (alphaAt orig w x y) in Her. rewrite Hfg in Her. cbn [Z.eqb Pos.eqb andb] in Her.
    destruct (Z.ltb_spec (fgNeighbours orig w x y) 4) as [Hlt|Hge].
    + split; [done | lia].
    + split; [|done]. split; [|lia]. intros H0. rewrite Her in H0.
      unfold fgAt in Hfg. rewrite H0 in Hfg. discriminate Hfg.
  - intros H0.
    assert (Hcount : foregroundCount eroded x y w = fgNeighbours eroded w x y).
    { rewrite foregroundCount_split. unfold fgAt. rewrite H0. reflexivity. }
    rewrite H0, Hcount in Hout. change (eq (of_read (Some 0)) (num 0)) with true in Hout.
    cbn [andb] in Hout. split.
    + intros Hge c Hc. rewrite (Hout c Hc).
      by destruct (Z.leb_spec 6 (fgNeighbours eroded w x y)); [|lia].
    + intros Hlt. unfold alphaAt at 1. rewrite (Hout 3 ltac:(lia)).
      by destruct (Z.leb_spec 6 (fgNeighbours eroded w x y)); [lia|].
Qed.

Lemma removeNoise_interior_witness :
  let orig := data noiseSample in
  alphaAt (erode orig 3 3 orig) 3 1 1 = alphaAt orig 3 1 1.
Proof.
  pose proof (removeNoise_interior noiseSample 1 1 noiseSample_wf noiseSample_bytes)
    as Hthm.
  cbn [width height noiseSample imageOf] in Hthm.
  destruct Hthm as [Her _]; [lia | lia |].
  destruct Her as [_ Hkeep]; [by vm_compute|]. apply Hkeep. by vm_compute.
Defined.

(** Claim C1 as stated fails: the centre of [noiseSample] is foreground
    with exactly 4 foreground neighbours, fewer than 5, and erosion keeps
    it. *)
Lemma erosion_counts_the_centre :
  let orig := data noiseSample in
  fgAt orig 3 1 1 = true /\
  fgNeighbours orig 3 1 1 = 4 /\
  alphaAt (erode orig 3 3 orig) 3 1 1 = Some 255.
Proof. by vm_compute. Qed.

(** [removeBackground_frame] at [noiseSample]. *)
Lemma removeBackground_frame_witness :
  let out := @removeBackground refMath noiseSample in
  width out = 3 /\ height out = 3 /\
  length (data out) = length (data noiseSample) /\
  forall p c, 0 <= c < 3 ->
    get (data out) (p * 4 + c) = get (data noiseSample) (p * 4 + c).
Proof.
  exact (@removeBackground_frame refMath noiseSample noiseSample_bytes).
Defined.

End NoiseTheorems.

(** ** Flood fill *)

Module FloodFacts.
Import JS LoopFacts ArrayFacts WriteFacts TensorFlowProcessor.

Section Flood.
Variables (data : list Z) (w h : Z).

Local Abbreviation idx := (pixelIndex w).
Local Abbreviation inb := (inImage w h).
Local Abbreviation fg := (fgPixel data w h).
Local Abbreviation conn := (connected4 data w h).

Lemma in_bounds_spec x y :
  MediaPipeProcessor.in_bounds x y w h = true <-> inb (x, y).
Proof.
  unfold MediaPipeProcessor.in_bounds, inImage. cbn [fst snd].
  rewrite !andb_true_iff, !Z.leb_le, !Z.ltb_lt. lia.
Qed.

Lemma idx_range p : inb p -> 0 <= idx p < w * h.
Proof. unfold inImage, pixelIndex. intros [? ?]. nia. Qed.

Lemma idx_inj p q : inb p -> inb q -> idx p = idx q -> p = q.
Proof.
  destruct p as [x y], q as [x' y']. unfold inImage, pixelIndex. cbn [fst snd].
  intros Hp Hq Heq.
  assert (Hy : y = y').
  { destruct (Z.lt_trichotomy y y') as [Hlt | [-> | Hlt]]; [|done|]; nia. }
  subst y'. f_equal. lia.
Qed.

Lemma adjacent4_sym p q : adjacent4 p q -> adjacent4 q p.
Proof.
  destruct p as [x y], q as [x' y']. unfold adjacent4, MediaPipeProcessor.neighbors4.
  cbn [fst snd]. rewrite !elem_of_cons, !elem_of_nil.
  intros [[= -> ->] | [[= -> ->] | [[= -> ->] | [[= -> ->] | []]]]].
  - right; left. f_equal; lia.
  - left. f_equal; lia.
  - do 3 right; left. f_equal; lia.
  - do 2 right; left. f_equal; lia.
Qed.

Lemma fgStep_sym p q : fgStep data w h p q -> fgStep data w h q p.
Proof.
  intros (Hp & Hq & Hadj). split; [done|]. split; [done|]. by apply adjacent4_sym.
Qed.

Lemma conn_sym p q : conn p q -> conn q p.
Proof.
  induction 1 as [|p q r Hpq _ IH]; [done|].
  eapply rtc_r; [exact IH | by apply fgStep_sym].
Qed.

Lemma conn_fg p q : fg p -> conn p q -> fg q.
Proof. intros Hp Hc. induction Hc as [|p q r Hpq _ IH]; [done|]. apply IH, Hpq. Qed.

Local Abbreviation closed := (closedSet data w h).
Local Abbreviation inRange := (indexSet w h).
Local Abbreviation inv := (floodInv data w h).

Lemma inv_pop V0 p0 V s S C :
  fg p0 -> idx p0 ∉ V0 ->
  inv V0 p0 V (s :: S) C ->
  (~ inb s \/ idx s ∈ V \/ foreground data (idx s) = false) ->
  inv V0 p0 V S C.
Proof.
  intros Hp0 Hfresh [HV Hnd Hfr Hconn Hfront Hstack Hstart] Hskip.
  split; try done.
  - intros q Hq Hqc n Hn.
    destruct (Hfront q Hq Hqc n Hn) as [Hin | [Hnfg | HnV]]; [|by auto..].
    apply elem_of_cons in Hin as [-> | Hin]; [|by left].
    destruct Hskip as [Hs | [Hs | Hs]].
    + right; left. intros [Hinb _]. done.
    + by right; right.
    + right; left. intros [_ Hfg]. congruence.
  - intros s' Hs'. apply Hstack. by right.
  - destruct Hstart as [Hin | Hin]; [|by right].
    apply elem_of_cons in Hin as [<- | Hin]; [|by left].
    destruct Hskip as [Hs | [Hs | Hs]].
    + by destruct Hs, Hp0.
    + right. rewrite HV in Hs. set_solver.
    + destruct Hp0 as [_ Hfg]. congruence.
Qed.

Lemma inv_mark V0 p0 V x y S C :
  inv V0 p0 V ((x, y) :: S) C ->
  inb (x, y) -> idx (x, y) ∉ V -> foreground data (idx (x, y)) = true ->
  inv V0 p0 ({[idx (x, y)]} ∪ V)
      ((x, y + 1) :: (x, y - 1) :: (x + 1, y) :: (x - 1, y) :: S)
      (C ++ [idx (x, y)]).
Proof.
  intros [HV Hnd Hfr Hconn Hfront Hstack Hstart] Hinb HnV Hfg.
  assert (Hfgs : fg (x, y)) by done.
  split.
  - rewrite HV, list_to_set_app_L. set_solver.
  - apply NoDup_app. split; [done|]. split; [|apply NoDup_singleton].
    intros i Hi Hi'. apply list_elem_of_singleton in Hi' as ->.
    apply HnV. rewrite HV. set_solver.
  - intros i Hi. apply elem_of_app in Hi as [Hi | Hi]; [by apply Hfr|].
    apply list_elem_of_singleton in Hi as ->. intros Hin. apply HnV.
    rewrite HV. set_solver.
  - intros i Hi. apply elem_of_app in Hi as [Hi | Hi]; [by apply Hconn|].
    apply list_elem_of_singleton in Hi as ->. exists (x, y).
    split; [done|]. split; [done|]. apply Hstack; [by left | done].
  - intros q Hq Hqc n Hn.
    apply elem_of_app in Hqc as [Hqc | Hqc].
    + destruct (Hfront q Hq Hqc n Hn) as [Hin | [Hnfg | HnV']].
      * apply elem_of_cons in Hin as [-> | Hin].
        -- right; right. set_solver.
        -- left. by do 4 right.
      * by right; left.
      * right; right. set_solver.
    + apply list_elem_of_singleton in Hqc.
      apply idx_inj in Hqc as ->; [|done..]. left.
      unfold adjacent4, MediaPipeProcessor.neighbors4 in Hn. cbn [fst snd] in Hn.
      rewrite !elem_of_cons, elem_of_nil in Hn.
      destruct Hn as [-> | [-> | [-> | [-> | []]]]].
      * do 3 right; by left.
      * do 2 right; by left.
      * right; by left.
      * by left.
  - intros s Hs Hsfg.
    assert (Hstep : adjacent4 (x, y) s -> conn p0 s).
    { intros Hadj. eapply rtc_r; [apply Hstack; [by left | done]|]. done. }
    rewrite !elem_of_cons in Hs.
    destruct Hs as [-> | [-> | [-> | [-> | Hs]]]].
    + apply Hstep. unfold adjacent4, MediaPipeProcessor.neighbors4. cbn. by do 3 right; left.
    + apply Hstep. unfold adjacent4, MediaPipeProcessor.neighbors4. cbn. by do 2 right; left.
    + apply Hstep. unfold adjacent4, MediaPipeProcessor.neighbors4. cbn. by right; left.
    + apply Hstep. unfold adjacent4, MediaPipeProcessor.neighbors4. cbn. by left.
    + apply Hstack; [by right | done].
  - destruct Hstart as [Hin | Hin].
    + apply elem_of_cons in Hin as [-> | Hin].
      * right. apply elem_of_app. right. by left.
      * left. by do 4 right.
    + right. apply elem_of_app. by left.
Qed.


Lemma inv_inRange V0 p0 V S C : inRange V0 -> inv V0 p0 V S C -> inRange V.
Proof.
  intros HV0 [HV _ _ Hconn _ _ _] i Hi. rewrite HV in Hi.
  apply elem_of_union in Hi as [Hi | Hi]; [by apply HV0|].
  apply elem_of_list_to_set in Hi.
  destruct (Hconn i Hi) as (q & <- & [Hq _] & _).
  by apply idx_range.
Qed.

Lemma inRange_size V : inRange V -> (base.size V <= Z.to_nat (w * h))%nat.
Proof.
  intros HV.
  assert (Hsub : V ⊆ list_to_set (seqZ 0 (w * h))).
  { intros i Hi. apply elem_of_list_to_set, elem_of_seqZ. specialize (HV i Hi). lia. }
  apply subseteq_size in Hsub.
  rewrite size_list_to_set in Hsub by apply NoDup_seqZ.
  by rewrite length_seqZ in Hsub.
Qed.

(** The buffer holds an alpha entry for every pixel of the mask. *)
Hypothesis Hbuffer : 4 * (w * h) <= Z.of_nat (length data).

(** On a pixel of the mask the two tests of the code are complementary. *)
Lemma background_inside i :
  0 <= i < w * h -> background data i = negb (foreground data i).
Proof.
  intros Hi. unfold background, foreground.
  destruct (get_is_Some data (i * 4 + 3)) as [v ->]; [lia|].
  unfold of_read, num, le, gt, lt. by rewrite negb_involutive.
Qed.

(** The loop ends within its fuel, and keeps its invariant. *)
Lemma floodFill_loop_spec fuel V0 p0 V S C :
  fg p0 -> idx p0 ∉ V0 -> inRange V0 ->
  inv V0 p0 V S C ->
  (length S + 4 * (Z.to_nat (w * h) - base.size V) <= fuel)%nat ->
  exists V' C',
    floodFill_loop fuel data w h V S C = Some (V', C') /\ inv V0 p0 V' [] C'.
Proof.
  intros Hp0 Hfresh HV0. revert V S C.
  induction fuel as [|fuel IH]; intros V S C Hinv Hfuel.
  { destruct S as [|s S]; [|cbn in Hfuel; lia]. by exists V, C. }
  destruct S as [|[x y] S]; [by exists V, C|].
  cbn [floodFill_loop]. cbn [length] in Hfuel.
  destruct (MediaPipeProcessor.in_bounds x y w h) eqn:Hinb; cbn [negb orb].
  2:{ apply IH; [|lia]. eapply inv_pop; [done..|]. left.
      intros Hin. apply in_bounds_spec in Hin. congruence. }
  apply in_bounds_spec in Hinb.
  destruct (bool_decide (y * w + x ∈ V)) eqn:Hvis.
  { apply bool_decide_eq_true in Hvis.
    apply IH; [|lia]. eapply inv_pop; [done..|]. right; by left. }
  apply bool_decide_eq_false in Hvis.
  rewrite background_inside by apply (idx_range (x, y) Hinb).
  destruct (foreground data (y * w + x)) eqn:Hfg; cbn [negb].
  2:{ apply IH; [|lia]. eapply inv_pop; [done..|]. right; by right. }
  apply IH; [by apply inv_mark|].
  assert (Hsize : base.size ({[y * w + x]} ∪ V) = Datatypes.S (base.size V)).
  { rewrite size_union by set_solver. by rewrite size_singleton. }
  assert (Hle : (base.size ({[(y * w + x)%Z]} ∪ V) <= Z.to_nat (w * h))%nat).
  { apply inRange_size. eapply inv_inRange; [done|]. by apply inv_mark. }
  cbn [length]. lia.
Qed.

(** [floodFill] from an unvisited foreground pixel returns its component. *)
Lemma floodFill_spec V0 x y :
  closed V0 -> inRange V0 -> fg (x, y) -> idx (x, y) ∉ V0 ->
  exists V' C',
    floodFill data V0 x y w h = Some (V', C') /\
    V' = V0 ∪ list_to_set C' /\ NoDup C' /\
    (forall i, i ∈ C' <-> exists q, idx q = i /\ conn (x, y) q) /\
    closed V' /\ inRange V'.
Proof.
  intros Hclosed HV0 Hp0 Hfresh. unfold floodFill.
  assert (Hinit : inv V0 (x, y) V0 [(x, y)] []).
  { split; try done.
    - set_solver.
    - apply NoDup_nil_2.
    - intros i Hi. by apply elem_of_nil in Hi.
    - intros i Hi. by apply elem_of_nil in Hi.
    - intros q _ Hq. by apply elem_of_nil in Hq.
    - intros s Hs _. apply list_elem_of_singleton in Hs as ->. apply rtc_refl.
    - left. by left. }
  destruct (floodFill_loop_spec (Z.to_nat (4 * (w * h) + 1)) V0 (x, y) V0 [(x, y)] [])
    as (V' & C' & Hrun & Hinv); try done.
  { pose proof (inRange_size V0 HV0). cbn [length].
    destruct Hp0 as [Hin _]. apply idx_range in Hin. lia. }
  exists V', C'. split; [done|].
  destruct Hinv as [HV Hnd Hfr Hconn Hfront Hstack Hstart].
  assert (Hall : forall q, conn (x, y) q -> idx q ∈ C').
  { apply (rtc_ind_r (fun q => idx q ∈ C') (x, y)); [|intros q r Hq Hstep IHq].
    - destruct Hstart as [Hin | Hin]; [by apply elem_of_nil in Hin | done].
    - destruct Hstep as (Hfq & Hfr' & Hadj).
      destruct (Hfront q (proj1 Hfq) IHq r Hadj) as [Hin | [Hn | Hin]].
      + by apply elem_of_nil in Hin.
      + done.
      + rewrite HV in Hin. apply elem_of_union in Hin as [Hin | Hin].
        * exfalso. apply (Hfr (idx q) IHq).
          apply (Hclosed r q); [|done]. apply fgStep_sym. exact (conj Hfq (conj Hfr' Hadj)).
        * by apply elem_of_list_to_set in Hin. }
  assert (Hmem : forall i, i ∈ C' <-> exists q, idx q = i /\ conn (x, y) q).
  { intros i. split.
    - intros Hi. destruct (Hconn i Hi) as (q & ? & _ & ?). by exists q.
    - intros (q & <- & Hq). by apply Hall. }
  split; [done|]. split; [done|]. split; [done|]. split.
  - intros p q Hstep Hp. rewrite HV in Hp |- *.
    apply elem_of_union in Hp as [Hp | Hp].
    + apply elem_of_union_l. by apply (Hclosed p q).
    + apply elem_of_union_r, elem_of_list_to_set.
      apply elem_of_list_to_set in Hp.
      destruct (Hconn _ Hp) as (q0 & Heq & [Hq0 _] & Hc0).
      apply idx_inj in Heq as ->; [|done | apply Hstep].
      apply Hall. by eapply rtc_r.
  - intros i Hi. rewrite HV in Hi. apply elem_of_union in Hi as [Hi | Hi]; [by apply HV0|].
    apply elem_of_list_to_set in Hi.
    destruct (Hconn i Hi) as (q & <- & [Hq _] & _). by apply idx_range.
Qed.

End Flood.
End FloodFacts.

(** ** Components and pruning *)

Module ComponentFacts.
Import JS LoopFacts ArrayFacts WriteFacts TensorFlowProcessor FloodFacts.

Lemma lt_minComponentSize n w h :
  lt (num n) (minComponentSize w h) = true <-> smallComponent n w h.
Proof.
  unfold minComponentSize, smallComponent.
  change (div (num (w * h)) (num 1000))
    with (Fin (inject_Z (w * h) / inject_Z 1000)).
  unfold max, num. cbn [lt].
  assert (H50 : forall q, negb (Qle_bool q (inject_Z 50)) = true <-> (inject_Z 50 < q)%Q).
  { intros q. rewrite negb_true_iff, <- not_true_iff_false, Qle_bool_iff. split.
    - apply Qnot_le_lt.
    - apply Qlt_not_le. }
  assert (Hq : (inject_Z (w * h) / inject_Z 1000 == (w * h) # 1000)%Q).
  { unfold Qeq, Qdiv, Qmult, Qinv, inject_Z. cbn. lia. }
  destruct (negb (Qle_bool _ (inject_Z 50))) eqn:Hmax; cbn [lt];
    rewrite negb_true_iff, <- not_true_iff_false, Qle_bool_iff.
  - apply H50 in Hmax. rewrite Hq in Hmax |- *.
    unfold Qlt, Qle, inject_Z in *. cbn in *. lia.
  - apply not_true_iff_false in Hmax. rewrite H50 in Hmax.
    rewrite Hq in Hmax. unfold Qlt, Qle, inject_Z in *. cbn in *. lia.
Qed.

Lemma zero_loop_writes (component : list Z) a :
  foldl (fun data pixelIndex => set data (pixelIndex * 4 + 3) 0) a component
  = apply_writes ((fun pixelIndex => (pixelIndex * 4 + 3, 0)) <$> component) a.
Proof.
  revert a. induction component as [|i c IH]; intros a; [done|].
  cbn. apply IH.
Qed.

Lemma prune_writes w h (components : list (list Z)) a :
  foldl (fun data component =>
           if lt (num (Z.of_nat (length component))) (minComponentSize w h)
           then foldl (fun data pixelIndex => set data (pixelIndex * 4 + 3) 0)
                      data component
           else data) a components
  = apply_writes (components ≫= zeroStores w h) a.
Proof.
  revert a. induction components as [|c cs IH]; intros a; [done|].
  cbn [foldl]. rewrite IH, bind_cons, apply_writes_app. f_equal.
  unfold zeroStores. destruct (lt _ _); [apply zero_loop_writes | done].
Qed.

Section Components.
Variables (data : list Z) (w h : Z).
Hypothesis Hw : 0 <= w.
Hypothesis Hh : 0 <= h.
Hypothesis Hbuffer : 4 * (w * h) <= Z.of_nat (length data).

Local Abbreviation idx := (pixelIndex w).
Local Abbreviation inb := (inImage w h).
Local Abbreviation fg := (fgPixel data w h).
Local Abbreviation conn := (connected4 data w h).

Local Abbreviation isComponent := (componentList data w h).
Local Abbreviation found := (foundUpTo data w h).

Lemma found_step x y st :
  0 <= x < w -> 0 <= y < h ->
  found (y * w + x) st ->
  found (y * w + x + 1)
    ('(visited, components) ← st;
     let index := y * w + x in
     if bool_decide (index ∈ visited) then Some (visited, components)
     else if foreground data index then
       '(visited, component) ← floodFill data visited x y w h;
       if decide (0 < length component)%nat
       then Some (visited, components ++ [component])
       else Some (visited, components)
     else Some (visited, components)).
Proof.
  intros Hx Hy (V & comps & -> & Hcl & Hrg & HV & Hcomps & Hdone).
  cbn [mbind option_bind]. cbv zeta.
  assert (Hin : inb (x, y)) by done.
  assert (Hnext : forall V' : gset Z, (forall i, i ∈ V -> i ∈ V') -> y * w + x ∈ V' ->
            forall q, fg q -> idx q < y * w + x + 1 -> idx q ∈ V').
  { intros V' Hsub Hk q Hq Hlt.
    destruct (decide (idx q = y * w + x)) as [-> | Hne]; [done|].
    apply Hsub, Hdone; [done | lia]. }
  destruct (bool_decide (y * w + x ∈ V)) eqn:Hvis.
  { apply bool_decide_eq_true in Hvis. exists V, comps.
    refine (conj eq_refl (conj Hcl (conj Hrg (conj HV (conj Hcomps _))))).
    by apply Hnext. }
  apply bool_decide_eq_false in Hvis.
  destruct (foreground data (y * w + x)) eqn:Hfg.
  2:{ exists V, comps.
      refine (conj eq_refl (conj Hcl (conj Hrg (conj HV (conj Hcomps _))))).
      intros q Hq Hlt. destruct (decide (idx q = y * w + x)) as [Heq | Hne].
      - destruct Hq as [_ Hq]. rewrite Heq in Hq. congruence.
      - apply Hdone; [done | lia]. }
  destruct (floodFill_spec data w h Hbuffer V x y) as (V' & C' & -> & -> & Hnd & Hmem & Hcl' & Hrg');
    try done.
  cbn [mbind option_bind].
  assert (Hself : y * w + x ∈ C').
  { apply Hmem. exists (x, y). split; [done | apply rtc_refl]. }
  destruct (decide (0 < length C')%nat) as [_ | Hlen].
  2:{ destruct C'; [by apply elem_of_nil in Hself | cbn in Hlen; lia]. }
  exists (V ∪ list_to_set C'), (comps ++ [C']).
  split; [done|]. split; [done|]. split; [done|]. split; [|split].
  - intros i. rewrite elem_of_union, elem_of_list_to_set, HV. split.
    + intros [(c & Hc & Hi) | Hi].
      * exists c. split; [apply elem_of_app; by left | done].
      * exists C'. split; [apply elem_of_app; right; by left | done].
    + intros (c & Hc & Hi). apply elem_of_app in Hc as [Hc | Hc].
      * left. by exists c.
      * apply list_elem_of_singleton in Hc as ->. by right.
  - intros c Hc. apply elem_of_app in Hc as [Hc | Hc]; [by apply Hcomps|].
    apply list_elem_of_singleton in Hc as ->. split; [done|].
    exists (x, y). split; [done | exact Hmem].
  - apply Hnext.
    + intros i Hi. by apply elem_of_union_l.
    + by apply elem_of_union_r, elem_of_list_to_set.
Qed.

Lemma findComponents_spec :
  exists V comps,
    findComponents data w h = Some (V, comps) /\
    (forall c, c ∈ comps -> isComponent c) /\
    (forall q, fg q -> exists c, c ∈ comps /\ idx q ∈ c).
Proof.
  assert (Hfound : found (h * w) (findComponents data w h)).
  { unfold findComponents.
    apply (for_range_ind_idx (fun y st => found (y * w) st)); [done | |].
    - exists ∅, []. split; [done|]. split; [|split; [|split; [|split]]].
      + intros p q _ Hp. by apply elem_of_empty in Hp.
      + intros i Hi. by apply elem_of_empty in Hi.
      + intros i. split.
        * intros Hi. by apply elem_of_empty in Hi.
        * intros (c & Hc & _). by apply elem_of_nil in Hc.
      + intros c Hc. by apply elem_of_nil in Hc.
      + intros q [Hq _] Hlt. apply (idx_range w h) in Hq. lia.
    - intros y st Hy Hst.
      replace ((y + 1) * w) with (y * w + w) by lia.
      apply (for_range_ind_idx (fun x st => found (y * w + x) st)); [done | |].
      + by rewrite Z.add_0_r.
      + intros x st' Hx Hst'. rewrite Z.add_assoc. by apply found_step. }
  destruct Hfound as (V & comps & -> & _ & _ & HV & Hcomps & Hdone).
  exists V, comps. split; [done|]. split; [done|].
  intros q Hq. apply HV, Hdone; [done|].
  destruct Hq as [Hq _]. apply (idx_range w h) in Hq. lia.
Qed.

End Components.
End ComponentFacts.

Module PruningFacts.
Import JS LoopFacts ArrayFacts WriteFacts TensorFlowProcessor FloodFacts ComponentFacts.

Section Pruning.
Variables (data : list Z) (w h : Z).
Hypothesis Hw : 0 <= w.
Hypothesis Hh : 0 <= h.

Local Abbreviation idx := (pixelIndex w).
Local Abbreviation inb := (inImage w h).
Local Abbreviation fg := (fgPixel data w h).
Local Abbreviation conn := (connected4 data w h).

Local Abbreviation coords := (pixelCoords w).

Lemma coords_idx q : inb q -> coords (idx q) = q.
Proof.
  destruct q as [x y]. unfold inImage, pixelCoords, pixelIndex. cbn [fst snd].
  intros [Hx Hy]. f_equal.
  - rewrite Z.add_comm, Z.mod_add by lia. apply Z.mod_small. lia.
  - rewrite Z.add_comm, Z.div_add by lia. rewrite Z.div_small by lia. lia.
Qed.

(** A pixel whose index a found component holds is foreground, and the
    component lists the pixels connected to it. *)
Lemma component_member c p :
  componentList data w h c -> inb p -> idx p ∈ c ->
  fg p /\ forall i, i ∈ c <-> exists q, idx q = i /\ conn p q.
Proof.
  intros (Hnd & p' & Hp' & Hc) Hp Hin.
  apply Hc in Hin as (q & Heq & Hq).
  assert (Hfq : fg q) by (by eapply conn_fg).
  apply (idx_inj w h) in Heq as ->; [|apply Hfq | done].
  split; [done|]. intros i. rewrite Hc. split; intros (r & Hr & Hcr); exists r.
  - split; [done|]. etrans; [by apply conn_sym | done].
  - split; [done|]. by etrans.
Qed.

Lemma component_length c p comp :
  componentList data w h c -> inb p -> idx p ∈ c ->
  componentOf data w h p comp -> length comp = length c.
Proof.
  intros Hc Hp Hin [Hnd Hcomp].
  destruct (component_member c p Hc Hp Hin) as [Hfp Hmem].
  rewrite <- (length_fmap idx comp). apply Permutation_length.
  apply NoDup_Permutation; [|apply Hc|].
  - apply NoDup_fmap_2_strong; [|done].
    intros a b Ha Hb. apply (idx_inj w h).
    + apply (conn_fg data w h p); [done | by apply Hcomp].
    + apply (conn_fg data w h p); [done | by apply Hcomp].
  - intros i. rewrite list_elem_of_fmap, Hmem. split.
    + intros (q & -> & Hq). exists q. split; [done | by apply Hcomp].
    + intros (q & <- & Hq). exists q. split; [done | by apply Hcomp].
Qed.

Lemma component_exists c p :
  componentList data w h c -> inb p -> idx p ∈ c ->
  exists comp, componentOf data w h p comp.
Proof.
  intros Hc Hp Hin.
  destruct (component_member c p Hc Hp Hin) as [Hfp Hmem].
  assert (Hinb : forall q, conn p q -> inb q).
  { intros q Hq. by apply (conn_fg data w h p). }
  exists (coords <$> c). split.
  - apply NoDup_fmap_2_strong; [|apply Hc].
    intros i j Hi Hj Heq. apply Hmem in Hi as (qi & <- & Hi).
    apply Hmem in Hj as (qj & <- & Hj).
    rewrite !coords_idx in Heq by auto. by subst.
  - intros q. rewrite list_elem_of_fmap. split.
    + intros (i & -> & Hi). apply Hmem in Hi as (r & <- & Hr).
      by rewrite coords_idx by auto.
    + intros Hq. exists (idx q). split; [by rewrite coords_idx by auto|].
      apply Hmem. by exists q.
Qed.

End Pruning.

(** Claim C6.  Small-region pruning returns, for every well-formed mask: the
    R, G and B entries and every background pixel unchanged; a foreground
    pixel at alpha 0 when its 4-connected component of alpha > 128 has fewer
    than max(50, width*height/1000) pixels, and unchanged otherwise.  So a
    single connected blob below the threshold, alone on the mask, is zeroed
    and no foreground is left. *)
Theorem connectedComponentAnalysis_prunes (img : ImageData) :
  wf_image img ->
  let w := width img in
  let h := height img in
  exists out,
    connectedComponentAnalysis img = Some out /\
    width out = w /\ height out = h /\
    length (data out) = length (data img) /\
    (forall i, i mod 4 <> 3 -> get (data out) i = get (data img) i) /\
    (forall p, inImage w h p -> ~ fgPixel (data img) w h p ->
       alphaAt (data out) w p.1 p.2 = alphaAt (data img) w p.1 p.2) /\
    (forall p, fgPixel (data img) w h p ->
       (exists comp, componentOf (data img) w h p comp) /\
       forall comp, componentOf (data img) w h p comp ->
         (smallComponent (Z.of_nat (length comp)) w h ->
            alphaAt (data out) w p.1 p.2 = Some 0) /\
         (~ smallComponent (Z.of_nat (length comp)) w h ->
            alphaAt (data out) w p.1 p.2 = alphaAt (data img) w p.1 p.2)) /\
    (forall blob,
       NoDup blob ->
       (forall q, q ∈ blob <-> fgPixel (data img) w h q) ->
       (forall p q, p ∈ blob -> q ∈ blob -> connected4 (data img) w h p q) ->
       smallComponent (Z.of_nat (length blob)) w h ->
       forall p, inImage w h p ->
         fgAt (data out) w p.1 p.2 = false /\
         (p ∈ blob -> alphaAt (data out) w p.1 p.2 = Some 0)).
Proof.
  intros (Hw & Hh & Hlen) w h.
  destruct (findComponents_spec (data img) w h Hw Hh ltac:(subst w h; lia))
    as (V & comps & Hfind & Hcomps & Hall).
  unfold connectedComponentAnalysis. fold w h. rewrite Hfind.
  cbn [mbind option_bind]. cbv zeta. rewrite prune_writes.
  eexists. split; [reflexivity|]. cbn [width height data].
  set (W := comps ≫= zeroStores w h).
  assert (HW : forall j v, (j, v) ∈ W <->
            exists c i, c ∈ comps /\ i ∈ c /\ j = i * 4 + 3 /\ v = 0 /\
              smallComponent (Z.of_nat (length c)) w h).
  { intros j v. subst W. rewrite list_elem_of_bind. unfold zeroStores. split.
    - intros (c & Hj & Hc). destruct (lt _ _) eqn:Hsmall; [|by apply elem_of_nil in Hj].
      apply list_elem_of_fmap in Hj as (i & [= -> ->] & Hi).
      exists c, i. repeat split; try done. by apply lt_minComponentSize.
    - intros (c & i & Hc & Hi & -> & -> & Hsmall). exists c. split; [|done].
      apply lt_minComponentSize in Hsmall. rewrite Hsmall.
      apply list_elem_of_fmap. by exists i. }
  assert (Hidx : forall p, pixelIndex w p * 4 + 3 = (p.2 * w + p.1) * 4 + 3) by done.
  assert (Hkeep : forall p, inImage w h p ->
            (forall c, c ∈ comps -> pixelIndex w p ∈ c ->
               ~ smallComponent (Z.of_nat (length c)) w h) ->
            alphaAt (apply_writes W (data img)) w p.1 p.2 = alphaAt (data img) w p.1 p.2).
  { intros p Hp Hno. unfold alphaAt. apply get_apply_writes_miss. intros v Hv.
    apply HW in Hv as (c & i & Hc & Hi & Hj & _ & Hsmall).
    assert (i = pixelIndex w p) as -> by (unfold pixelIndex; lia).
    by apply (Hno c). }
  assert (Hzero : forall p c, inImage w h p -> c ∈ comps -> pixelIndex w p ∈ c ->
            smallComponent (Z.of_nat (length c)) w h ->
            alphaAt (apply_writes W (data img)) w p.1 p.2 = Some 0).
  { intros p c Hp Hc Hi Hsmall. unfold alphaAt. apply get_apply_writes_hit.
    - apply HW. exists c, (pixelIndex w p). by repeat split.
    - intros v' Hv'. apply HW in Hv'. by destruct Hv' as (_ & _ & _ & _ & _ & -> & _).
    - rewrite Hlen. destruct Hp as [Hx Hy].
      apply (pixel_index_range w h); lia. }
  split; [done|]. split; [done|]. split; [apply length_apply_writes|].
  split; [|split; [|split]].
  - intros i Hi. apply get_apply_writes_miss. intros v Hv.
    apply HW in Hv as (c & j & _ & _ & -> & _). apply Hi.
    rewrite Z.add_comm, Z.mod_add by lia. done.
  - intros p Hp Hnfg. apply Hkeep; [done|]. intros c Hc Hi.
    destruct (component_member (data img) w h c p (Hcomps c Hc) Hp Hi) as [Hfg _]. done.
  - intros p Hfg. destruct (Hall p Hfg) as (c & Hc & Hi).
    destruct Hfg as [Hp Hfg].
    split; [by apply (component_exists (data img) w h c p (Hcomps c Hc))|].
    intros comp Hcomp. split.
    + intros Hsmall. apply (Hzero p c); try done.
      by rewrite <- (component_length (data img) w h c p comp (Hcomps c Hc)).
    + intros Hbig. apply Hkeep; [done|]. intros c' Hc' Hi'.
      by rewrite <- (component_length (data img) w h c' p comp (Hcomps c' Hc')).
  - intros blob Hnd Hblob Hconn Hsmall p Hp.
    assert (Hin : forall q, q ∈ blob -> alphaAt (apply_writes W (data img)) w q.1 q.2 = Some 0).
    { intros q Hq. assert (Hfq : fgPixel (data img) w h q) by by apply Hblob.
      destruct (Hall q Hfq) as (c & Hc & Hi).
      apply (Hzero q c); try done; [apply Hfq|].
      rewrite <- (component_length (data img) w h c q blob (Hcomps c Hc)); try done;
        [apply Hfq|].
      split; [done|]. intros r. split; [by apply Hconn|].
      intros Hr. apply Hblob. by apply (conn_fg (data img) w h q). }
    split; [|by apply Hin].
    destruct (decide (p ∈ blob)) as [Hpb | Hpb].
    + unfold fgAt. by rewrite (Hin p Hpb).
    + assert (Hnfg : ~ fgPixel (data img) w h p) by (by rewrite <- Hblob).
      unfold fgAt. rewrite Hkeep; [| done |].
      * apply not_true_is_false. intros Hfg. apply Hnfg. split; [done|].
        unfold foreground. by rewrite Hidx.
      * intros c Hc Hi.
        destruct (component_member (data img) w h c p (Hcomps c Hc) Hp Hi) as [Hfg _].
        done.
Qed.

End PruningFacts.

(** [connectedComponentAnalysis_prunes] at [noiseSample]. *)
Lemma connectedComponentAnalysis_prunes_witness :
  exists out,
    TensorFlowProcessor.connectedComponentAnalysis noiseSample = Some out /\
    length (data out) = length (data noiseSample).
Proof.
  destruct (PruningFacts.connectedComponentAnalysis_prunes noiseSample
              NoiseTheorems.noiseSample_wf) as (out & Hrun & _ & _ & Hlen & _).
  by exists out.
Defined.

(** ** Edge feathering *)

Module GaussFacts.
Import JS LoopFacts ArrayFacts WriteFacts.
Import MediaPipeProcessor.

Lemma foldl_inv {A B : Type} (P : A -> Prop) (f : A -> B -> A) (l : list B) a :
  P a -> (forall a b, b ∈ l -> P a -> P (f a b)) -> P (foldl f a l).
Proof.
  revert a. induction l as [|b l IH]; intros a Ha Hf; [done|].
  cbn [foldl]. apply IH.
  - apply Hf; [by left | done].
  - intros a' b' Hb'. apply Hf. by right.
Qed.

Lemma Qeq_bool_false_pos (q : Q) : (0 < q)%Q -> Qeq_bool q 0 = false.
Proof.
  intros Hq. apply not_true_iff_false. intros Heq%Qeq_bool_iff.
  rewrite Heq in Hq. by apply Qlt_irrefl in Hq.
Qed.

Section WithMath.
Context `{JSMath}.
Hypothesis exp_nonneg : forall q, (0 <= Math_exp q)%Q.
Hypothesis exp_zero : forall q, (q == 0)%Q -> (Math_exp q == 1)%Q.
Hypothesis sqrt_zero : forall q, (q == 0)%Q -> (Math_sqrt q == 0)%Q.

Lemma gaussianWeight_Fin s dx dy :
  (0 < s)%Q ->
  exists q, gaussianWeight (Fin s) dx dy = Fin q /\ (0 <= q)%Q /\
            (dx = 0 -> dy = 0 -> (q == 1)%Q).
Proof.
  intros Hs. unfold gaussianWeight, num. cbn [sqrt].
  assert (Hn : Qle_bool 0 (inject_Z (dx * dx + dy * dy)) = true).
  { apply Qle_bool_iff. change 0%Q with (inject_Z 0). rewrite <- Zle_Qle.
    pose proof (Z.square_nonneg dx). pose proof (Z.square_nonneg dy). lia. }
  rewrite Hn. cbn [mul neg div].
  rewrite Qeq_bool_false_pos
    by (apply Qmult_lt_0_compat; [apply Qmult_lt_0_compat; [reflexivity|] |]; done).
  cbn [exp].
  eexists. split; [reflexivity|]. split; [apply exp_nonneg|].
  intros -> ->. apply exp_zero.
  rewrite (sqrt_zero (inject_Z (0 * 0 + 0 * 0))) by reflexivity.
  unfold Qdiv. ring.
Qed.

(** The weights of the window add up to at least the weight 1 of its
    centre. *)
Lemma gaussianSums_weight orig x y w r s :
  0 <= r -> (0 < s)%Q ->
  exists q, (gaussianSums orig x y w r (Fin s)).2 = Fin q /\ (1 <= q)%Q.
Proof.
  intros Hr Hs. unfold gaussianSums.
  pose (P := fun (c : Prop) (st : jsnum * jsnum) =>
               exists q, st.2 = Fin q /\ (0 <= q)%Q /\ (c -> (1 <= q)%Q)).
  enough (HP : P (0 < r + 1)
             (for_range (- r) (r + 1) (fun dy =>
                for_range (- r) (r + 1) (fun dx '(alphaSum, weightSum) =>
                  let weight := gaussianWeight (Fin s) dx dy in
                  let nIndex := ((y + dy) * w + (x + dx)) * 4 in
                  (add alphaSum (mul (of_read (get orig (nIndex + 3))) weight),
                   add weightSum weight))) (num 0, num 0))).
  { destruct HP as (q & Hq & _ & Hone). exists q. split; [done|]. apply Hone. lia. }
  apply (for_range_ind_idx (fun dy st => P (0 < dy) st)); [lia | |].
  { exists 0%Q. split; [done|]. split; [done|]. lia. }
  intros dy st Hdy (q & Hq & Hq0 & Hq1).
  enough (HQ : P (0 < dy \/ (dy = 0 /\ 0 < r + 1))
             (for_range (- r) (r + 1) (fun dx '(alphaSum, weightSum) =>
                  let weight := gaussianWeight (Fin s) dx dy in
                  let nIndex := ((y + dy) * w + (x + dx)) * 4 in
                  (add alphaSum (mul (of_read (get orig (nIndex + 3))) weight),
                   add weightSum weight)) st)).
  { destruct HQ as (q' & Hq' & Hq0' & Hq1'). exists q'.
    split; [done|]. split; [done|]. intros Hpos. apply Hq1'. lia. }
  apply (for_range_ind_idx (fun dx st => P (0 < dy \/ (dy = 0 /\ 0 < dx)) st)); [lia | |].
  { exists q. split; [done|]. split; [done|]. intros [Hpos | [_ Hpos]]; [auto | lia]. }
  intros dx [a b] Hdx (q' & Hq' & Hq0' & Hq1'). cbn [snd] in Hq'. subst b.
  destruct (gaussianWeight_Fin s dx dy Hs) as (wq & -> & Hw0 & Hw1).
  cbv zeta. cbn [add]. exists (q' + wq)%Q. split; [done|]. split; [lra|].
  intros Hc.
  destruct (decide (0 < dy \/ dy = 0 /\ 0 < dx)) as [Hprev | Hprev].
  - specialize (Hq1' Hprev). lra.
  - assert (dx = 0 /\ dy = 0) as [-> ->] by lia.
    rewrite (Hw1 eq_refl eq_refl). lra.
Qed.

End WithMath.
End GaussFacts.

Module FeatherFacts.
Import JS LoopFacts ArrayFacts WriteFacts GaussFacts.

Lemma edgeSample_wf : wf_image edgeSample.
Proof. by vm_compute. Qed.

Lemma edgeSample_bytes : bytes (data edgeSample).
Proof. unfold bytes. vm_compute. repeat constructor; discriminate. Qed.

(** The laws of [Math.exp] and [Math.sqrt] the statements use hold of the
    rational [refMath]. *)
Lemma ref_exp_nonneg q : (0 <= ref_exp q)%Q.
Proof.
  unfold ref_exp. cbn [Nat.iter]. unfold Qsquare at 1.
  generalize (Qsquare (Qsquare (Qsquare (Qsquare (Qsquare (Qsquare
              (Qsquare (1 + q / 256)))))))). intros z.
  unfold Qle, Qmult. cbn. rewrite Z.mul_1_r. apply Z.square_nonneg.
Qed.

Lemma Qsquare_one z : (z == 1)%Q -> (Qsquare z == 1)%Q.
Proof. intros Hz. unfold Qsquare. rewrite Hz. reflexivity. Qed.

Lemma ref_exp_zero q : (q == 0)%Q -> (ref_exp q == 1)%Q.
Proof.
  intros Hq. unfold ref_exp. cbn [Nat.iter]. do 8 apply Qsquare_one.
  rewrite Hq. reflexivity.
Qed.

Lemma ref_sqrt_zero q : (q == 0)%Q -> (ref_sqrt q == 0)%Q.
Proof. intros Hq. unfold ref_sqrt. rewrite Hq. reflexivity. Qed.

Section WithMath.
Context `{JSMath}.

Lemma alphaDiff_Fin data x y nx ny w :
  is_Some (get data ((y * w + x) * 4 + 3)) ->
  is_Some (get data ((ny * w + nx) * 4 + 3)) ->
  exists d, MediaPipeProcessor.alphaDiff data x y nx ny w = Fin d /\ (0 <= d)%Q.
Proof.
  intros [a Ha] [b Hb]. unfold MediaPipeProcessor.alphaDiff. rewrite Ha, Hb.
  cbn [of_read sub add neg abs]. unfold num.
  eexists. split; [reflexivity | apply Qabs_nonneg].
Qed.

Lemma calculateEdgeStrength_Fin img x y :
  wf_image img -> 0 <= x < width img -> 0 <= y < height img ->
  exists e, TensorFlowProcessor.calculateEdgeStrength x y (data img)
              (width img) (height img) = Fin e /\ (0 <= e)%Q.
Proof.
  intros (Hw & Hh & Hlen) Hx Hy. unfold TensorFlowProcessor.calculateEdgeStrength.
  apply (foldl_inv (fun m => exists e, m = Fin e /\ (0 <= e)%Q)).
  { exists 0%Q. split; [reflexivity | lra]. }
  intros m [nx ny] _ (e & -> & He).
  destruct (TensorFlowProcessor.in_bounds nx ny _ _) eqn:Hin; [|by exists e].
  apply FloodFacts.in_bounds_spec in Hin as [Hnx Hny]. cbn [fst snd] in Hnx, Hny.
  destruct (alphaDiff_Fin (data img) x y nx ny (width img)) as (d & Hd & Hd0).
  { apply get_is_Some. rewrite Hlen. apply pixel_index_range; lia. }
  { apply get_is_Some. rewrite Hlen. apply pixel_index_range; lia. }
  unfold TensorFlowProcessor.alphaDiff. rewrite Hd. cbn [max lt].
  destruct (negb _); eauto.
Qed.

Hypothesis exp_nonneg : forall q, (0 <= Math_exp q)%Q.
Hypothesis exp_zero : forall q, (q == 0)%Q -> (Math_exp q == 1)%Q.
Hypothesis sqrt_zero : forall q, (q == 0)%Q -> (Math_sqrt q == 0)%Q.

Lemma adaptiveSums_weight img x y :
  wf_image img -> 0 <= x < width img -> 0 <= y < height img ->
  exists q, (TensorFlowProcessor.adaptiveSums (data img) x y (width img)
               (height img)).2 = Fin q /\ (1 <= q)%Q.
Proof.
  intros Hwf Hx Hy. unfold TensorFlowProcessor.adaptiveSums.
  destruct (calculateEdgeStrength_Fin img x y Hwf Hx Hy) as (e & -> & He).
  change (div (Fin e) (num 50)) with (Fin (e / inject_Z 50)).
  assert (Hs : exists s, max (Fin (1 # 2)) (min (num 2) (Fin (e / inject_Z 50))) = Fin s
                         /\ (1 # 2 <= s)%Q).
  { unfold num. cbn [min lt]. destruct (negb (Qle_bool (inject_Z 2) _)); cbn [max lt].
    - destruct (Qle_bool (e / inject_Z 50) (1 # 2)) eqn:Hle; cbn [negb].
      + exists (1 # 2)%Q. split; [done | lra].
      + exists (e / inject_Z 50)%Q. split; [done|].
        apply not_true_iff_false in Hle. rewrite Qle_bool_iff in Hle. lra.
    - exists (inject_Z 2). split; [done|]. by vm_compute. }
  destruct Hs as (s & -> & Hs).
  change (ceil (mul (Fin s) (num 2)))
    with (Fin (inject_Z (Qceiling (s * inject_Z 2)))).
  cbv beta iota. rewrite Qfloor_Z.
  apply (gaussianSums_weight exp_nonneg exp_zero sqrt_zero); [|lra].
  assert (Hc : (s * inject_Z 2 <= inject_Z (Qceiling (s * inject_Z 2)))%Q)
    by apply Qle_ceiling.
  assert (Hpos : (inject_Z 0 < inject_Z (Qceiling (s * inject_Z 2)))%Q).
  { eapply Qlt_le_trans; [|exact Hc]. change (inject_Z 0) with 0%Q.
    change (inject_Z 2) with 2%Q. lra. }
  rewrite <- Zlt_Qlt in Hpos. lia.
Qed.

Lemma edgeFeathering_bytes img :
  bytes (data img) -> bytes (data (MediaPipeProcessor.edgeFeathering img)).
Proof.
  intros Hb. unfold MediaPipeProcessor.edgeFeathering. cbn [data].
  apply for_range_ind; [done|]. intros y a _ Ha.
  apply for_range_ind; [done|]. intros x a' _ Ha'.
  destruct (MediaPipeProcessor.isEdgePixel _ _ _ _ _); [|done].
  destruct (MediaPipeProcessor.gaussianSums _ _ _ _ _ _). by apply bytes_store.
Qed.

Lemma edgeOptimization_bytes img :
  bytes (data img) -> bytes (data (TensorFlowProcessor.edgeOptimization img)).
Proof.
  intros Hb. unfold TensorFlowProcessor.edgeOptimization. cbn [data].
  apply for_range_ind; [done|]. intros y a _ Ha.
  apply for_range_ind; [done|]. intros x a' _ Ha'.
  destruct (TensorFlowProcessor.isEdgePixel _ _ _ _ _); [|done].
  destruct (TensorFlowProcessor.adaptiveSums _ _ _ _ _). by apply bytes_store.
Qed.

End WithMath.

(** Claim C7.  At every pixel of the range on which the feathering loops
    run, in the balanced tier (radius 2, sigma 1) and in the precise tier
    (adaptive sigma and radius), the accumulated weight sum is a finite
    number of at least 1, the weight of the centre, so the division that
    produces the new alpha does not divide by zero; and every entry of the
    output of either stage is in [0,255].  [Math.exp] is only assumed to be
    non-negative with exp(0) = 1, and [Math.sqrt] to have sqrt(0) = 0. *)
Theorem feathering_weight_sum `{JSMath} (img : ImageData) (x y : Z) :
  (forall q, (0 <= Math_exp q)%Q) ->
  (forall q, (q == 0)%Q -> (Math_exp q == 1)%Q) ->
  (forall q, (q == 0)%Q -> (Math_sqrt q == 0)%Q) ->
  wf_image img -> bytes (data img) ->
  2 <= x < width img - 2 -> 2 <= y < height img - 2 ->
  (exists weightSum,
     (MediaPipeProcessor.gaussianSums (data img) x y (width img) 2 (num 1)).2
       = Fin weightSum /\
     (1 <= weightSum)%Q /\ Qeq_bool weightSum 0 = false) /\
  (exists weightSum,
     (TensorFlowProcessor.adaptiveSums (data img) x y (width img) (height img)).2
       = Fin weightSum /\
     (1 <= weightSum)%Q /\ Qeq_bool weightSum 0 = false) /\
  bytes (data (MediaPipeProcessor.edgeFeathering img)) /\
  bytes (data (TensorFlowProcessor.edgeOptimization img)).
Proof.
  intros Hexp Hexp0 Hsqrt0 Hwf Hb Hx Hy.
  split; [|split; [|split]].
  - destruct (gaussianSums_weight Hexp Hexp0 Hsqrt0 (data img) x y (width img) 2 1)
      as (q & Hq & Hq1); [lia | lra |].
    exists q. split; [done|]. split; [done|]. apply Qeq_bool_false_pos. lra.
  - destruct (adaptiveSums_weight Hexp Hexp0 Hsqrt0 img x y Hwf) as (q & Hq & Hq1);
      [lia | lia |].
    exists q. split; [done|]. split; [done|]. apply Qeq_bool_false_pos. lra.
  - by apply edgeFeathering_bytes.
  - by apply edgeOptimization_bytes.
Qed.

(** [feathering_weight_sum] at the centre of [edgeSample], with [refMath]. *)
Lemma feathering_weight_sum_witness :
  bytes (data (@MediaPipeProcessor.edgeFeathering refMath edgeSample)) /\
  bytes (data (@TensorFlowProcessor.edgeOptimization refMath edgeSample)).
Proof.
  assert (Hx : 2 <= 2 < width edgeSample - 2) by (cbn; lia).
  assert (Hy : 2 <= 2 < height edgeSample - 2) by (cbn; lia).
  exact (proj2 (proj2 (@feathering_weight_sum refMath edgeSample 2 2
                         ref_exp_nonneg ref_exp_zero ref_sqrt_zero
                         edgeSample_wf edgeSample_bytes Hx Hy))).
Defined.

End FeatherFacts.

(** ** The two post-processing chains *)

Module ChainFacts.
Import JS LoopFacts ArrayFacts WriteFacts FrameFacts.

Lemma same_rgb_store a b k v :
  k mod 4 = 3 -> same_rgb a b -> same_rgb (store a k v) b.
Proof. apply same_rgb_set. Qed.

Lemma same_rgb_pass lo hi lo' hi' w
    (body : Z -> Z -> list Z -> option jsnum) a b :
  same_rgb a b ->
  same_rgb
    (for_range lo hi (fun y => for_range lo' hi' (fun x a =>
       match body x y a with
       | Some v => store a ((y * w + x) * 4 + 3) v
       | None => a
       end)) a) b.
Proof.
  intros Hab.
  apply for_range_ind; [done|]. intros y a1 _ Ha1.
  apply for_range_ind; [done|]. intros x a2 _ Ha2.
  destruct (body x y a2); [|done].
  apply same_rgb_store; [apply alpha_index_mod | done].
Qed.

Lemma medianFilter_frame img :
  let out := MediaPipeProcessor.medianFilter img in
  width out = width img /\ height out = height img /\
  same_rgb (data out) (data img).
Proof.
  cbn zeta. split; [done|]. split; [done|].
  unfold MediaPipeProcessor.medianFilter. cbn [data].
  apply (same_rgb_pass _ _ _ _ _ (fun x y _ => Some _)), same_rgb_refl.
Qed.

Lemma morph_pass_frame op init src w h a b :
  same_rgb a b -> same_rgb (MediaPipeProcessor.morph_pass op init src w h a) b.
Proof.
  intros Hab. unfold MediaPipeProcessor.morph_pass.
  by apply (same_rgb_pass _ _ _ _ _ (fun x y _ => Some _)).
Qed.

Lemma morphologicalOperations_frame img :
  let out := MediaPipeProcessor.morphologicalOperations img in
  width out = width img /\ height out = height img /\
  same_rgb (data out) (data img).
Proof.
  cbn zeta. split; [done|]. split; [done|].
  unfold MediaPipeProcessor.morphologicalOperations. cbn [data].
  apply morph_pass_frame, morph_pass_frame, same_rgb_refl.
Qed.

Lemma connectedComponentAnalysis_frame img :
  wf_image img ->
  exists out,
    TensorFlowProcessor.connectedComponentAnalysis img = Some out /\
    width out = width img /\ height out = height img /\
    same_rgb (data out) (data img).
Proof.
  intros (Hw & Hh & Hlen).
  destruct (ComponentFacts.findComponents_spec (data img) (width img) (height img)
              Hw Hh ltac:(lia))
    as (V & comps & Hfind & _ & _).
  unfold TensorFlowProcessor.connectedComponentAnalysis. rewrite Hfind.
  cbn [mbind option_bind]. cbv zeta. rewrite ComponentFacts.prune_writes.
  eexists. split; [reflexivity|]. cbn [width height data].
  split; [done|]. split; [done|]. split; [apply length_apply_writes|].
  intros j Hj. apply get_apply_writes_miss. intros v Hv.
  apply list_elem_of_bind in Hv as (c & Hv & _). unfold zeroStores in Hv.
  destruct (lt _ _); [|by apply elem_of_nil in Hv].
  apply list_elem_of_fmap in Hv as (i & [= -> _] & _).
  apply Hj, alpha_index_mod.
Qed.

Section WithMath.
Context `{JSMath}.

Lemma edgeFeathering_frame img :
  let out := MediaPipeProcessor.edgeFeathering img in
  width out = width img /\ height out = height img /\
  same_rgb (data out) (data img).
Proof.
  cbn zeta. split; [done|]. split; [done|].
  unfold MediaPipeProcessor.edgeFeathering. cbn [data].
  apply for_range_ind; [apply same_rgb_refl|]. intros y a1 _ Ha1.
  apply for_range_ind; [done|]. intros x a2 _ Ha2.
  destruct (MediaPipeProcessor.isEdgePixel _ _ _ _ _); [|done].
  destruct (MediaPipeProcessor.gaussianSums _ _ _ _ _ _).
  apply same_rgb_store; [apply alpha_index_mod | done].
Qed.

Lemma edgeOptimization_frame img :
  let out := TensorFlowProcessor.edgeOptimization img in
  width out = width img /\ height out = height img /\
  same_rgb (data out) (data img).
Proof.
  cbn zeta. split; [done|]. split; [done|].
  unfold TensorFlowProcessor.edgeOptimization. cbn [data].
  apply for_range_ind; [apply same_rgb_refl|]. intros y a1 _ Ha1.
  apply for_range_ind; [done|]. intros x a2 _ Ha2.
  destruct (TensorFlowProcessor.isEdgePixel _ _ _ _ _); [|done].
  destruct (TensorFlowProcessor.adaptiveSums _ _ _ _ _).
  apply same_rgb_store; [apply alpha_index_mod | done].
Qed.

Lemma bilateralFilter_frame img :
  let out := TensorFlowProcessor.bilateralFilter img in
  width out = width img /\ height out = height img /\
  same_rgb (data out) (data img).
Proof.
  cbn zeta. split; [done|]. split; [done|].
  unfold TensorFlowProcessor.bilateralFilter. cbn [data].
  apply for_range_ind; [apply same_rgb_refl|]. intros y a1 _ Ha1.
  apply for_range_ind; [done|]. intros x a2 _ Ha2.
  destruct (for_range _ _ _ _).
  apply same_rgb_store; [apply alpha_index_mod | done].
Qed.

Lemma opaque3_balanced :
  MediaPipeProcessor.postProcessSegmentation opaque3 = opaque3.
Proof. by vm_compute. Qed.

Lemma opaque3_precise :
  TensorFlowProcessor.postProcessSegmentation opaque3 = Some transparent3.
Proof. by vm_compute. Qed.

End WithMath.

(** Claim C2 as stated fails: whatever [Math] is, the balanced tier returns
    the opaque 3x3 mask as it is and the precise tier returns it fully
    transparent. *)
Lemma tiers_differ_on_opaque3 :
  (forall M : JSMath, @MediaPipeProcessor.postProcessSegmentation M opaque3 = opaque3) /\
  (forall M : JSMath,
     @TensorFlowProcessor.postProcessSegmentation M opaque3 = Some transparent3) /\
  data opaque3 <> data transparent3.
Proof.
  split; [intros M; apply opaque3_balanced|].
  split; [intros M; apply opaque3_precise|]. by vm_compute.
Qed.

End ChainFacts.

(** ** Canvases and the complexity score *)

Module ImageFacts.
Import JS LoopFacts ArrayFacts.

Lemma length_bind_chunks {A B : Type} (g : A -> list B) (n : nat) (l : list A) :
  (forall a, length (g a) = n) -> length (l ≫= g) = (length l * n)%nat.
Proof.
  intros Hg. induction l as [|a l IH]; [done|].
  rewrite bind_cons, length_app, IH, Hg. cbn. lia.
Qed.

Lemma lookup_bind_chunks {A B : Type} (g : A -> list B) (n : nat) (l : list A) i j :
  (forall a, length (g a) = n) -> (j < n)%nat ->
  (l ≫= g) !! (i * n + j)%nat = l !! i ≫= fun a => g a !! j.
Proof.
  intros Hg Hj. revert i. induction l as [|a l IH]; intros i; [done|].
  rewrite bind_cons. destruct i as [|i].
  - cbn. apply lookup_app_l. by rewrite Hg.
  - rewrite lookup_app_r by (rewrite Hg; cbn; lia).
    rewrite Hg. replace (S i * n + j - n)%nat with (i * n + j)%nat by (cbn; lia).
    apply IH.
Qed.

Section Canvas.
Variables (w h : Z) (f : Z -> Z -> pixel).
Hypothesis Hw : 0 <= w.
Hypothesis Hh : 0 <= h.

Lemma length_pixel_bytes p : length (pixel_bytes p) = 4%nat.
Proof. by destruct p as [[[r g] b] a]. Qed.

Lemma length_row y :
  length (seqZ 0 w ≫= fun x => pixel_bytes (f x y)) = (Z.to_nat w * 4)%nat.
Proof.
  rewrite (length_bind_chunks _ 4) by (intros; apply length_pixel_bytes).
  by rewrite length_seqZ.
Qed.

Lemma length_imageOf :
  Z.of_nat (length (data (imageOf w h f))) = 4 * (w * h).
Proof.
  unfold imageOf. cbn [data].
  rewrite (length_bind_chunks _ (Z.to_nat w * 4)) by apply length_row.
  rewrite length_seqZ. rewrite !Nat2Z.inj_mul, !Z2Nat.id by lia. lia.
Qed.

Lemma imageOf_wf : wf_image (imageOf w h f).
Proof. split; [done|]. split; [done|]. apply length_imageOf. Qed.

Lemma pixel_bytes_lookup p c :
  0 <= c < 4 -> pixel_bytes p !! Z.to_nat c = Some (channel p c).
Proof.
  intros Hc. destruct p as [[[r g] b] a].
  assert (Hcases : c = 0 \/ c = 1 \/ c = 2 \/ c = 3) by lia.
  by destruct Hcases as [-> | [-> | [-> | ->]]].
Qed.

Lemma get_imageOf x y c :
  0 <= x < w -> 0 <= y < h -> 0 <= c < 4 ->
  get (data (imageOf w h f)) ((y * w + x) * 4 + c) = Some (channel (f x y) c).
Proof.
  intros Hx Hy Hc. unfold get, imageOf. cbn [data].
  rewrite decide_True by nia.
  replace (Z.to_nat ((y * w + x) * 4 + c))
    with (Z.to_nat y * (Z.to_nat w * 4) + (Z.to_nat x * 4 + Z.to_nat c))%nat.
  2:{ apply Nat2Z.inj.
      rewrite !Nat2Z.inj_add, !Nat2Z.inj_mul, !Z2Nat.id by nia. cbn. lia. }
  rewrite (lookup_bind_chunks _ (Z.to_nat w * 4)); [|apply length_row | nia].
  rewrite lookup_seqZ_lt by lia. cbn [mbind option_bind].
  rewrite (lookup_bind_chunks _ 4); [|intros; apply length_pixel_bytes | lia].
  rewrite lookup_seqZ_lt by lia. cbn [mbind option_bind].
  rewrite !Z.add_0_l, !Z2Nat.id by lia. by apply pixel_bytes_lookup.
Qed.

(** The pixel at flat index [j], as the analysis loops address it. *)
Lemma get_imageOf_flat j c :
  0 <= j < w * h -> 0 <= c < 4 ->
  get (data (imageOf w h f)) (j * 4 + c) = Some (channel (f (j mod w) (j / w)) c).
Proof.
  intros Hj Hc.
  assert (Hwpos : 0 < w) by nia.
  rewrite (Z.div_mod j w) at 1 by lia.
  replace (w * (j / w) + j mod w) with ((j / w) * w + j mod w) by lia.
  apply get_imageOf; [by apply Z.mod_pos_bound | | done].
  split; [apply Z.div_pos; lia|]. apply Z.div_lt_upper_bound; lia.
Qed.

End Canvas.

(** ** Colour variance *)

Section Colors.
Import ImageAnalyzer.

Lemma countStep_dom (key : Z -> colorKey) (l : list Z) (m : gmap colorKey Z) :
  dom (foldl (fun m i => countStep key i m) m l)
  = dom m ∪ list_to_set (key <$> l).
Proof.
  revert m. induction l as [|i l IH]; intros m; cbn [foldl fmap list_fmap].
  - set_solver.
  - rewrite IH. unfold countStep. rewrite dom_insert_L.
    rewrite list_to_set_cons. set_solver.
Qed.

Lemma calculateColorVariance_dom img :
  calculateColorVariance img =
    div (num (Z.of_nat (base.size (list_to_set
           (pixelKey (data img) <$>
              ((fun k => 0 + k * 4) <$>
                 seqZ 0 ((Z.of_nat (length (data img)) - 0 + 4 - 1) / 4)))
           : gset colorKey))))
        (num (8 * 8 * 8)).
Proof.
  unfold calculateColorVariance, for_step. cbv zeta. do 3 f_equal.
  rewrite <- size_dom.
  change (foldl _ ∅ ?l) with
    (foldl (fun (m : gmap colorKey Z) k => countStep (fun k => pixelKey (data img) (0 + k * 4)) k m) ∅ l).
  rewrite countStep_dom, dom_empty_L, (left_id_L ∅ (∪)).
  by rewrite <- list_fmap_compose.
Qed.

End Colors.
End ImageFacts.

Module ComplexityFacts.
Import JS LoopFacts ArrayFacts ImageFacts GaussFacts ImageAnalyzer.

Lemma Qle_bool_false p q : Qle_bool p q = false <-> (q < p)%Q.
Proof.
  rewrite <- not_true_iff_false, Qle_bool_iff. split.
  - apply Qnot_le_lt. - apply Qlt_not_le.
Qed.

Lemma Qdiv_nonneg a b : (0 <= a)%Q -> (0 < b)%Q -> (0 <= a / b)%Q.
Proof.
  intros Ha Hb. apply Qle_shift_div_l; [done|]. by rewrite Qmult_0_l.
Qed.

Lemma div_Fin_pos a b : 0 < b -> div (num a) (num b) = Fin (inject_Z a / inject_Z b).
Proof.
  intros Hb. unfold div, num. rewrite Qeq_bool_false_pos; [done|].
  change 0%Q with (inject_Z 0). by rewrite <- Zlt_Qlt.
Qed.

(** Clamping to [0,1] keeps bounds that lie in [0,1]. *)
Lemma clamp_Fin X :
  exists Y, min (num 1) (max (num 0) (Fin X)) = Fin Y /\
    (forall b, (X <= b)%Q -> (0 <= b)%Q -> (Y <= b)%Q) /\
    (forall a, (a <= X)%Q -> (a <= 1)%Q -> (a <= Y)%Q).
Proof.
  unfold num. cbn [max lt].
  destruct (Qle_bool X (inject_Z 0)) eqn:H0; cbn [negb min lt].
  - apply Qle_bool_iff in H0. change (inject_Z 0) with 0%Q in H0.
    change (Qle_bool (inject_Z 1) (inject_Z 0)) with false. cbn [negb].
    exists (inject_Z 0). split; [done|]. change (inject_Z 0) with 0%Q. split; intros; lra.
  - apply Qle_bool_false in H0. change (inject_Z 0) with 0%Q in H0.
    destruct (Qle_bool (inject_Z 1) X) eqn:H1; cbn [negb].
    + apply Qle_bool_iff in H1. change (inject_Z 1) with 1%Q in *.
      exists 1%Q. split; [done|]. split; intros; lra.
    + apply Qle_bool_false in H1. change (inject_Z 1) with 1%Q in *.
      exists X. split; [done|]. split; intros; lra.
Qed.

Section WithMath.
Context `{JSMath}.

(** ** Shapes of the three scores *)

Lemma calculateEdgeDensity_shape img :
  3 <= width img -> 3 <= height img ->
  exists c,
    calculateEdgeDensity img
      = Fin (inject_Z c / inject_Z ((width img - 2) * (height img - 2))) /\
    0 <= c /\
    ((forall x y, 1 <= x < width img - 1 -> 1 <= y < height img - 1 ->
        gt (sqrt (add64 (mul64 (getSobelX (data img) x y (width img))
                           (getSobelX (data img) x y (width img)))
                      (mul64 (getSobelY (data img) x y (width img))
                           (getSobelY (data img) x y (width img)))))
           (num 30) = false) ->
     c = 0).
Proof.
  intros Hw Hh. unfold calculateEdgeDensity. cbv zeta.
  set (c := for_range 1 (height img - 1) _ 0).
  exists c. split; [apply div_Fin_pos; nia|]. split.
  - subst c. apply for_range_ind; [lia|]. intros y c _ Hc.
    apply for_range_ind; [done|]. intros x c' _ Hc'. destruct (gt _ _); lia.
  - intros Hflat. subst c.
    apply for_range_ind; [done|]. intros y c Hy ->.
    apply for_range_ind; [done|]. intros x c' Hx ->. by rewrite Hflat.
Qed.

Lemma getLBPVariance_nonneg lbp : 0 <= getLBPVariance lbp.
Proof.
  unfold getLBPVariance. apply for_range_ind; [lia|].
  intros i t _ Ht. destruct (decide _); lia.
Qed.

Lemma calculateTextureComplexity_shape img :
  exists t,
    calculateTextureComplexity img = Fin t /\ (0 <= t)%Q /\
    ((forall x y, 8 <= x < width img - 8 -> 8 <= y < height img - 8 ->
        getLBPVariance (calculateLBP (data img) x y (width img)) = 0) ->
     (t == 0)%Q).
Proof.
  unfold calculateTextureComplexity. cbv zeta.
  set (st := for_step 8 (height img - 8) 8 _ (0, 0)).
  assert (Hst : 0 <= st.1 /\ 0 <= st.2 /\
            ((forall x y, 8 <= x < width img - 8 -> 8 <= y < height img - 8 ->
                getLBPVariance (calculateLBP (data img) x y (width img)) = 0) ->
             st.1 = 0)).
  { subst st.
    apply (for_step_ind (fun st => 0 <= st.1 /\ 0 <= st.2 /\ (_ -> st.1 = 0)));
      [lia | by split; [|split] |].
    intros y st Hy _ Hst.
    apply (for_step_ind (fun st => 0 <= st.1 /\ 0 <= st.2 /\ (_ -> st.1 = 0)));
      [lia | done |].
    intros x [tv sc] Hx _ (Htv & Hsc & Hflat). cbn [fst snd] in *.
    pose proof (getLBPVariance_nonneg (calculateLBP (data img) x y (width img))).
    split; [lia|]. split; [lia|]. intros Hall.
    rewrite (Hflat Hall), (Hall x y) by lia. done. }
  destruct st as [tv sc]. cbn [fst snd] in Hst. destruct Hst as (Htv & Hsc & Hflat).
  destruct (Z.ltb_spec 0 sc) as [Hpos | Hzero].
  - rewrite div_Fin_pos by done.
    change (div (Fin ?a) (num 255)) with (Fin (a / inject_Z 255)).
    eexists. split; [reflexivity|]. split.
    + apply Qdiv_nonneg; [|reflexivity]. apply Qdiv_nonneg.
      * change 0%Q with (inject_Z 0). by rewrite <- Zle_Qle.
      * change 0%Q with (inject_Z 0). by rewrite <- Zlt_Qlt.
    + intros Hall. rewrite (Hflat Hall). unfold Qdiv. by rewrite !Qmult_0_l.
  - exists (inject_Z 0). split; [done|]. split; [done|]. done.
Qed.

End WithMath.
End ComplexityFacts.

(** ** Rounding to doubles *)

Module DoubleFacts.
Import JS ComplexityFacts.

Lemma round_half_even_near q :
  (q - (1 # 2) <= inject_Z (round_half_even q) <= q + (1 # 2))%Q.
Proof.
  unfold round_half_even. cbv zeta.
  pose proof (Qfloor_le q) as Hlo. pose proof (Qlt_floor q) as Hhi.
  rewrite inject_Z_plus in Hhi. change (inject_Z 1) with 1%Q in Hhi.
  destruct (Qle_bool _ _) eqn:Hle.
  - apply Qle_bool_iff in Hle.
    destruct (Qeq_bool _ _) eqn:Heq.
    + apply Qeq_bool_iff in Heq.
      destruct (Z.even _); [lra|].
      rewrite inject_Z_plus. change (inject_Z 1) with 1%Q. lra.
    + lra.
  - apply Qle_bool_false in Hle.
    rewrite inject_Z_plus. change (inject_Z 1) with 1%Q. lra.
Qed.

Lemma exponent_le q : (Qabs q <= 2048)%Q -> exponent q <= 11.
Proof.
  intros Hq. unfold exponent. cbv zeta.
  assert (He : Z.log2 (Z.abs (Qnum q)) - Z.log2 (Z.pos (Qden q)) <= 11).
  { destruct q as [n d]. unfold Qabs, Qle in Hq. cbn [Qnum Qden] in *.
    assert (Hn : Z.abs n <= Z.pos d * 2 ^ 11) by lia.
    apply Z.log2_le_mono in Hn.
    rewrite Z.log2_mul_pow2 in Hn by lia. lia. }
  destruct (Qle_bool _ _); lia.
Qed.

(** Rounding moves a number of magnitude at most 2048 by at most 2^-42. *)
Lemma to_double_error q :
  (-2048 <= q <= 2048)%Q ->
  (q - (1 # 4398046511104) <= to_double q <= q + (1 # 4398046511104))%Q.
Proof.
  intros Hq.
  assert (Hq' : (Qabs q <= 2048)%Q) by (apply Qabs_Qle_condition; exact Hq).
  unfold to_double.
  destruct (Qeq_bool q 0) eqn:Hz.
  { apply Qeq_bool_iff in Hz. lra. }
  cbv zeta. rewrite Qred_correct.
  pose proof (exponent_le q Hq') as He.
  set (k := 52 - exponent q). assert (Hk : 41 <= k) by lia.
  assert (HP : (2 ^ 41 <= 2 ^ k)%Q) by (apply Qpower_le_compat_l; [done | lra]).
  change (2 ^ 41)%Q with 2199023255552%Q in HP.
  set (P := (2 ^ k)%Q) in *.
  pose proof (round_half_even_near (q * P)) as Hr.
  set (z := inject_Z (round_half_even (q * P))) in *.
  assert (HP0 : (0 < P)%Q) by lra.
  assert ((1 # 4398046511104) * 2199023255552 <= (1 # 4398046511104) * P)%Q
    by (apply Qmult_le_l; [done | done]).
  split.
  - apply Qle_shift_div_l; [done|]. lra.
  - apply Qle_shift_div_r; [done|]. lra.
Qed.

Lemma Qmult_bounds a A b B :
  (0 <= a <= A)%Q -> (0 <= b <= B)%Q -> (0 <= a * b <= A * B)%Q.
Proof.
  intros Ha Hb. split.
  - apply Qmult_le_0_compat; lra.
  - apply Qmult_le_compat_nonneg; done.
Qed.

Lemma Qsquare_bounds a b : (- b <= a <= b)%Q -> (0 <= a * a <= b * b)%Q.
Proof.
  intros Ha. split; [nra|]. nra.
Qed.

(** Names the roundings of a goal from the inside out, each with its
    error bound. *)
Ltac bound_doubles :=
  repeat match goal with
  | |- context [to_double ?q] =>
      lazymatch q with context [to_double _] => fail | _ => idtac end;
      let H := fresh "Hd" in
      let d := fresh "d" in
      assert (H : (q - (1 # 4398046511104) <= to_double q
                   <= q + (1 # 4398046511104))%Q)
        by (apply to_double_error; lra);
      set (d := to_double q) in *; clearbody d
  end.

(** The luminance of a byte colour. *)
Lemma grayOf_bounds u : bytePixel u -> (-1 <= grayOf u <= 300)%Q.
Proof.
  intros Hu. unfold grayOf.
  assert (Hc : forall c, 0 <= c < 3 -> (0 <= inject_Z (channel u c) <= 255)%Q).
  { intros c Hc. specialize (Hu c ltac:(lia)).
    change 0%Q with (inject_Z 0). change 255%Q with (inject_Z 255).
    rewrite <- !Zle_Qle. lia. }
  pose proof (Hc 0 ltac:(lia)) as Hr. pose proof (Hc 1 ltac:(lia)) as Hg.
  pose proof (Hc 2 ltac:(lia)) as Hb.
  set (r := inject_Z (channel u 0)) in *. set (g := inject_Z (channel u 1)) in *.
  set (b := inject_Z (channel u 2)) in *. clearbody r g b.
  assert (H1 : ((299 # 1000) - (1 # 4398046511104) <= to_double (299 # 1000)
               <= (299 # 1000) + (1 # 4398046511104))%Q)
    by (apply to_double_error; lra).
  assert (H2 : ((587 # 1000) - (1 # 4398046511104) <= to_double (587 # 1000)
               <= (587 # 1000) + (1 # 4398046511104))%Q)
    by (apply to_double_error; lra).
  assert (H3 : ((114 # 1000) - (1 # 4398046511104) <= to_double (114 # 1000)
               <= (114 # 1000) + (1 # 4398046511104))%Q)
    by (apply to_double_error; lra).
  set (c1 := to_double (299 # 1000)) in *. set (c2 := to_double (587 # 1000)) in *.
  set (c3 := to_double (114 # 1000)) in *. clearbody c1 c2 c3.
  pose proof (Qmult_bounds c1 (3 # 10) r 255 ltac:(lra) Hr) as P1.
  pose proof (Qmult_bounds c2 (6 # 10) g 255 ltac:(lra) Hg) as P2.
  pose proof (Qmult_bounds c3 (2 # 10) b 255 ltac:(lra) Hb) as P3.
  set (p1 := (c1 * r)%Q) in *. set (p2 := (c2 * g)%Q) in *.
  set (p3 := (c3 * b)%Q) in *. clearbody p1 p2 p3.
  change ((3 # 10) * 255)%Q with (765 # 10)%Q in P1.
  change ((6 # 10) * 255)%Q with (1530 # 10)%Q in P2.
  change ((2 # 10) * 255)%Q with (510 # 10)%Q in P3.
  bound_doubles. lra.
Qed.

End DoubleFacts.

(** ** Checkerboards against one-colour images *)

Module CheckerFacts.
Import JS LoopFacts ArrayFacts ImageFacts GaussFacts ImageAnalyzer ComplexityFacts.
Import DoubleFacts.

Lemma add_NaN_r a : add a NaN = NaN.
Proof. by destruct a. Qed.

Lemma div_Fin_nz a b :
  b <> 0 -> div (num a) (num b) = Fin (inject_Z a / inject_Z b).
Proof.
  intros Hb. unfold div, num.
  destruct (Qeq_bool (inject_Z b) 0) eqn:E; [|done].
  apply Qeq_bool_iff in E. unfold Qeq in E. cbn in E. lia.
Qed.

Lemma grayAt_imageOf w h f px py :
  0 <= w -> 0 <= h -> 0 <= px < w -> 0 <= py < h ->
  grayAt (data (imageOf w h f)) px py w = Fin (grayOf (f px py)).
Proof.
  intros Hw Hh Hx Hy. unfold grayAt. cbv zeta.
  replace ((py * w + px) * 4) with ((py * w + px) * 4 + 0) at 1 by lia.
  rewrite !get_imageOf by lia. by destruct (f px py) as [[[r g] b] a].
Qed.

Lemma le_Fin_refl q : le (Fin q) (Fin q) = true.
Proof. apply Qle_bool_iff, Qle_refl. Qed.

Lemma colorVariance_imageOf w h f :
  0 <= w -> 0 <= h ->
  calculateColorVariance (imageOf w h f) =
    Fin (inject_Z (Z.of_nat (base.size (list_to_set
           ((fun k => colorBucket (f (k mod w) (k / w))) <$> seqZ 0 (w * h))
           : gset colorKey))) / inject_Z 512).
Proof.
  intros Hw Hh. rewrite calculateColorVariance_dom, div_Fin_pos by lia.
  rewrite length_imageOf by done.
  replace ((4 * (w * h) - 0 + 4 - 1) / 4) with (w * h)
    by (apply Z.div_unique with 3; lia).
  rewrite <- list_fmap_compose.
  assert (Hkeys : pixelKey (data (imageOf w h f)) ∘ (fun k => 0 + k * 4) <$> seqZ 0 (w * h)
                  = (fun k => colorBucket (f (k mod w) (k / w))) <$> seqZ 0 (w * h)).
  { apply list_fmap_ext. intros i k Hk. apply lookup_seqZ in Hk as [-> Hi].
    unfold compose, pixelKey, colorBucket.
    replace (0 + (0 + Z.of_nat i) * 4) with ((0 + Z.of_nat i) * 4 + 0) by lia.
    rewrite <- !Z.add_assoc. cbn [Z.add Pos.add].
    by rewrite !get_imageOf_flat by lia. }
  by rewrite Hkeys.
Qed.

(** The edge count of an image is 0 when no pixel of the loop passes the
    test, and the density is a number unless the image is two pixels wide
    or high. *)
Lemma calculateEdgeDensity_value `{JSMath} img :
  (width img - 2) * (height img - 2) <> 0 ->
  exists e, calculateEdgeDensity img = Fin e /\ (0 <= e)%Q /\
    ((forall x y, 1 <= x < width img - 1 -> 1 <= y < height img - 1 ->
        gt (sqrt (add64 (mul64 (getSobelX (data img) x y (width img))
                               (getSobelX (data img) x y (width img)))
                        (mul64 (getSobelY (data img) x y (width img))
                               (getSobelY (data img) x y (width img)))))
           (num 30) = false) ->
     (e == 0)%Q).
Proof.
  intros Htotal. unfold calculateEdgeDensity. cbv zeta.
  set (c := for_range 1 (height img - 1) _ 0).
  assert (Hc : 0 <= c /\ (0 < c -> 3 <= width img /\ 3 <= height img)).
  { subst c. apply for_range_ind; [lia|]. intros y c Hy Hc.
    apply for_range_ind; [done|]. intros x c' Hx Hc'. destruct (gt _ _); lia. }
  rewrite div_Fin_nz by done.
  eexists. split; [reflexivity|]. split.
  - destruct (decide (c = 0)) as [-> | Hne].
    + unfold Qdiv. rewrite Qmult_0_l. apply Qle_refl.
    + apply Qdiv_nonneg.
      * change 0%Q with (inject_Z 0). rewrite <- Zle_Qle. lia.
      * change 0%Q with (inject_Z 0). rewrite <- Zlt_Qlt. nia.
  - intros Hflat.
    assert (Hz : c = 0).
    { subst c. apply for_range_ind; [done|]. intros y c Hy ->.
      apply for_range_ind; [done|]. intros x c' Hx ->. by rewrite Hflat. }
    rewrite Hz. unfold Qdiv. apply Qmult_0_l.
Qed.

Lemma calculateComplexity_degenerate `{JSMath} img :
  width img = 2 \/ height img = 2 -> calculateComplexity img = NaN.
Proof.
  intros Hdeg.
  assert (Hed : calculateEdgeDensity img = NaN).
  { unfold calculateEdgeDensity. cbv zeta.
    set (c := for_range 1 (height img - 1) _ 0).
    assert (Hc : c = 0).
    { subst c. destruct Hdeg as [Hw | Hh].
      - apply for_range_ind; [done|]. intros y c _ ->.
        by rewrite for_range_nil by lia.
      - by rewrite for_range_nil by lia. }
    rewrite Hc.
    replace ((width img - 2) * (height img - 2)) with 0 by lia. done. }
  unfold calculateComplexity. cbv zeta. rewrite Hed.
  cbn [mul]. by rewrite add_NaN_r.
Qed.

(** What the clamp to [0,1] does to a positive number. *)
Lemma clamp_pos X :
  (0 < X)%Q ->
  exists Y, min (num 1) (max (num 0) (Fin X)) = Fin Y /\
    (forall a, (a < 1)%Q -> (a < Y <-> a < X)%Q) /\
    (forall a, (a <= 1)%Q -> (a <= X -> a <= Y)%Q).
Proof.
  intros HX. unfold num. cbn [max lt].
  destruct (Qle_bool X (inject_Z 0)) eqn:H0.
  { apply Qle_bool_iff in H0. change (inject_Z 0) with 0%Q in H0. lra. }
  cbn [negb min lt].
  destruct (Qle_bool (inject_Z 1) X) eqn:H1; cbn [negb].
  - apply Qle_bool_iff in H1. change (inject_Z 1) with 1%Q in *.
    exists 1%Q. split; [done|]. split; intros a Ha; [split|]; lra.
  - exists X. split; [done|]. split; intros a Ha; [split|]; lra.
Qed.

Lemma gt_Fin_0 e : gt (Fin e) (num 0) = true <-> (0 < e)%Q.
Proof.
  unfold gt, lt, num. rewrite negb_true_iff, Qle_bool_false.
  by change (inject_Z 0) with 0%Q.
Qed.

Section WithMath.
Context `{JSMath}.
Hypothesis sqrt_le : forall q, (0 <= q <= 900)%Q -> (Math_sqrt q <= 30)%Q.

Section Uniform.
Variables (w h : Z) (u : pixel).
Hypothesis Hw : 1 <= w.
Hypothesis Hh : 1 <= h.
Hypothesis Hu : bytePixel u.

Local Abbreviation img := (uniformImage w h u).

Lemma grayAt_uniform px py :
  0 <= px < w -> 0 <= py < h -> grayAt (data img) px py w = Fin (grayOf u).
Proof. intros. unfold uniformImage. by rewrite grayAt_imageOf by lia. Qed.

(** The nine rounded terms of a Sobel sum over one colour cancel up to
    the rounding errors. *)
Lemma sobel_uniform kernel x y :
  kernel = kernelX \/ kernel = kernelY ->
  1 <= x < w - 1 -> 1 <= y < h - 1 ->
  exists E, convolve kernel (data img) x y w = Fin E /\
            (- (1 # 1000000) <= E <= 1 # 1000000)%Q.
Proof.
  intros Hk Hx Hy. unfold convolve.
  pose proof (grayOf_bounds u Hu) as HG.
  destruct Hk as [-> | ->]; cbn [zip zip_with positions kernelX kernelY foldl];
    rewrite !grayAt_uniform by lia; unfold add64, mul64, num;
    cbn [add mul double]; (eexists; split; [reflexivity|]);
    set (G := grayOf u) in *; clearbody G; unfold inject_Z;
    bound_doubles; lra.
Qed.

Lemma edges_uniform x y :
  1 <= x < w - 1 -> 1 <= y < h - 1 ->
  gt (sqrt (add64 (mul64 (getSobelX (data img) x y w) (getSobelX (data img) x y w))
                  (mul64 (getSobelY (data img) x y w) (getSobelY (data img) x y w))))
     (num 30) = false.
Proof.
  intros Hx Hy. unfold getSobelX, getSobelY.
  destruct (sobel_uniform kernelX x y) as (Ex & -> & HEx); [by left | done | done |].
  destruct (sobel_uniform kernelY x y) as (Ey & -> & HEy); [by right | done | done |].
  unfold add64, mul64. cbn [mul add double].
  pose proof (Qsquare_bounds Ex (1 # 1000000) HEx) as Hsx.
  pose proof (Qsquare_bounds Ey (1 # 1000000) HEy) as Hsy.
  set (sx := (Ex * Ex)%Q) in *. set (sy := (Ey * Ey)%Q) in *. clearbody sx sy.
  change ((1 # 1000000) * (1 # 1000000))%Q with (1 # 1000000000000)%Q in *.
  assert (Hv : exists v, to_double (to_double sx + to_double sy) = v /\ (v <= 900)%Q).
  { eexists. split; [reflexivity|]. bound_doubles. lra. }
  destruct Hv as (v & -> & Hv).
  unfold sqrt. destruct (Qle_bool 0 v) eqn:H0; [|done].
  apply Qle_bool_iff in H0.
  unfold gt, lt, num. apply negb_false_iff, Qle_bool_iff.
  change (inject_Z 30) with 30%Q. by apply sqrt_le.
Qed.

Lemma lbp_uniform x y :
  8 <= x < w - 8 -> 8 <= y < h - 8 ->
  getLBPVariance (calculateLBP (data img) x y w) = 0.
Proof.
  intros Hx Hy. unfold calculateLBP. cbv zeta.
  change (seqZ 0 8) with [0; 1; 2; 3; 4; 5; 6; 7].
  cbn [zip zip_with lbpPositions foldl].
  rewrite !grayAt_uniform by lia. unfold ge. rewrite le_Fin_refl. reflexivity.
Qed.

Lemma edgeDensity_uniform :
  w <> 2 -> h <> 2 ->
  exists e, calculateEdgeDensity img = Fin e /\ (e == 0)%Q.
Proof.
  intros Hw2 Hh2.
  destruct (calculateEdgeDensity_value img) as (e & He & _ & Hflat).
  { cbn [width height uniformImage imageOf]. nia. }
  exists e. split; [done|]. apply Hflat. intros x y Hx Hy.
  by apply edges_uniform.
Qed.

(** One bucket, no edge, no texture: the score of a one-colour image. *)
Lemma complexity_uniform :
  w <> 2 -> h <> 2 ->
  exists Y, calculateComplexity img = Fin Y /\ (Y == 1 # 1280)%Q.
Proof.
  intros Hw2 Hh2. unfold calculateComplexity. cbv zeta.
  unfold uniformImage at 1. rewrite colorVariance_imageOf by lia.
  set (S := list_to_set _ : gset colorKey).
  assert (HS : S = {[colorBucket u]}).
  { subst S. apply set_eq. intros k.
    rewrite elem_of_list_to_set, list_elem_of_fmap, elem_of_singleton. split.
    - by intros (j & -> & _).
    - intros ->. exists 0. split; [done|]. apply elem_of_seqZ. nia. }
  rewrite HS, size_singleton.
  destruct edgeDensity_uniform as (e & -> & He); [done..|].
  destruct (calculateTextureComplexity_shape img) as (t & -> & _ & Ht).
  specialize (Ht lbp_uniform). cbn [add mul].
  match goal with
  | |- context [min (num 1) (max (num 0) (Fin ?X))] =>
      assert (HX : (X == 1 # 1280)%Q)
  end.
  { rewrite He, Ht. reflexivity. }
  match goal with
  | |- context [min (num 1) (max (num 0) (Fin ?X))] =>
      destruct (clamp_pos X) as (Y & -> & Hlt & Hle); [rewrite HX; reflexivity|]
  end.
  exists Y. split; [done|]. apply Qle_antisym.
  - apply Qnot_lt_le. intros Hc. apply (Hlt (1 # 1280)%Q) in Hc; [|reflexivity].
    rewrite HX in Hc. by apply Qlt_irrefl in Hc.
  - apply Hle; [discriminate|]. rewrite HX. apply Qle_refl.
Qed.

End Uniform.

Section Checker.
Variables (w h cell : Z) (p0 p1 : pixel).
Hypothesis Hw : 1 <= w.
Hypothesis Hh : 1 <= h.
Hypothesis Hcell : 1 <= cell.
Hypothesis Hboth : cell < w \/ cell < h.

Local Abbreviation img := (checkerboard w h cell p0 p1).

(** Both colours occur, so the image has one bucket or two. *)
Lemma checkerboard_buckets :
  (list_to_set ((fun k => colorBucket (if Z.even (k mod w / cell + k / w / cell)
                                       then p0 else p1)) <$> seqZ 0 (w * h))
     : gset colorKey)
  = {[colorBucket p0]} ∪ {[colorBucket p1]}.
Proof.
  apply set_eq. intros k.
  rewrite elem_of_list_to_set, list_elem_of_fmap, elem_of_union, !elem_of_singleton.
  split.
  - intros (j & -> & _). destruct (Z.even _); auto.
  - intros [-> | ->].
    + exists 0. split; [|apply elem_of_seqZ; nia].
      rewrite Z.mod_0_l, Z.div_0_l by lia. by rewrite Z.div_0_l by lia.
    + destruct (decide (cell < w)) as [Hc | Hc].
      * exists cell. split; [|apply elem_of_seqZ; nia].
        rewrite Z.mod_small, (Z.div_small cell w) by lia.
        rewrite Z.div_same, Z.div_0_l by lia. done.
      * exists (cell * w). split; [|apply elem_of_seqZ; nia].
        rewrite Z.mod_mul, Z.div_mul by lia.
        rewrite Z.div_0_l, Z.div_same by lia. done.
Qed.

Lemma complexity_checkerboard :
  w <> 2 -> h <> 2 ->
  exists e t Y,
    calculateEdgeDensity img = Fin e /\ (0 <= e)%Q /\
    calculateTextureComplexity img = Fin t /\ (0 <= t)%Q /\
    calculateComplexity img = Fin Y /\
    (forall a, (a < 1)%Q ->
       (a < Y <->
        a < (if decide (colorBucket p0 = colorBucket p1) then 1 # 512 else 2 # 512)
              * (4 # 10) + e * (4 # 10) + t * (2 # 10))%Q) /\
    ((1 # 1280) <= Y)%Q.
Proof.
  intros Hw2 Hh2. unfold calculateComplexity. cbv zeta.
  unfold checkerboard at 3. rewrite colorVariance_imageOf by lia.
  rewrite checkerboard_buckets.
  destruct (calculateEdgeDensity_value img) as (e & -> & He & _).
  { cbn [width height checkerboard imageOf]. nia. }
  destruct (calculateTextureComplexity_shape img) as (t & -> & Ht & _).
  exists e, t. cbn [add mul].
  assert (Hk : (inject_Z (Z.of_nat (base.size
                 ({[colorBucket p0]} ∪ {[colorBucket p1]} : gset colorKey)))
               / inject_Z 512)%Q
               = ((if decide (colorBucket p0 = colorBucket p1)
                   then 1 # 1 else 2 # 1) / inject_Z 512)%Q).
  { destruct (decide _) as [-> | Hne].
    - by rewrite union_idemp_L, size_singleton.
    - rewrite size_union by set_solver. by rewrite !size_singleton. }
  rewrite Hk.
  match goal with
  | |- context [min (num 1) (max (num 0) (Fin ?X))] =>
      destruct (clamp_pos X) as (Y & -> & Hlt & Hle)
  end.
  { destruct (decide _); unfold Qdiv; change (/ inject_Z 512)%Q with (1 # 512)%Q; lra. }
  exists Y. split; [done|]. split; [done|]. split; [done|]. split; [done|].
  split; [done|]. split.
  - intros a Ha. rewrite (Hlt a Ha).
    destruct (decide _); unfold Qdiv; change (/ inject_Z 512)%Q with (1 # 512)%Q;
      split; lra.
  - apply Hle; [discriminate|].
    destruct (decide _); unfold Qdiv; change (/ inject_Z 512)%Q with (1 # 512)%Q; lra.
Qed.

End Checker.


End WithMath.
End CheckerFacts.

(** The reference square root stays at or below 30 on [0, 900]. *)
Lemma ref_sqrt_le_30 q : (0 <= q <= 900)%Q -> (ref_sqrt q <= 30)%Q.
Proof.
  intros [H0 H1]. unfold ref_sqrt.
  assert (Hf : Qfloor (q * inject_Z (2 ^ 60)) <= 900 * 2 ^ 60).
  { rewrite <- (Qfloor_Z (900 * 2 ^ 60)). apply Qfloor_resp_le.
    rewrite inject_Z_mult. apply Qmult_le_compat_r; [done | by vm_compute]. }
  assert (Hs : Z.sqrt (Qfloor (q * inject_Z (2 ^ 60))) <= Z.sqrt (900 * 2 ^ 60))
    by (by apply Z.sqrt_le_mono).
  assert (Hc : Z.sqrt (900 * 2 ^ 60) = 30 * 1073741824) by (by vm_compute).
  unfold Qle. cbn [Qnum Qden]. lia.
Qed.



(* ===================================================================== *)
(** * Part III.  Further properties of the code                           *)
(* ===================================================================== *)

(** ** The image analyser *)

Module AnalyzerFacts.
Import JS LoopFacts ArrayFacts ImageFacts GaussFacts ImageAnalyzer ComplexityFacts.
Import CheckerFacts BackgroundRemovalApp.

(** Clamping a finite number to [0,1]. *)
Lemma clamp_unit X :
  exists Y, min (num 1) (max (num 0) (Fin X)) = Fin Y /\ (0 <= Y <= 1)%Q.
Proof.
  unfold num. cbn [max lt].
  destruct (Qle_bool X (inject_Z 0)) eqn:H0; cbn [negb min lt].
  - change (Qle_bool (inject_Z 1) (inject_Z 0)) with false. cbn [negb].
    exists (inject_Z 0). split; [done|]. change (inject_Z 0) with 0%Q. lra.
  - apply Qle_bool_false in H0. change (inject_Z 0) with 0%Q in H0.
    destruct (Qle_bool (inject_Z 1) X) eqn:H1; cbn [negb].
    + exists 1%Q. split; [done|]. lra.
    + apply Qle_bool_false in H1. change (inject_Z 1) with 1%Q in *.
      exists X. split; [done|]. lra.
Qed.

Lemma calculateColorVariance_Fin img :
  exists q, calculateColorVariance img = Fin q /\ (0 <= q)%Q.
Proof.
  rewrite calculateColorVariance_dom, div_Fin_pos by lia.
  eexists. split; [reflexivity|]. apply Qdiv_nonneg; [|reflexivity].
  change 0%Q with (inject_Z 0). rewrite <- Zle_Qle. lia.
Qed.

Lemma getLBPVariance_le lbp : getLBPVariance lbp <= 8.
Proof.
  unfold getLBPVariance.
  apply (for_range_ind_idx (fun i t => t <= i)); [lia | lia |].
  intros i t _ Ht. destruct (decide _); lia.
Qed.

Lemma lor_bit_range v i : 0 <= v < 256 -> 0 <= i < 8 -> 0 <= Z.lor v (Z.shiftl 1 i) < 256.
Proof.
  intros Hv Hi.
  assert (Hb : 0 <= Z.shiftl 1 i < 256).
  { rewrite Z.shiftl_1_l. split; [apply Z.pow_nonneg; lia|].
    change 256 with (2 ^ 8). apply Z.pow_lt_mono_r; lia. }
  split; [apply Z.lor_nonneg; lia|].
  destruct (decide (Z.lor v (Z.shiftl 1 i) = 0)) as [-> | Hnz]; [lia|].
  assert (Hpos : 0 < Z.lor v (Z.shiftl 1 i)).
  { assert (0 <= Z.lor v (Z.shiftl 1 i)) by (apply Z.lor_nonneg; lia). lia. }
  change 256 with (2 ^ 8). apply Z.log2_lt_pow2; [done|].
  rewrite Z.log2_lor by lia.
  apply Z.max_lub_lt.
  - destruct (decide (v = 0)) as [-> | ?]; [done|].
    apply Z.log2_lt_pow2; lia.
  - apply Z.log2_lt_pow2; [|lia]. rewrite Z.shiftl_1_l. apply Z.pow_pos_nonneg; lia.
Qed.

Lemma getLBPVariance_table :
  forallb (fun v => Z.even (getLBPVariance v) &&
                    bool_decide (getLBPVariance v = 0 <-> v = 0 \/ v = 255))
          (seqZ 0 256) = true.
Proof. by vm_compute. Qed.

Section WithMath.
Context `{JSMath}.

(** Extra X1.  On a single-colour image of at least 3x3 byte pixels the
    two Sobel sums of every interior pixel are numbers within one millionth
    of 0 (the roundings of the nine terms need not cancel exactly), so no
    gradient exceeds the threshold 30 and the edge density is 0.
    [Math.sqrt] is only assumed to stay at or below 30 on [0, 900]. *)
Theorem edge_density_of_uniform_image (w h : Z) (u : pixel) :
  (forall q, (0 <= q <= 900)%Q -> (Math_sqrt q <= 30)%Q) ->
  3 <= w -> 3 <= h -> bytePixel u ->
  (forall x y, 1 <= x < w - 1 -> 1 <= y < h - 1 ->
     exists gx gy,
       getSobelX (data (uniformImage w h u)) x y w = Fin gx /\
       getSobelY (data (uniformImage w h u)) x y w = Fin gy /\
       (- (1 # 1000000) <= gx <= 1 # 1000000)%Q /\
       (- (1 # 1000000) <= gy <= 1 # 1000000)%Q) /\
  eq (calculateEdgeDensity (uniformImage w h u)) (num 0) = true.
Proof.
  intros sqrt_le Hw Hh Hu. split.
  - intros x y Hx Hy.
    destruct (sobel_uniform w h u ltac:(lia) ltac:(lia) Hu kernelX x y)
      as (gx & Hgx & Hbx); [by left | done | done |].
    destruct (sobel_uniform w h u ltac:(lia) ltac:(lia) Hu kernelY x y)
      as (gy & Hgy & Hby); [by right | done | done |].
    by exists gx, gy.
  - destruct (edgeDensity_uniform sqrt_le w h u) as (e & -> & He); [lia..| done | lia | lia |].
    unfold eq, num. by apply Qeq_bool_iff.
Qed.

(** Extra X2.  An image exactly two pixels wide or two pixels high has no
    interior: the edge density is 0/0, so the complexity score is [NaN], and
    with such a score the recommendation is never the precise tier. *)
Theorem degenerate_image_scores_NaN (img : ImageData) (human : bool) (cv ed : jsnum) :
  width img = 2 \/ height img = 2 ->
  calculateEdgeDensity img = NaN /\
  calculateComplexity img = NaN /\
  getRecommendedMode (mkAnalysis human (calculateComplexity img) cv ed)
    = (if human then balanced else fast).
Proof.
  intros Hdeg.
  assert (Hed : calculateEdgeDensity img = NaN).
  { unfold calculateEdgeDensity. cbv zeta.
    assert (Hc : for_range 1 (height img - 1) (fun y =>
              for_range 1 (width img - 1) (fun x edgeCount =>
                if gt (sqrt (add64 (mul64 (getSobelX (data img) x y (width img))
                                      (getSobelX (data img) x y (width img)))
                                 (mul64 (getSobelY (data img) x y (width img))
                                      (getSobelY (data img) x y (width img)))))
                      (num 30)
                then edgeCount + 1 else edgeCount)) 0 = 0).
    { destruct Hdeg as [Hw | Hh].
      - apply for_range_ind; [done|]. intros y c _ ->.
        by rewrite for_range_nil by lia.
      - by rewrite for_range_nil by lia. }
    rewrite Hc.
    replace ((width img - 2) * (height img - 2)) with 0 by lia. done. }
  assert (Hcx : calculateComplexity img = NaN).
  { unfold calculateComplexity. cbv zeta. rewrite Hed.
    cbn [mul]. by rewrite add_NaN_r. }
  split; [done|]. split; [done|].
  rewrite Hcx. unfold getRecommendedMode. cbn. rewrite andb_false_r, orb_false_r.
  done.
Qed.

(** Extra X3.  For every image that is not two pixels wide or high, whatever
    its pixels, the complexity score is a number between 0 and 1. *)
Theorem complexity_in_unit_interval (img : ImageData) :
  width img <> 2 -> height img <> 2 ->
  exists Y, calculateComplexity img = Fin Y /\ (0 <= Y <= 1)%Q.
Proof.
  intros Hw Hh. unfold calculateComplexity. cbv zeta.
  destruct (calculateColorVariance_Fin img) as (cv & -> & _).
  destruct (calculateTextureComplexity_shape img) as (t & -> & _ & _).
  assert (Hed : exists e, calculateEdgeDensity img = Fin e).
  { unfold calculateEdgeDensity. cbv zeta. rewrite div_Fin_nz by nia. by eexists. }
  destruct Hed as (e & ->). cbn [add mul]. apply clamp_unit.
Qed.

(** Extra X4.  The texture score of any image is a number between 0 and
    8/255: each sampled LBP code has at most 8 transitions, and the mean is
    divided by 255. *)
Theorem texture_complexity_bounded (img : ImageData) :
  exists t, calculateTextureComplexity img = Fin t /\ (0 <= t <= 8 # 255)%Q.
Proof.
  unfold calculateTextureComplexity. cbv zeta.
  set (st := for_step 8 (height img - 8) 8 _ (0, 0)).
  assert (Hst : 0 <= st.1 <= 8 * st.2).
  { subst st.
    apply (for_step_ind (fun st => 0 <= st.1 <= 8 * st.2)); [lia | done |].
    intros y st _ _ Hst.
    apply (for_step_ind (fun st => 0 <= st.1 <= 8 * st.2)); [lia | done |].
    intros x [tv sc] _ _ Htv. cbn [fst snd] in *.
    pose proof (getLBPVariance_nonneg (calculateLBP (data img) x y (width img))).
    pose proof (getLBPVariance_le (calculateLBP (data img) x y (width img))).
    lia. }
  destruct st as [tv sc]. cbn [fst snd] in Hst.
  destruct (Z.ltb_spec 0 sc) as [Hpos | Hzero].
  - rewrite div_Fin_pos by done.
    change (div (Fin ?a) (num 255)) with (Fin (a / inject_Z 255)).
    eexists. split; [reflexivity|].
    assert (Hsc : (0 < inject_Z sc)%Q)
      by (change 0%Q with (inject_Z 0); by rewrite <- Zlt_Qlt).
    assert (Hq : (0 <= inject_Z tv / inject_Z sc <= 8)%Q).
    { split.
      - apply Qdiv_nonneg; [|done]. change 0%Q with (inject_Z 0).
        rewrite <- Zle_Qle. lia.
      - apply Qle_shift_div_r; [done|]. change 8%Q with (inject_Z 8).
        rewrite <- inject_Z_mult, <- Zle_Qle. lia. }
    unfold Qdiv at 1 3. change (/ inject_Z 255)%Q with (1 # 255)%Q. lra.
  - exists (inject_Z 0). split; [done|]. split; discriminate.
Qed.

(** Extra X5.  The local binary pattern of a pixel is a byte, whatever the
    image and the position; the number of transitions of its circular
    8-digit form is even and at most 8, and it is 0 only for the two
    constant patterns. *)
Theorem lbp_code_and_transitions (pixels : list Z) (x y width : Z) :
  let lbp := calculateLBP pixels x y width in
  0 <= lbp < 256 /\
  Z.even (getLBPVariance lbp) = true /\
  0 <= getLBPVariance lbp <= 8 /\
  (getLBPVariance lbp = 0 <-> lbp = 0 \/ lbp = 255).
Proof.
  intros lbp.
  assert (Hr : 0 <= lbp < 256).
  { subst lbp. unfold calculateLBP. cbv zeta.
    apply (foldl_inv (fun v => 0 <= v < 256)); [lia|].
    intros v [i [dx dy]] Hin Hv.
    assert (Hi : 0 <= i < 8).
    { apply elem_of_zip_l in Hin. apply elem_of_seqZ in Hin. lia. }
    destruct (ge _ _); [by apply lor_bit_range | done]. }
  split; [done|].
  pose proof getLBPVariance_table as Ht.
  rewrite forallb_forall in Ht.
  specialize (Ht lbp).
  assert (Hin : In lbp (seqZ 0 256)).
  { apply list_elem_of_In, elem_of_seqZ. lia. }
  apply Ht, andb_prop in Hin as [Hev Hz]. apply bool_decide_eq_true in Hz.
  split; [done|]. split; [|done].
  split; [apply getLBPVariance_nonneg | apply getLBPVariance_le].
Qed.

(** Extra X6.  The two rules of the skin classifier never hold together,
    for any three numbers ([NaN] included), and every colour classified as
    skin has more red than blue, red above 95 and blue above 20. *)
Theorem skin_rules_are_disjoint (r g b : jsnum) :
  chromaticSkin r g b && paleSkin r g b = false /\
  (isSkinColor r g b = true ->
   gt r b = true /\ gt r (num 95) = true /\ gt b (num 20) = true).
Proof.
  split.
  - unfold chromaticSkin, paleSkin.
    destruct (gt (abs (sub r g)) (num 15)) eqn:Hgt;
      [|by rewrite !andb_false_r].
    assert (Hle : le (abs (sub r g)) (num 15) = false).
    { revert Hgt. unfold gt, lt, le, num. destruct (abs (sub r g)); try done.
      by intros ->%negb_true_iff. }
    rewrite Hle. by rewrite !andb_false_r.
  - unfold isSkinColor, chromaticSkin, paleSkin. intros Hs.
    apply orb_prop in Hs as [Hs | Hs].
    + repeat (apply andb_prop in Hs as [Hs ?]). done.
    + repeat (apply andb_prop in Hs as [Hs ?]).
      split; [done|].
      assert (Hq : forall q x y, x < y -> gt (Fin q) (num y) = true -> gt (Fin q) (num x) = true).
      { intros q x0 y0 Hxy. unfold gt, lt, num.
        rewrite !negb_true_iff, !Qle_bool_false. intros Hy.
        apply Qlt_trans with (inject_Z y0); [|done]. by rewrite <- Zlt_Qlt. }
      split.
      * destruct r; try done. by apply Hq with 220.
      * destruct b; try done. by apply Hq with 170.
Qed.

End WithMath.
End AnalyzerFacts.

(** ** The fast tier: what noise removal and the edge map never do *)

Module CanvasFacts.
Import JS LoopFacts ArrayFacts WriteFacts CanvasProcessor NoiseFacts.

(** After a list of stores an entry is the old one or a stored one. *)
Lemma get_apply_writes_cases ws a j :
  get (apply_writes ws a) j = get a j \/
  exists v, (j, v) ∈ ws /\ get (apply_writes ws a) j = Some v.
Proof.
  induction ws as [|[i u] ws IH] using rev_ind; [by left|].
  rewrite apply_writes_app. cbn.
  destruct (decide (i = j)) as [-> | Hne].
  - destruct (decide (0 <= j < Z.of_nat (length a))) as [Hin | Hout].
    + right. exists u. split; [apply elem_of_app; right; by left|].
      apply get_set_eq. by rewrite length_apply_writes.
    + left. rewrite !get_None; [done | done |].
      by rewrite length_set, length_apply_writes.
  - rewrite get_set_ne by done.
    destruct IH as [IH | (v & Hv & IH)]; [by left|].
    right. exists v. split; [apply elem_of_app; by left | done].
Qed.

Lemma erode_write_at orig w h j v :
  (j, v) ∈ (seqZ 1 (h - 1 - 1) ≫= fun y =>
            seqZ 1 (w - 1 - 1) ≫= fun x => erodeStores orig w x y) ->
  v = 0 /\ exists x y, 1 <= x < w - 1 /\ 1 <= y < h - 1 /\ j = (y * w + x) * 4 + 3.
Proof.
  intros Hv. apply elem_of_writes2 in Hv as (x & y & Hy & Hx & Hv).
  unfold erodeStores in Hv.
  destruct (fgAt orig w x y && _); [|by apply elem_of_nil in Hv].
  apply list_elem_of_singleton in Hv. injection Hv as -> ->.
  split; [done|]. exists x, y. repeat split; lia.
Qed.

Lemma dilate_write_at orig eroded w h j v :
  (j, v) ∈ (seqZ 1 (h - 1 - 1) ≫= fun y =>
            seqZ 1 (w - 1 - 1) ≫= fun x => dilateStores orig eroded w x y) ->
  v = restored orig j /\
  exists x y c, 1 <= x < w - 1 /\ 1 <= y < h - 1 /\ 0 <= c < 4 /\
                j = (y * w + x) * 4 + c.
Proof.
  intros Hv. apply elem_of_writes2 in Hv as (x & y & Hy & Hx & Hv).
  unfold dilateStores in Hv.
  destruct (eq (of_read (alphaAt eroded w x y)) _ && _);
    [|by apply elem_of_nil in Hv].
  assert (Hc : v = restored orig j /\ exists c, 0 <= c < 4 /\ j = (y * w + x) * 4 + c).
  { repeat (apply elem_of_cons in Hv as [Hv|Hv];
            [injection Hv as -> ->; split; [done|]; eexists; split;
               [|try reflexivity; symmetry; apply Z.add_0_r]; lia|]).
    by apply elem_of_nil in Hv. }
  destruct Hc as (-> & c & Hc & ->). split; [done|].
  exists x, y, c. repeat split; lia.
Qed.

Lemma Forall_set (P : Z -> Prop) a i v : Forall P a -> P v -> Forall P (set a i v).
Proof.
  unfold set. intros Ha Hv. destruct (decide _); [|done]. by apply Forall_insert.
Qed.

(** Each entry after noise removal: the entry before, or an alpha entry
    of an interior pixel set to 0. *)
Lemma removeNoise_cases img j :
  bytes (data img) ->
  get (data (removeNoise img)) j = get (data img) j \/
  (get (data (removeNoise img)) j = Some 0 /\
   exists x y, 1 <= x < width img - 1 /\ 1 <= y < height img - 1 /\
               j = (y * width img + x) * 4 + 3).
Proof.
  intros Hb. unfold removeNoise. cbn [data].
  set (orig := data img). set (w := width img). set (h := height img).
  set (er := erode orig w h orig).
  assert (Hlen : length er = length orig).
  { subst er. rewrite erode_writes. apply length_apply_writes. }
  assert (Her : get er j = get orig j \/
            (get er j = Some 0 /\
             exists x y, 1 <= x < w - 1 /\ 1 <= y < h - 1 /\ j = (y * w + x) * 4 + 3)).
  { subst er. rewrite erode_writes.
    destruct (get_apply_writes_cases
      (seqZ 1 (h - 1 - 1) ≫= fun y => seqZ 1 (w - 1 - 1) ≫= fun x =>
         erodeStores orig w x y) orig j) as [Hk | (v & Hv & Hk)]; [by left|].
    apply erode_write_at in Hv as (-> & Hat). by right. }
  rewrite dilate_writes.
  destruct (get_apply_writes_cases
    (seqZ 1 (h - 1 - 1) ≫= fun y => seqZ 1 (w - 1 - 1) ≫= fun x =>
       dilateStores orig er w x y) er j) as [-> | (v & Hv & Hk)]; [done|].
  apply dilate_write_at in Hv as (-> & _). left.
  rewrite Hk. apply get_Some in Hk.
  rewrite length_apply_writes, Hlen in Hk.
  destruct (get_is_Some orig j Hk) as [v0 Hv0]. rewrite Hv0. f_equal.
  unfold restored. rewrite Hv0. cbn [of_read].
  apply toUint8Clamped_byte. by eapply get_bytes.
Qed.

(** Extra X7.  Noise removal never invents opacity: every entry of its
    output is the entry of its input, or an alpha entry set to 0; and a pixel
    that is not strictly inside the image (first or last row or column)
    keeps all four channels. *)
Theorem removeNoise_clears_or_keeps (img : ImageData) :
  bytes (data img) ->
  let out := data (removeNoise img) in
  (forall j, get out j = get (data img) j \/ (j mod 4 = 3 /\ get out j = Some 0)) /\
  (forall x y c,
     0 <= x < width img -> 0 <= c < 4 ->
     ~ (1 <= x < width img - 1 /\ 1 <= y < height img - 1) ->
     get out ((y * width img + x) * 4 + c)
       = get (data img) ((y * width img + x) * 4 + c)).
Proof.
  intros Hb out. subst out. split.
  - intros j. destruct (removeNoise_cases img j Hb) as [-> | (-> & x & y & _ & _ & ->)];
      [by left|]. right. split; [apply FrameFacts.alpha_index_mod | done].
  - intros x y c Hx Hc Hborder.
    destruct (removeNoise_cases img ((y * width img + x) * 4 + c) Hb)
      as [-> | (_ & x' & y' & Hx' & Hy' & Heq)]; [done|].
    apply pixel_index_inj in Heq as (-> & -> & _); [|lia..].
    exfalso. by apply Hborder.
Qed.

Section WithMath.
Context `{JSMath}.

(** Extra X8.  The edge map has one entry for each pixel, each 0 or 255,
    and every pixel of the first or last row or column is 0: the border is
    never an edge. *)
Theorem createEdgeMap_shape (img : ImageData) :
  let m := createEdgeMap img in
  length m = Z.to_nat (width img * height img) /\
  Forall (fun v => v = 0 \/ v = 255) m /\
  (forall x y,
     0 <= x < width img -> 0 <= y < height img ->
     ~ (1 <= x < width img - 1 /\ 1 <= y < height img - 1) ->
     get m (y * width img + x) = Some 0).
Proof.
  intros m. subst m. unfold createEdgeMap. cbv zeta.
  set (w := width img). set (h := height img).
  apply (for_range_ind (fun m =>
    length m = Z.to_nat (w * h) /\ Forall (fun v => v = 0 \/ v = 255) m /\
    (forall x y, 0 <= x < w -> 0 <= y < h ->
       ~ (1 <= x < w - 1 /\ 1 <= y < h - 1) -> get m (y * w + x) = Some 0))).
  - unfold new_array. split; [apply length_replicate|]. split.
    + apply Forall_replicate. by left.
    + intros x y Hx Hy _. unfold get. rewrite decide_True by nia.
      apply lookup_replicate_2. nia.
  - intros y m Hy Hm.
    apply for_range_ind; [done|]. intros x m' Hx (Hlen & Hall & Hborder).
    split; [by rewrite length_set|]. split.
    + apply Forall_set; [done|]. destruct (gt _ _); auto.
    + intros x' y' Hx' Hy' Hout. rewrite get_set_ne; [by apply Hborder|].
      intros Heq.
      assert (Heq' : (y * w + x) * 4 + 0 = (y' * w + x') * 4 + 0) by lia.
      apply pixel_index_inj in Heq' as (-> & -> & _); [|lia..].
      by apply Hout.
Qed.

End WithMath.
End CanvasFacts.

(** ** Flood fill on its own *)

Module FloodFillFacts.
Import JS TensorFlowProcessor.

(** Extra X9.  On a buffer that holds an alpha entry for every pixel of the
    mask, started on a foreground pixel that is not yet visited, with a
    visited set made of whole components, [floodFill] ends and returns the
    indices of the pixels 4-connected to the start, each once, the start
    among them, and adds exactly these to the visited set. *)
Theorem floodFill_returns_component (data : list Z) (w h : Z) (V0 : gset Z) (x y : Z) :
  4 * (w * h) <= Z.of_nat (length data) ->
  closedSet data w h V0 -> indexSet w h V0 ->
  fgPixel data w h (x, y) -> pixelIndex w (x, y) ∉ V0 ->
  exists C,
    floodFill data V0 x y w h = Some (V0 ∪ list_to_set C, C) /\
    NoDup C /\ pixelIndex w (x, y) ∈ C /\
    (forall i, i ∈ C <->
       exists q, pixelIndex w q = i /\ connected4 data w h (x, y) q).
Proof.
  intros Hbuffer Hclosed Hrange Hfg Hfresh.
  destruct (FloodFacts.floodFill_spec data w h Hbuffer V0 x y Hclosed Hrange Hfg Hfresh)
    as (V' & C & Hrun & -> & Hnd & Hiff & _).
  exists C. split; [done|]. split; [done|]. split; [|done].
  apply Hiff. exists (x, y). split; [done|]. apply rtc_refl.
Qed.

End FloodFillFacts.

(** [floodFill_returns_component] from the corner of the opaque 3x3 mask. *)
Lemma floodFill_returns_component_witness :
  exists C,
    TensorFlowProcessor.floodFill (data opaque3) ∅ 0 0 3 3
      = Some (∅ ∪ list_to_set C, C) /\
    NoDup C /\ pixelIndex 3 (0, 0) ∈ C /\
    (forall i, i ∈ C <->
       exists q, pixelIndex 3 q = i /\ connected4 (data opaque3) 3 3 (0, 0) q).
Proof.
  apply FloodFillFacts.floodFill_returns_component.
  - by vm_compute.
  - intros p q _ Hp. by apply elem_of_empty in Hp.
  - intros i Hi. by apply elem_of_empty in Hi.
  - split; [unfold inImage; cbn [fst snd]; lia | by vm_compute].
  - apply not_elem_of_empty.
Defined.

(** ** Applying the mask *)

Module MaskFacts.
Import JS LoopFacts ArrayFacts WriteFacts MediaPipeMask ComplexityFacts.

Lemma get_set_fmap a i v : get (set a i v) i = (fun _ => v) <$> get a i.
Proof.
  destruct (decide (0 <= i < Z.of_nat (length a))) as [Hin | Hout].
  - rewrite get_set_eq by done. by destruct (get_is_Some a i Hin) as [u ->].
  - rewrite !get_None; [done | done | by rewrite length_set].
Qed.

Lemma for_step_as_range {S : Type} hi step (body : Z -> S -> S) s :
  for_step 0 hi step body s
  = for_range 0 ((hi - 0 + step - 1) / step) (fun k => body (0 + k * step)) s.
Proof. unfold for_step, for_range. by rewrite (Z.sub_0_r (_ / _)). Qed.

(** The softening factor is one of five constants, all in [0,1]. *)
Lemma calculateEdgeSoftening_values i maskData w h :
  exists f, calculateEdgeSoftening i maskData w h = Fin f /\ (0 <= f <= 1)%Q.
Proof.
  unfold calculateEdgeSoftening. cbv zeta.
  destruct (for_range _ _ _ _) as [fc tc].
  repeat (destruct (gt _ _); [eexists; split; [reflexivity|]; split; by vm_compute|]).
  eexists; split; [reflexivity|]; split; by vm_compute.
Qed.

(** Rounding never exceeds an integer bound. *)
Lemma round_half_even_le q a : (q <= inject_Z a)%Q -> round_half_even q <= a.
Proof.
  intros Hq. unfold round_half_even. cbv zeta.
  pose proof (Qfloor_le q) as Hfl.
  assert (Hf : Qfloor q <= a).
  { rewrite Zle_Qle. by apply Qle_trans with q. }
  assert (Hup : (inject_Z (Qfloor q) < q)%Q -> Qfloor q + 1 <= a).
  { intros Hlt. assert (Hlt' : (inject_Z (Qfloor q) < inject_Z a)%Q)
      by (by apply Qlt_le_trans with q).
    rewrite <- Zlt_Qlt in Hlt'. lia. }
  destruct (Qle_bool _ _) eqn:Hle.
  - destruct (Qeq_bool _ _) eqn:Heq; [|done].
    destruct (Z.even _); [done|]. apply Hup.
    apply Qeq_bool_iff in Heq. lra.
  - apply Hup. apply Qle_bool_false in Hle. lra.
Qed.

Lemma round_half_even_nonneg q : (0 <= q)%Q -> 0 <= round_half_even q.
Proof.
  intros Hq. unfold round_half_even. cbv zeta.
  assert (Hf : 0 <= Qfloor q).
  { change 0 with (Qfloor 0). by apply Qfloor_resp_le. }
  destruct (Qle_bool _ _); [|lia].
  destruct (Qeq_bool _ _); [|done]. destruct (Z.even _); lia.
Qed.

(** Rounding a rational that is an integer. *)
Lemma round_half_even_int q z : (q == inject_Z z)%Q -> round_half_even q = z.
Proof.
  intros Hq. unfold round_half_even. cbv zeta.
  assert (Hf : Qfloor q = z) by (by rewrite Hq, Qfloor_Z).
  rewrite Hf.
  destruct (Qle_bool _ _) eqn:Hle.
  - destruct (Qeq_bool _ _) eqn:Heq; [|done].
    apply Qeq_bool_iff in Heq. lra.
  - apply Qle_bool_false in Hle. lra.
Qed.

Lemma maskedAlpha_le maskData w h i a :
  0 <= a <= 255 -> 0 <= maskedAlpha maskData w h i a <= a.
Proof.
  intros Ha. unfold maskedAlpha. destruct (lt _ _); [lia|].
  destruct (calculateEdgeSoftening_values i maskData w h) as (f & -> & Hf).
  assert (Ha0 : (0 <= inject_Z a)%Q)
    by (change 0%Q with (inject_Z 0); rewrite <- Zle_Qle; lia).
  assert (Hprod : (0 <= inject_Z a * f <= inject_Z a)%Q).
  { split; [apply Qmult_le_0_compat; [done | apply Hf]|].
    assert (Hle : (f * inject_Z a <= 1 * inject_Z a)%Q)
      by (apply Qmult_le_compat_r; [apply Hf | done]).
    rewrite Qmult_1_l in Hle. by rewrite Qmult_comm. }
  unfold num. cbn [mul min lt].
  destruct (Qle_bool (inject_Z 255) (inject_Z a * f)) eqn:Hbig; cbn [negb].
  - apply Qle_bool_iff in Hbig. cbn [toUint8Clamped].
    rewrite round_half_even_Z. unfold clamp8.
    assert (H255 : (inject_Z 255 <= inject_Z a)%Q) by lra.
    rewrite <- Zle_Qle in H255. lia.
  - cbn [toUint8Clamped]. unfold clamp8.
    pose proof (round_half_even_le (inject_Z a * f) a (proj2 Hprod)).
    pose proof (round_half_even_nonneg (inject_Z a * f) (proj1 Hprod)). lia.
Qed.

(** The loop, pixel by pixel: alpha entries are rewritten from their own
    old value, everything else is kept. *)
Lemma applyMask_pointwise maskData w h orig :
  let out := applyMask maskData w h orig in
  length out = length orig /\
  (forall j, j mod 4 <> 3 -> get out j = get orig j) /\
  (forall p, 0 <= p ->
     get out (p * 4 + 3) = maskedAlpha maskData w h (p * 4) <$> get orig (p * 4 + 3)).
Proof.
  intros out. subst out. unfold applyMask.
  rewrite for_step_as_range.
  set (n := (Z.of_nat (length orig) - 0 + 4 - 1) / 4).
  assert (Hn : 0 <= n) by (subst n; apply Z.div_pos; lia).
  assert (Hinv :
    (fun k d =>
       length d = length orig /\
       (forall j, j mod 4 <> 3 -> get d j = get orig j) /\
       (forall p, k <= p -> get d (p * 4 + 3) = get orig (p * 4 + 3)) /\
       (forall p, 0 <= p < k ->
          get d (p * 4 + 3) = maskedAlpha maskData w h (p * 4) <$> get orig (p * 4 + 3)))
      n (for_range 0 n (fun k d =>
           if lt (of_read (get maskData (0 + k * 4))) (num 128)
           then set d (0 + k * 4 + 3) 0
           else store d (0 + k * 4 + 3)
                  (min (num 255)
                     (mul (of_read (get d (0 + k * 4 + 3)))
                          (calculateEdgeSoftening (0 + k * 4) maskData w h)))) orig)).
  { apply for_range_ind_idx; [done | |].
    - split; [done|]. split; [done|]. split; [done|]. intros p Hp. lia.
    - intros k d Hk (Hlen & Hrgb & Hrest & Hdone).
      replace (0 + k * 4) with (k * 4) by lia.
      set (v := if lt (of_read (get maskData (k * 4))) (num 128) then 0
                else toUint8Clamped
                       (min (num 255)
                          (mul (of_read (get d (k * 4 + 3)))
                               (calculateEdgeSoftening (k * 4) maskData w h)))).
      assert (Hbody : (if lt (of_read (get maskData (k * 4))) (num 128)
                       then set d (k * 4 + 3) 0
                       else store d (k * 4 + 3)
                              (min (num 255)
                                 (mul (of_read (get d (k * 4 + 3)))
                                      (calculateEdgeSoftening (k * 4) maskData w h))))
                      = set d (k * 4 + 3) v).
      { subst v. unfold store. by destruct (lt _ _). }
      rewrite Hbody. split; [by rewrite length_set|]. split; [|split].
      + intros j Hj. rewrite get_set_ne; [by apply Hrgb|].
        intros <-. by rewrite FrameFacts.alpha_index_mod in Hj.
      + intros p Hp. rewrite get_set_ne by lia. apply Hrest. lia.
      + intros p Hp. destruct (decide (p = k)) as [-> | Hne].
        * rewrite get_set_fmap, (Hrest k) by lia.
          subst v. rewrite (Hrest k) by lia. unfold maskedAlpha.
          by destruct (get orig (k * 4 + 3)).
        * rewrite get_set_ne by lia. apply Hdone. lia. }
  cbv beta in Hinv. destruct Hinv as (Hlen & Hrgb & Hrest & Hdone).
  split; [done|]. split; [done|]. intros p Hp.
  destruct (decide (p < n)) as [Hlt | Hge]; [apply Hdone; lia|].
  rewrite Hrest by lia.
  rewrite (get_None orig); [done|]. subst n.
  assert ((Z.of_nat (length orig) - 0 + 4 - 1) / 4 * 4
          >= Z.of_nat (length orig) - 0 + 4 - 1 - 3).
  { pose proof (Z.div_mod (Z.of_nat (length orig) - 0 + 4 - 1) 4).
    pose proof (Z.mod_pos_bound (Z.of_nat (length orig) - 0 + 4 - 1) 4). lia. }
  lia.
Qed.

(** Extra X10.  Writing the mask into the alpha channel never raises the
    alpha of a pixel, makes every pixel whose mask value is below 128 fully
    transparent, keeps the size of the buffer and keeps R, G and B. *)
Theorem applyMask_never_raises_alpha (maskData : list Z) (w h : Z) (data : list Z) :
  bytes data ->
  let out := applyMask maskData w h data in
  length out = length data /\
  (forall j, j mod 4 <> 3 -> get out j = get data j) /\
  (forall p a, 0 <= p -> get data (p * 4 + 3) = Some a ->
     exists a', get out (p * 4 + 3) = Some a' /\ 0 <= a' <= a /\
       (lt (of_read (get maskData (p * 4))) (num 128) = true -> a' = 0)).
Proof.
  intros Hb out. subst out.
  destruct (applyMask_pointwise maskData w h data) as (Hlen & Hrgb & Halpha).
  split; [done|]. split; [done|]. intros p a Hp Ha.
  rewrite Halpha, Ha by done. cbn [fmap option_fmap option_map].
  eexists. split; [reflexivity|]. split.
  - apply maskedAlpha_le. by eapply get_bytes.
  - intros Hbg. unfold maskedAlpha. by rewrite Hbg.
Qed.

(** With a mask that is foreground on the whole image the window of a pixel
    of the image counts only foreground, and at least the pixel itself. *)
Lemma calculateEdgeSoftening_foreground maskData w h x y :
  foregroundMask maskData w h -> 0 <= x < w -> 0 <= y < h ->
  calculateEdgeSoftening ((y * w + x) * 4) maskData w h = Fin 1.
Proof.
  intros Hmask Hx Hy. unfold calculateEdgeSoftening. cbv zeta.
  rewrite Z.div_mul by lia.
  assert (Hxm : (y * w + x) mod w = x).
  { rewrite Z.add_comm, Z.mod_add by lia. apply Z.mod_small. lia. }
  assert (Hym : (y * w + x) / w = y).
  { rewrite Z.add_comm, Z.div_add by lia. rewrite Z.div_small by lia. lia. }
  rewrite Hxm, Hym.
  set (st := for_range _ _ _ _).
  assert (Hst : st.1 = st.2 /\ 1 <= st.2).
  { assert (Hidx : (fun dy (st : Z * Z) =>
                      st.1 = st.2 /\ 0 <= st.2 /\ (0 < dy -> 1 <= st.2)) (2 + 1) st).
    { subst st. apply for_range_ind_idx; [lia | by split; [|split; [|lia]] |].
      intros dy st Hdy (Heq & Hnn & Hpos).
      assert (Hrow : (fun dx (st : Z * Z) =>
                        st.1 = st.2 /\ 0 <= st.2 /\
                        (0 < dy \/ (dy = 0 /\ 0 < dx) -> 1 <= st.2)) (2 + 1)
                (for_range (- 2) (2 + 1) (fun dx '(foregroundCount, totalCount) =>
                   if MediaPipeProcessor.in_bounds (x + dx) (y + dy) w h then
                     (if ge (of_read (get maskData (((y + dy) * w + (x + dx)) * 4)))
                            (num 128)
                      then foregroundCount + 1 else foregroundCount,
                      totalCount + 1)
                   else (foregroundCount, totalCount)) st)).
      { apply for_range_ind_idx; [lia | |].
        - split; [done|]. split; [done|]. intros [? | [? ?]]; [auto | lia].
        - intros dx [fc tc] Hdx (Heq' & Hnn' & Hpos'). cbn [fst snd] in *.
          destruct (MediaPipeProcessor.in_bounds (x + dx) (y + dy) w h) eqn:Hin.
          + apply FloodFacts.in_bounds_spec in Hin as [Hi1 Hi2]. cbn [fst snd] in *.
            rewrite Hmask by done. cbn [fst snd]. lia.
          + cbn [fst snd]. split; [done|]. split; [done|]. intros Hc.
            apply Hpos'. destruct Hc as [? | [-> Hc]]; [by left|].
            destruct (decide (dx = 0)) as [-> | ?]; [|right; lia].
            assert (Hcentre : MediaPipeProcessor.in_bounds (x + 0) (y + 0) w h = true).
            { apply FloodFacts.in_bounds_spec. unfold inImage. cbn [fst snd]. lia. }
            congruence. }
      cbv beta in Hrow. destruct Hrow as (Heq' & Hnn' & Hpos').
      split; [done|]. split; [done|]. intros Hdy'.
      apply Hpos'. destruct (decide (dy = 0)) as [-> | ?]; [right; lia | left; lia]. }
    cbv beta in Hidx. destruct Hidx as (Heq & _ & Hpos). split; [done|].
    apply Hpos. lia. }
  destruct st as [fc tc]. cbn [fst snd] in Hst. destruct Hst as [-> Htc].
  rewrite div_Fin_pos by lia.
  assert (Hratio : gt (Fin (inject_Z tc / inject_Z tc)) (Fin (8 # 10)) = true).
  { unfold gt, lt. apply negb_true_iff, Qle_bool_false.
    assert (Hone : (inject_Z tc / inject_Z tc == 1)%Q).
    { unfold Qdiv. apply Qmult_inv_r. intros Hz. unfold Qeq in Hz. cbn in Hz. lia. }
    rewrite Hone. reflexivity. }
  by rewrite Hratio.
Qed.

(** Extra X11.  A mask that is foreground at every pixel changes nothing:
    the window of every pixel is all foreground, the softening factor is 1,
    and each alpha is stored back. *)
Theorem applyMask_foreground_mask (img : ImageData) (maskData : list Z) :
  wf_image img -> bytes (data img) ->
  foregroundMask maskData (width img) (height img) ->
  applyMask maskData (width img) (height img) (data img) = data img.
Proof.
  intros (Hw & Hh & Hlen) Hb Hmask. unfold applyMask.
  apply for_step_ind; [lia | done |]. intros i d Hi Hmod ->.
  rewrite Z.sub_0_r in Hmod.
  set (w := width img) in *. set (h := height img) in *.
  assert (Hwpos : 0 < w) by nia.
  set (p := i / 4).
  assert (Hip : i = p * 4).
  { subst p. pose proof (Z.div_mod i 4). lia. }
  assert (Hp : 0 <= p < w * h) by lia.
  set (x := p mod w). set (y := p / w).
  assert (Hpxy : p = y * w + x).
  { subst x y. pose proof (Z.div_mod p w). lia. }
  assert (Hx : 0 <= x < w) by (subst x; apply Z.mod_pos_bound; lia).
  assert (Hy : 0 <= y < h).
  { subst y. split; [apply Z.div_pos; lia|]. apply Z.div_lt_upper_bound; lia. }
  pose proof (Hmask x y Hx Hy) as Hm. rewrite <- Hpxy, <- Hip in Hm.
  assert (Hlt : lt (of_read (get maskData i)) (num 128) = false).
  { revert Hm. unfold ge, le, lt, num. destruct (of_read (get maskData i)); try done.
    intros Hm. apply negb_false_iff. done. }
  rewrite Hlt.
  assert (Hsoft : calculateEdgeSoftening i maskData w h = Fin 1).
  { replace i with ((y * w + x) * 4) by lia.
    by apply calculateEdgeSoftening_foreground. }
  rewrite Hsoft.
  assert (Hin : 0 <= i + 3 < Z.of_nat (length (data img))) by lia.
  destruct (get_is_Some _ _ Hin) as [a Ha]. rewrite Ha.
  pose proof (get_bytes _ _ _ Hb Ha) as Hbyte.
  unfold store. apply set_same. rewrite Ha. f_equal.
  cbn [of_read]. unfold num. cbn [mul min lt].
  assert (Hq : (inject_Z a * 1 == inject_Z a)%Q) by ring.
  destruct (Qle_bool (inject_Z 255) (inject_Z a * 1)) eqn:Hbig; cbn [negb toUint8Clamped].
  - apply Qle_bool_iff in Hbig. rewrite Hq, <- Zle_Qle in Hbig.
    rewrite round_half_even_Z. unfold clamp8. lia.
  - rewrite (round_half_even_int _ a Hq). unfold clamp8. lia.
Qed.

End MaskFacts.

(** ** Batches *)

Module ProcessingFacts.
Import BackgroundRemovalApp Processing.

Section WithBrowser.
Context `{JSMath} `{Browser}.

Lemma batchEvents_cons total i file files :
  batchEvents total i (file :: files)
  = fileEvents total i file ++ batchEvents total (i + 1) files.
Proof.
  unfold batchEvents. cbn [imap mjoin list_join]. rewrite Z.add_0_r. f_equal.
  f_equal. apply imap_ext. intros k f _. cbn. f_equal. lia.
Qed.

(** The loop on files that are all processed. *)
Lemma processLoop_ok mode total i files urls s :
  Forall2 (fun file url => processors mode file = Ok url) files urls ->
  processLoop mode total i files s
  = (mkSession (currentResults s ++ zip_with (fun file url => mkResult file url mode) files urls)
               (events s ++ batchEvents total i files), Ok tt).
Proof.
  intros Hall. revert i s.
  induction Hall as [|file url files urls Hurl Hall IH]; intros i s.
  - cbn. unfold batchEvents. cbn. rewrite !app_nil_r. by destruct s.
  - cbn [processLoop]. rewrite Hurl, IH. cbn [currentResults events log push zip_with].
    rewrite batchEvents_cons. unfold fileEvents.
    by rewrite <- !app_assoc.
Qed.

(** The loop on files of which the first that is not processed throws. *)
Lemma processLoop_throw mode total i done urls bad rest e s :
  Forall2 (fun file url => processors mode file = Ok url) done urls ->
  processors mode bad = Throw e ->
  processLoop mode total i (done ++ bad :: rest) s
  = (mkSession (currentResults s ++ zip_with (fun file url => mkResult file url mode) done urls)
               (events s ++ batchEvents total i done ++
                  [UpdateProcessingProgress (i + Z.of_nat (length done)) total
                     (Some (name bad))]),
     Throw e).
Proof.
  intros Hall Hbad. revert i s.
  induction Hall as [|file url files urls Hurl Hall IH]; intros i s.
  - cbn [app processLoop]. rewrite Hbad. unfold batchEvents. cbn.
    rewrite app_nil_r, Z.add_0_r. done.
  - cbn [app processLoop]. rewrite Hurl, IH.
    cbn [currentResults events log push zip_with length].
    rewrite batchEvents_cons. unfold fileEvents.
    rewrite <- !app_assoc. cbn [app].
    replace (i + 1 + Z.of_nat (length files)) with (i + Z.of_nat (S (length files)))
      by lia. done.
Qed.



(** Extra X14.  Without a valid mode key ([selectedMode] is still ['auto'],
    or the element the constructor stored in it) no file is processed: the
    first call of the processor throws, and the batch ends with the failure
    message and no result. *)
Theorem startProcessing_without_mode (file : File) (files : list File) (s : Session) :
  startProcessing (file :: files) None s
  = (mkSession []
       (events s ++ [ShowProcessingUI;
                     UpdateProcessingProgress 0 (Z.of_nat (length (file :: files)))
                       (Some (name file));
                     ShowFailureMessage; HideProcessingUI]),
     Ok tt).
Proof.
  unfold startProcessing. cbn [length]. rewrite decide_False by done.
  cbn [processLoop processors]. cbv beta iota zeta. unfold log.
  cbn [currentResults events app]. by rewrite <- !app_assoc.
Qed.

End WithBrowser.
End ProcessingFacts.



(** ** Adaptive smoothing reads outside the mask *)

Module EdgeRowFacts.
Import JS LoopFacts ArrayFacts WriteFacts GaussFacts FeatherFacts ComplexityFacts.
Import CheckerFacts AnalyzerFacts TensorFlowProcessor.


Section WithMath.
Context `{JSMath}.

(** One read outside the buffer makes the alpha sum [NaN]. *)
Lemma gaussianSums_NaN orig x y w r s dx0 dy0 :
  - r <= dx0 <= r -> - r <= dy0 <= r ->
  get orig (((y + dy0) * w + (x + dx0)) * 4 + 3) = None ->
  (MediaPipeProcessor.gaussianSums orig x y w r s).1 = NaN.
Proof.
  intros Hdx0 Hdy0 Hnone. unfold MediaPipeProcessor.gaussianSums.
  enough (HP : (fun dy (st : jsnum * jsnum) => dy0 < dy -> st.1 = NaN) (r + 1)
             (for_range (- r) (r + 1) (fun dy =>
                for_range (- r) (r + 1) (fun dx '(alphaSum, weightSum) =>
                  let weight := MediaPipeProcessor.gaussianWeight s dx dy in
                  let nIndex := ((y + dy) * w + (x + dx)) * 4 in
                  (add alphaSum (mul (of_read (get orig (nIndex + 3))) weight),
                   add weightSum weight))) (num 0, num 0))).
  { apply HP. lia. }
  apply for_range_ind_idx; [lia | lia |].
  intros dy st Hdy Hst.
  enough (HQ : (fun dx (st : jsnum * jsnum) =>
                  dy0 < dy \/ (dy = dy0 /\ dx0 < dx) -> st.1 = NaN) (r + 1)
             (for_range (- r) (r + 1) (fun dx '(alphaSum, weightSum) =>
                  let weight := MediaPipeProcessor.gaussianWeight s dx dy in
                  let nIndex := ((y + dy) * w + (x + dx)) * 4 in
                  (add alphaSum (mul (of_read (get orig (nIndex + 3))) weight),
                   add weightSum weight)) st)).
  { intros Hlt. apply HQ. lia. }
  apply for_range_ind_idx; [lia | |].
  { intros [Hlt | [_ Hlt]]; [by apply Hst | lia]. }
  intros dx [a b] Hdx Hprev Hc. cbv zeta. cbn [fst snd] in *.
  destruct (decide (dy0 < dy \/ dy = dy0 /\ dx0 < dx)) as [Hold | Hnew].
  - by rewrite (Hprev Hold).
  - assert (dx = dx0 /\ dy = dy0) as [-> ->] by lia.
    rewrite Hnone. cbn [of_read mul]. apply add_NaN_r.
Qed.

(** At an edge pixel the strength is a number above 50. *)
Lemma calculateEdgeStrength_edge img x y :
  wf_image img -> 0 <= x < width img -> 0 <= y < height img ->
  isEdgePixel x y (data img) (width img) (height img) = true ->
  exists e, calculateEdgeStrength x y (data img) (width img) (height img) = Fin e /\
            (50 < e)%Q.
Proof.
  intros (Hw & Hh & Hlen) Hx Hy. unfold isEdgePixel, calculateEdgeStrength.
  generalize (neighbors8 x y). intros l.
  enough (Hgen : forall e0, (0 <= e0)%Q ->
            exists e,
              foldl (fun maxDiff '(nx, ny) =>
                       if in_bounds nx ny (width img) (height img)
                       then max maxDiff (alphaDiff (data img) x y nx ny (width img))
                       else maxDiff) (Fin e0) l = Fin e /\
              (e0 <= e)%Q /\
              (existsb (fun '(nx, ny) =>
                 in_bounds nx ny (width img) (height img) &&
                 gt (alphaDiff (data img) x y nx ny (width img)) (num 50)) l = true ->
               (50 < e)%Q)).
  { intros Hedge. destruct (Hgen 0%Q) as (e & He & _ & H50); [done|].
    exists e. split; [done | by apply H50]. }
  induction l as [|[nx ny] l IH]; intros e0 He0.
  { exists e0. split; [done|]. split; [lra | done]. }
  cbn [foldl existsb].
  destruct (in_bounds nx ny (width img) (height img)) eqn:Hin; cbn [andb].
  2:{ apply IH. done. }
  apply FloodFacts.in_bounds_spec in Hin as [Hnx Hny]. cbn [fst snd] in Hnx, Hny.
  destruct (alphaDiff_Fin (data img) x y nx ny (width img)) as (d & Hd & Hd0).
  { apply get_is_Some. rewrite Hlen. apply pixel_index_range; lia. }
  { apply get_is_Some. rewrite Hlen. apply pixel_index_range; lia. }
  unfold alphaDiff. rewrite Hd. cbn [max lt gt]. unfold num.
  destruct (Qle_bool d e0) eqn:Hle; cbn [negb].
  - apply Qle_bool_iff in Hle.
    destruct (IH e0 He0) as (e & He & Hge & H50). exists e.
    split; [done|]. split; [done|]. intros Hex.
    apply orb_prop in Hex as [Hex | Hex]; [|by apply H50].
    apply negb_true_iff, Qle_bool_false in Hex.
    change (inject_Z 50) with 50%Q in Hex. lra.
  - apply Qle_bool_false in Hle.
    destruct (IH d Hd0) as (e & He & Hge & H50). exists e.
    split; [done|]. split; [lra|]. intros Hex.
    apply orb_prop in Hex as [Hex | Hex]; [|by apply H50].
    apply negb_true_iff, Qle_bool_false in Hex.
    change (inject_Z 50) with 50%Q in Hex. lra.
Qed.

(** At an edge pixel the window has radius 3 or 4. *)
Lemma adaptiveSums_edge img x y :
  wf_image img -> 0 <= x < width img -> 0 <= y < height img ->
  isEdgePixel x y (data img) (width img) (height img) = true ->
  exists r s, 3 <= r <= 4 /\
    adaptiveSums (data img) x y (width img) (height img)
    = MediaPipeProcessor.gaussianSums (data img) x y (width img) r s.
Proof.
  intros Hwf Hx Hy Hedge. unfold adaptiveSums.
  destruct (calculateEdgeStrength_edge img x y Hwf Hx Hy Hedge) as (e & -> & He).
  change (div (Fin e) (num 50)) with (Fin (e / inject_Z 50)).
  assert (He50 : (1 < e / inject_Z 50)%Q).
  { apply Qlt_shift_div_l; [reflexivity|]. by rewrite Qmult_1_l. }
  assert (Hs : exists s, max (Fin (1 # 2)) (min (num 2) (Fin (e / inject_Z 50))) = Fin s
                         /\ (1 < s <= 2)%Q).
  { unfold num. cbn [min lt].
    destruct (Qle_bool (inject_Z 2) (e / inject_Z 50)) eqn:Hbig; cbn [negb max lt].
    - exists (inject_Z 2). split; [done|]. split; by vm_compute.
    - apply Qle_bool_false in Hbig. change (inject_Z 2) with 2%Q in Hbig.
      destruct (Qle_bool (e / inject_Z 50) (1 # 2)) eqn:Hle; cbn [negb].
      + apply Qle_bool_iff in Hle. lra.
      + exists (e / inject_Z 50)%Q. split; [done|]. lra. }
  destruct Hs as (s & -> & Hs).
  change (ceil (mul (Fin s) (num 2)))
    with (Fin (inject_Z (Qceiling (s * inject_Z 2)))).
  cbv beta iota. rewrite Qfloor_Z.
  exists (Qceiling (s * inject_Z 2)), (Fin s). split; [|done].
  pose proof (Qle_ceiling (s * inject_Z 2)) as Hup.
  pose proof (Qceiling_lt (s * inject_Z 2)) as Hlo.
  change (inject_Z 2) with 2%Q in *.
  assert (H2 : (inject_Z 2 < inject_Z (Qceiling (s * 2)))%Q)
    by (change (inject_Z 2) with 2%Q; lra).
  assert (H4 : (inject_Z (Qceiling (s * 2) - 1) < inject_Z 4)%Q)
    by (change (inject_Z 4) with 4%Q; lra).
  rewrite <- Zlt_Qlt in H2, H4. lia.
Qed.

Lemma edgeOptimization_writes img :
  data (edgeOptimization img)
  = apply_writes
      (seqZ 2 (height img - 2 - 2) ≫= fun y =>
       seqZ 2 (width img - 2 - 2) ≫= fun x =>
         edgeStores (data img) (width img) (height img) x y) (data img).
Proof.
  unfold edgeOptimization. cbn [data]. rewrite <- for_range2_writes.
  apply for_range_ext. intros y a1 _. apply for_range_ext. intros x a2 _.
  unfold edgeStores. destruct (isEdgePixel _ _ _ _ _); [|done].
  by destruct (adaptiveSums _ _ _ _ _).
Qed.

End WithMath.

(** Extra X15.  In the adaptive smoothing of the precise tier the window of
    an edge pixel has radius 3 or 4 while the loops start two pixels from
    the border and check no bounds: for an edge pixel of the third row from
    the top or from the bottom a read falls outside the buffer, the alpha
    sum is [NaN], and the pixel is made fully transparent. *)
Theorem edgeOptimization_clears_third_row `{JSMath} (img : ImageData) (x y : Z) :
  wf_image img ->
  2 <= x < width img - 2 -> 5 <= height img ->
  y = 2 \/ y = height img - 3 ->
  isEdgePixel x y (data img) (width img) (height img) = true ->
  get (data (edgeOptimization img)) ((y * width img + x) * 4 + 3) = Some 0.
Proof.
  intros Hwf Hx Hh Hy Hedge.
  assert (Hy' : 2 <= y < height img - 2) by lia.
  destruct (adaptiveSums_edge img x y Hwf) as (r & s & Hr & Hsums); [lia | lia | done |].
  destruct Hwf as (Hw & _ & Hlen).
  assert (Hnan : (adaptiveSums (data img) x y (width img) (height img)).1 = NaN).
  { rewrite Hsums. destruct Hy as [-> | ->].
    - apply (gaussianSums_NaN _ _ _ _ _ _ (- r) (- r)); [lia | lia |].
      apply get_None. nia.
    - apply (gaussianSums_NaN _ _ _ _ _ _ r r); [lia | lia |].
      apply get_None. nia. }
  rewrite edgeOptimization_writes.
  assert (Hstore : edgeStores (data img) (width img) (height img) x y
                   = [((y * width img + x) * 4 + 3, 0)]).
  { unfold edgeStores. by rewrite Hedge, Hnan. }
  apply get_apply_writes_hit.
  - apply elem_of_writes2. exists x, y. split; [lia|]. split; [lia|].
    rewrite Hstore. by left.
  - intros v' Hv'. apply elem_of_writes2 in Hv' as (x' & y' & Hy2 & Hx2 & Hv').
    assert (Hsame : x' = x /\ y' = y).
    { unfold edgeStores in Hv'. destruct (isEdgePixel x' y' _ _ _);
        [|by apply elem_of_nil in Hv'].
      apply list_elem_of_singleton in Hv'. injection Hv' as Hidx _.
      apply pixel_index_inj in Hidx as (-> & -> & _); [done | lia..]. }
    destruct Hsame as [-> ->]. rewrite Hstore in Hv'.
    apply list_elem_of_singleton in Hv'. congruence.
  - rewrite Hlen. apply pixel_index_range; lia.
Qed.

End EdgeRowFacts.

(** [edgeOptimization_clears_third_row] at the opaque pixel (2,2) of
    [stripeSample], next to the transparent columns. *)
Lemma edgeOptimization_clears_third_row_witness :
  JS.get (data stripeSample) ((2 * 5 + 2) * 4 + 3) = Some 255 /\
  JS.get (data (@TensorFlowProcessor.edgeOptimization refMath stripeSample))
      ((2 * 5 + 2) * 4 + 3) = Some 0.
Proof.
  split; [by vm_compute|].
  apply (@EdgeRowFacts.edgeOptimization_clears_third_row refMath stripeSample 2 2).
  - by vm_compute.
  - cbn. lia.
  - cbn. lia.
  - by left.
  - by vm_compute.
Defined.

(** ** Masks of one alpha and the balanced chain *)

Module ConstantMaskFacts.
Import JS LoopFacts ArrayFacts WriteFacts ComplexityFacts.
Import MediaPipeProcessor.

Lemma insert_asc_replicate a n :
  insert_asc a (replicate n a) = replicate (S n) a.
Proof.
  induction n as [|n IH]; [done|].
  cbn [replicate insert_asc]. rewrite Z.ltb_irrefl. by rewrite IH.
Qed.

Lemma sort_numbers_replicate a n :
  sort_numbers (replicate n (Some a)) = replicate n (Some a).
Proof.
  unfold sort_numbers.
  assert (Hd : omap id (replicate n (Some a)) = replicate n a).
  { induction n as [|n IH]; [done|]. cbn. by rewrite IH. }
  rewrite Hd, !length_replicate, Nat.sub_diag. cbn [replicate].
  rewrite app_nil_r.
  assert (Hs : foldr insert_asc [] (replicate n a) = replicate n a).
  { clear Hd. induction n as [|n IH]; [done|].
    cbn [replicate foldr]. rewrite IH. apply insert_asc_replicate. }
  rewrite Hs. apply fmap_replicate.
Qed.

Lemma min_constant a acc :
  0 <= a <= 255 -> acc = num 255 \/ acc = num a ->
  min acc (num a) = num a \/ (min acc (num a) = num 255 /\ a = 255).
Proof.
  intros Ha [-> | ->]; unfold num; cbn [min lt].
  - destruct (Qle_bool (inject_Z 255) (inject_Z a)) eqn:Hle; cbn [negb]; [|by left].
    apply Qle_bool_iff in Hle. rewrite <- Zle_Qle in Hle. right. split; [done | lia].
  - destruct (Qle_bool _ _); by left.
Qed.

Lemma max_constant a acc :
  0 <= a <= 255 -> acc = num 0 \/ acc = num a ->
  max acc (num a) = num a \/ (max acc (num a) = num 0 /\ a = 0).
Proof.
  intros Ha [-> | ->]; unfold num; cbn [max lt].
  - destruct (Qle_bool (inject_Z a) (inject_Z 0)) eqn:Hle; cbn [negb]; [|by left].
    apply Qle_bool_iff in Hle. rewrite <- Zle_Qle in Hle. right. split; [done | lia].
  - destruct (Qle_bool _ _); by left.
Qed.

(** A fold of [Math.min] from 255, or of [Math.max] from 0, over a window
    of one value stores that value. *)
Lemma extreme_constant (op : jsnum -> jsnum -> jsnum) init a n :
  0 <= a <= 255 ->
  (forall acc, acc = num init \/ acc = num a ->
     op acc (num a) = num a \/ (op acc (num a) = num init /\ a = init)) ->
  toUint8Clamped (foldl (fun acc v => op acc (of_read v)) (num init)
                        (replicate (S n) (Some a))) = a.
Proof.
  intros Ha Hop.
  enough (Hinv : forall m acc, acc = num a \/ (acc = num init /\ a = init) ->
            toUint8Clamped (foldl (fun acc v => op acc (of_read v)) acc
                                  (replicate m (Some a))) = a).
  { cbn [replicate foldl of_read]. apply Hinv, Hop. by left. }
  induction m as [|m IH]; intros acc Hacc.
  - cbn. destruct Hacc as [-> | [-> <-]]; by apply toUint8Clamped_byte.
  - cbn [replicate foldl of_read]. apply IH, Hop.
    destruct Hacc as [-> | [-> _]]; [by right | by left].
Qed.

Section Constant.
Variables (img : ImageData) (a : Z).
Hypothesis Ha : 0 <= a <= 255.
Hypothesis Hconst : constantAlpha img a.

Lemma window3_constant x y :
  1 <= x < width img - 1 -> 1 <= y < height img - 1 ->
  window3 (data img) x y (width img) = replicate 9 (Some a).
Proof.
  intros Hx Hy. unfold window3.
  change (seqZ (-1) 3) with [-1; 0; 1].
  cbn [mbind list_bind app].
  repeat match goal with
         | |- context [get (data img) ((?yy * width img + ?xx) * 4 + 3)] =>
             rewrite (Hconst xx yy) by lia
         end.
  done.
Qed.

Lemma medianFilter_constant : medianFilter img = img.
Proof.
  unfold medianFilter. cbv zeta.
  enough (Hd : for_range 1 (height img - 1) (fun y =>
                 for_range 1 (width img - 1) (fun x d =>
                   store d ((y * width img + x) * 4 + 3)
                     (of_read (mjoin (sort_numbers (window3 (data img) x y (width img))
                                        !! 4%nat))))) (data img) = data img).
  { rewrite Hd. by destruct img. }
  apply for_range_ind; [done|]. intros y d Hy ->.
  apply for_range_ind; [done|]. intros x d Hx ->.
  rewrite window3_constant, sort_numbers_replicate by lia.
  cbn [replicate lookup list_lookup mjoin option_join of_read].
  unfold store. rewrite toUint8Clamped_byte by done.
  apply set_same, Hconst; lia.
Qed.

Lemma morph_pass_constant op init :
  (forall acc, acc = num init \/ acc = num a ->
     op acc (num a) = num a \/ (op acc (num a) = num init /\ a = init)) ->
  morph_pass op init (data img) (width img) (height img) (data img) = data img.
Proof.
  intros Hop. unfold morph_pass.
  apply for_range_ind; [done|]. intros y d Hy ->.
  apply for_range_ind; [done|]. intros x d Hx ->.
  rewrite window3_constant by lia.
  unfold store. rewrite (extreme_constant op init a 8 Ha Hop).
  apply set_same, Hconst; lia.
Qed.

Lemma morphologicalOperations_constant : morphologicalOperations img = img.
Proof.
  unfold morphologicalOperations. cbv zeta.
  rewrite (morph_pass_constant min 255) by (intros; by apply min_constant).
  rewrite (morph_pass_constant max 0) by (intros; by apply max_constant).
  by destruct img.
Qed.

Lemma isEdgePixel_constant x y :
  0 <= x < width img -> 0 <= y < height img ->
  isEdgePixel x y (data img) (width img) (height img) = false.
Proof.
  intros Hx Hy. unfold isEdgePixel.
  apply not_true_iff_false. intros Hex.
  apply existsb_exists in Hex as ([nx ny] & _ & Hn).
  apply andb_prop in Hn as [Hin Hgt].
  apply FloodFacts.in_bounds_spec in Hin as [Hnx Hny]. cbn [fst snd] in Hnx, Hny.
  unfold alphaDiff in Hgt. rewrite !Hconst in Hgt by lia.
  cbn [of_read] in Hgt. unfold num in Hgt. cbn [sub neg add abs gt lt] in Hgt.
  apply negb_true_iff, Qle_bool_false in Hgt.
  assert (Hz : (inject_Z a + - inject_Z a == 0)%Q) by ring.
  rewrite Hz in Hgt. by vm_compute in Hgt.
Qed.

End Constant.

(** Extra X16.  A mask whose pixels all have the same alpha goes through
    the balanced chain (median filter, opening, edge feathering) unchanged:
    every window holds that one value, and no pixel is an edge. *)
Theorem balanced_chain_keeps_constant_mask `{JSMath} (img : ImageData) (a : Z) :
  0 <= a <= 255 -> constantAlpha img a ->
  postProcessSegmentation img = img.
Proof.
  intros Ha Hconst. unfold postProcessSegmentation. cbv zeta.
  rewrite (medianFilter_constant img a Ha Hconst).
  rewrite (morphologicalOperations_constant img a Ha Hconst).
  unfold edgeFeathering. cbv zeta.
  enough (Hd : for_range 2 (height img - 2) (fun y =>
                 for_range 2 (width img - 2) (fun x d =>
                   if isEdgePixel x y (data img) (width img) (height img) then
                     let '(alphaSum, weightSum) :=
                       gaussianSums (data img) x y (width img) 2 (num 1) in
                     store d ((y * width img + x) * 4 + 3) (div alphaSum weightSum)
                   else d)) (data img) = data img).
  { rewrite Hd. by destruct img. }
  apply for_range_ind; [done|]. intros y d Hy ->.
  apply for_range_ind; [done|]. intros x d Hx ->.
  by rewrite (isEdgePixel_constant img a Hconst) by lia.
Qed.

End ConstantMaskFacts.

(** [balanced_chain_keeps_constant_mask] at the opaque 3x3 mask. *)
Lemma balanced_chain_keeps_constant_mask_witness :
  @MediaPipeProcessor.postProcessSegmentation refMath opaque3 = opaque3.
Proof.
  apply (@ConstantMaskFacts.balanced_chain_keeps_constant_mask refMath opaque3 255);
    [lia|].
  intros x y Hx Hy. cbn in Hx, Hy.
  assert (Hc : x = 0 \/ x = 1 \/ x = 2) by lia.
  assert (Hr : y = 0 \/ y = 1 \/ y = 2) by lia.
  destruct Hc as [-> | [-> | ->]], Hr as [-> | [-> | ->]]; by vm_compute.
Defined.

(** ** The fast tier on an image of one colour *)

Module UniformFacts.
Import JS LoopFacts ArrayFacts WriteFacts ImageFacts ComplexityFacts NoiseFacts.
Import MaskFacts CanvasProcessor.


Lemma bump_same {K : Type} `{EqDecision K} (k : K) c :
  bump k [(k, c)] = [(k, c + 1)].
Proof. cbn. by rewrite decide_True. Qed.

Lemma foldl_bump_same {K A : Type} `{EqDecision K} (k : K)
    (f : list (K * Z) -> A -> list (K * Z)) (l : list A) :
  (forall m p, p ∈ l -> f m p = bump k m) -> l <> [] ->
  foldl f [] l = [(k, Z.of_nat (length l))].
Proof.
  intros Hf Hne. destruct l as [|p l]; [done|]. clear Hne.
  cbn [foldl]. rewrite Hf by (by left). cbn [bump].
  assert (Hgen : forall c, foldl f [(k, c)] l = [(k, c + Z.of_nat (length l))]).
  { induction l as [|q l IH]; intros c.
    - cbn. by rewrite Z.add_0_r.
    - cbn [foldl]. rewrite Hf by (right; by left). rewrite bump_same.
      rewrite IH.
      + cbn [length]. do 2 f_equal. lia.
      + intros m p' Hp'. apply Hf. apply elem_of_cons in Hp' as [-> | Hp'];
          [by left | right; by right]. }
  rewrite Hgen. cbn [length]. do 2 f_equal. lia.
Qed.

(** A buffer whose alpha is 0 everywhere is left alone by noise removal. *)
Lemma removeNoise_transparent img :
  constantAlpha img 0 -> data (removeNoise img) = data img.
Proof.
  intros Hconst. unfold removeNoise. cbn [data].
  assert (Her : erode (data img) (width img) (height img) (data img) = data img).
  { unfold erode. apply for_range_ind; [done|]. intros y d Hy ->.
    apply for_range_ind; [done|]. intros x d Hx ->.
    by rewrite Hconst by lia. }
  rewrite Her. unfold dilate.
  apply for_range_ind; [done|]. intros y d Hy ->.
  apply for_range_ind; [done|]. intros x d Hx ->.
  destruct (eq _ _); [|done].
  assert (Hcount : foregroundCount (data img) x y (width img) = 0).
  { unfold foregroundCount. rewrite !for_range_3.
    repeat match goal with
           | |- context [get (data img) ((?yy * width img + ?xx) * 4 + 3)] =>
               rewrite (Hconst xx yy) by lia
           end.
    reflexivity. }
  by rewrite Hcount.
Qed.

Section WithMath.
Context `{JSMath}.
Hypothesis sqrt_small : forall q, (0 <= q <= 675)%Q -> (Math_sqrt q < 40)%Q.

Section Uniform.
Variables (w h r g b al : Z).
Hypothesis Hw : 1 <= w.
Hypothesis Hh : 1 <= h.
Hypothesis Hr : 0 <= r <= 255.
Hypothesis Hg : 0 <= g <= 255.
Hypothesis Hb : 0 <= b <= 255.

Local Abbreviation u := (r, g, b, al).
Local Abbreviation img := (uniformImage w h u).

Lemma samplePoints_uniform :
  let pts :=
    for_step 0 h 5 (fun y pts => pts ++ [(0, y); (w - 1, y)])
      (for_step 0 w 5 (fun x pts => pts ++ [(x, 0); (x, h - 1)]) []) in
  pts <> [] /\ Forall (fun p : Z * Z => 0 <= p.1 < w /\ 0 <= p.2 < h) pts.
Proof.
  cbv zeta.
  apply (for_step_ind (fun pts => pts <> [] /\
           Forall (fun p : Z * Z => 0 <= p.1 < w /\ 0 <= p.2 < h) pts)); [lia | |].
  - rewrite for_step_as_range.
    assert (Hn : 0 < (w - 0 + 5 - 1) / 5).
    { apply Z.div_str_pos. lia. }
    rewrite for_range_first by done. cbn [app].
    apply for_range_ind.
    + split; [done|]. repeat constructor; cbn [fst snd]; lia.
    + intros k pts Hk [Hne Hall]. split.
      * intros Happ. apply app_eq_nil in Happ as [? _]. done.
      * apply Forall_app. split; [done|].
        assert (Hx : 0 <= 0 + k * 5 < w).
        { pose proof (Z.div_mod (w - 0 + 5 - 1) 5).
          pose proof (Z.mod_pos_bound (w - 0 + 5 - 1) 5). lia. }
        repeat constructor; cbn [fst snd]; lia.
  - intros y pts Hy _ [Hne Hall]. split.
    + intros Happ. apply app_eq_nil in Happ as [? _]. done.
    + apply Forall_app. split; [done|]. repeat constructor; cbn [fst snd]; lia.
Qed.

(** The border of a one-colour image has one bucket. *)
Lemma detectBackgroundColors_uniform :
  detectBackgroundColors img = [color_of_key (borderBucket u)].
Proof.
  unfold detectBackgroundColors. cbv zeta.
  change (width img) with w. change (height img) with h.
  destruct samplePoints_uniform as [Hne Hall].
  rewrite (foldl_bump_same (borderBucket u)); [done | | done].
  intros m [x y] Hp. rewrite Forall_forall in Hall.
  destruct (Hall _ Hp) as [Hx Hy]. cbn [fst snd] in Hx, Hy.
  unfold uniformImage.
  replace ((y * w + x) * 4) with ((y * w + x) * 4 + 0) at 1 by lia.
  rewrite !get_imageOf by lia. done.
Qed.

Lemma channel_distance c :
  0 <= c <= 255 -> 0 <= (c - c / 16 * 16) * (c - c / 16 * 16) <= 225.
Proof.
  intros Hc. pose proof (Z.div_mod c 16). pose proof (Z.mod_pos_bound c 16).
  nia.
Qed.

(** Every pixel of that colour is within the threshold of the bucket. *)
Lemma isBackgroundPixel_uniform edgeMap x y :
  isBackgroundPixel (num r) (num g) (num b) [color_of_key (borderBucket u)]
    edgeMap x y w h = true.
Proof.
  unfold isBackgroundPixel, borderBucket, color_of_key, ImageAnalyzer.quantize.
  cbn [channel Z.eqb Pos.eqb fmap option_fmap option_map from_option existsb].
  rewrite orb_false_r. unfold sq, sub, num. cbn [neg add mul].
  rewrite <- !inject_Z_opp, <- !inject_Z_plus, <- !inject_Z_mult, <- !inject_Z_plus.
  cbn [sqrt].
  pose proof (channel_distance r Hr). pose proof (channel_distance g Hg).
  pose proof (channel_distance b Hb).
  set (z := (r + - (r / 16 * 16)) * (r + - (r / 16 * 16))
            + (g + - (g / 16 * 16)) * (g + - (g / 16 * 16))
            + (b + - (b / 16 * 16)) * (b + - (b / 16 * 16))).
  assert (Hz : 0 <= z <= 675) by (subst z; lia).
  assert (Hq : (0 <= inject_Z z <= 675)%Q).
  { split; [change 0%Q with (inject_Z 0) | change 675%Q with (inject_Z 675)];
      rewrite <- Zle_Qle; lia. }
  assert (Hpos : Qle_bool 0 (inject_Z z) = true) by (apply Qle_bool_iff, Hq).
  rewrite Hpos. pose proof (sqrt_small _ Hq) as Hs.
  destruct (isNearEdge _ _ _ _ _ _); unfold lt;
    apply negb_true_iff, Qle_bool_false.
  - done.
  - apply Qlt_trans with 40%Q; [done | reflexivity].
Qed.

(** The classification loop clears every alpha. *)
Lemma classification_uniform :
  let out :=
    for_step 0 (Z.of_nat (length (data img))) 4 (fun i d =>
      let pixelIndex := i / 4 in
      let x := pixelIndex mod w in
      let y := pixelIndex / w in
      let r := of_read (get d i) in
      let g := of_read (get d (i + 1)) in
      let b := of_read (get d (i + 2)) in
      if isBackgroundPixel r g b (detectBackgroundColors img) (createEdgeMap img)
           x y w h
      then set d (i + 3) 0
      else
        let edgeDistance := getEdgeDistance x y (createEdgeMap img) w h in
        if lt edgeDistance (num 3)
        then store d (i + 3)
               (max (num 0)
                    (sub (of_read (get d (i + 3)))
                         (div (mul (num 50) (sub (num 3) edgeDistance)) (num 3))))
        else d) (data img) in
  constantAlpha (mkImageData w h out) 0.
Proof.
  cbv zeta. rewrite for_step_as_range, detectBackgroundColors_uniform.
  unfold uniformImage at 1. rewrite length_imageOf by lia.
  replace ((4 * (w * h) - 0 + 4 - 1) / 4) with (w * h)
    by (apply Z.div_unique with 3; lia).
  set (orig := data img).
  set (out := for_range 0 (w * h) _ orig).
  assert (Hlo : Z.of_nat (length orig) = 4 * (w * h)).
  { subst orig. unfold uniformImage. apply length_imageOf; lia. }
  assert (Hinv : length out = length orig /\
                 (forall j, j mod 4 <> 3 -> get out j = get orig j) /\
                 (forall p, 0 <= p < w * h -> get out (p * 4 + 3) = Some 0)).
  { subst out.
    apply (for_range_ind_idx (fun k d =>
             length d = length orig /\
             (forall j, j mod 4 <> 3 -> get d j = get orig j) /\
             (forall p, 0 <= p < k -> get d (p * 4 + 3) = Some 0))); [nia | |].
    - split; [done|]. split; [done|]. intros p Hp. lia.
    - intros k d Hk (Hlen & Hrgb & Hdone).
      assert (Hread : forall c, 0 <= c < 3 ->
                get d (k * 4 + c) = Some (channel u c)).
      { intros c Hc. rewrite Hrgb by (apply FrameFacts.rgb_index_mod; lia).
        subst orig. unfold uniformImage. by rewrite get_imageOf_flat by lia. }
      replace (0 + k * 4) with (k * 4 + 0) by lia.
      rewrite <- !Z.add_assoc. change (0 + 1) with 1. change (0 + 2) with 2.
      change (0 + 3) with 3.
      rewrite !Hread by lia.
      cbn [channel Z.eqb Pos.eqb of_read]. rewrite isBackgroundPixel_uniform.
      split; [by rewrite length_set|]. split.
      + intros j Hj. rewrite get_set_ne; [by apply Hrgb|].
        intros <-. by rewrite FrameFacts.alpha_index_mod in Hj.
      + intros p Hp. destruct (decide (p = k)) as [-> | Hne].
        * apply get_set_eq. rewrite Hlen, Hlo. lia.
        * rewrite get_set_ne by lia. apply Hdone. lia. }
  destruct Hinv as (_ & _ & Hdone).
  intros x y Hx Hy. cbn [width height data] in *. apply Hdone. nia.
Qed.

End Uniform.

(** Extra X17.  An image of a single colour is erased by the fast tier:
    the border samples give that colour's bucket as the only background
    colour, every pixel is within the distance threshold of it, and noise
    removal restores nothing, so every alpha of the output is 0.
    [Math.sqrt] is only assumed to stay below 40 up to 675 = 3 * 15^2. *)
Theorem removeBackground_erases_uniform_image (w h r g b al x y : Z) :
  1 <= w -> 1 <= h ->
  0 <= r <= 255 -> 0 <= g <= 255 -> 0 <= b <= 255 ->
  0 <= x < w -> 0 <= y < h ->
  get (data (removeBackground (uniformImage w h (r, g, b, al))))
      ((y * w + x) * 4 + 3) = Some 0.
Proof.
  intros Hw Hh Hr Hg Hb Hx Hy.
  pose proof (classification_uniform w h r g b al Hw Hh Hr Hg Hb) as Hc.
  cbv zeta in Hc. unfold removeBackground. cbv zeta.
  rewrite removeNoise_transparent; [by apply Hc | exact Hc].
Qed.

End WithMath.

Lemma ref_sqrt_small q : (0 <= q <= 675)%Q -> (ref_sqrt q < 40)%Q.
Proof.
  intros [H0 H1]. unfold ref_sqrt.
  assert (Hf : Qfloor (q * inject_Z (2 ^ 60)) <= 675 * 2 ^ 60).
  { rewrite <- (Qfloor_Z (675 * 2 ^ 60)). apply Qfloor_resp_le.
    rewrite inject_Z_mult. apply Qmult_le_compat_r; [done | by vm_compute]. }
  assert (Hs : Z.sqrt (Qfloor (q * inject_Z (2 ^ 60))) <= Z.sqrt (675 * 2 ^ 60))
    by (by apply Z.sqrt_le_mono).
  assert (Hc : Z.sqrt (675 * 2 ^ 60) < 40 * 1073741824) by (by vm_compute).
  unfold Qlt. cbn [Qnum Qden]. lia.
Qed.

End UniformFacts.

(** [removeBackground_erases_uniform_image] for the corner of a 3x3 red
    image. *)
Lemma removeBackground_erases_uniform_image_witness :
  JS.get (data (@CanvasProcessor.removeBackground refMath
                  (uniformImage 3 3 (200, 30, 30, 255))))
         ((0 * 3 + 0) * 4 + 3) = Some 0.
Proof.
  apply (@UniformFacts.removeBackground_erases_uniform_image refMath
           UniformFacts.ref_sqrt_small 3 3 200 30 30 255 0 0); lia.
Defined.

(** ** Colour counts *)

Module ColorFacts.
Import JS LoopFacts ArrayFacts WriteFacts ImageFacts ComplexityFacts.
Import ImageAnalyzer.

Lemma size_list_to_set_le (l : list colorKey) :
  (base.size (list_to_set l : gset colorKey) <= length l)%nat.
Proof.
  induction l as [|k l IH]; [by rewrite list_to_set_nil, size_empty|].
  rewrite list_to_set_cons, size_union_alt, size_singleton. cbn [length].
  assert ((base.size (list_to_set l ∖ {[k]} : gset colorKey)
           <= base.size (list_to_set l : gset colorKey))%nat)
    by (apply subseteq_size; set_solver).
  lia.
Qed.

Lemma elem_of_allBuckets r g b :
  0 <= r <= 255 -> 0 <= g <= 255 -> 0 <= b <= 255 ->
  (quantize 32 (Some r), quantize 32 (Some g), quantize 32 (Some b)) ∈ allBuckets.
Proof.
  intros Hr Hg Hb. unfold allBuckets, quantize. cbn [fmap option_fmap option_map].
  assert (Hq : forall v, 0 <= v <= 255 -> 0 <= v / 32 < 8).
  { intros v Hv. split; [apply Z.div_pos; lia | apply Z.div_lt_upper_bound; lia]. }
  apply list_elem_of_bind. exists (r / 32). split; [|apply elem_of_seqZ; pose proof (Hq r Hr); lia].
  apply list_elem_of_bind. exists (g / 32). split; [|apply elem_of_seqZ; pose proof (Hq g Hg); lia].
  apply list_elem_of_bind. exists (b / 32). split; [|apply elem_of_seqZ; pose proof (Hq b Hb); lia].
  by left.
Qed.

(** Extra X18.  The colour variance of a non-empty image is a number
    between 1/512 and 1: its pixels fall in at least one and at most 512
    buckets of the 32-level quantisation. *)
Theorem colorVariance_bounds (img : ImageData) :
  wf_image img -> bytes (data img) -> 0 < width img * height img ->
  exists q, calculateColorVariance img = Fin q /\ (1 # 512 <= q <= 1)%Q.
Proof.
  intros (Hw & Hh & Hlen) Hb Hpos.
  rewrite calculateColorVariance_dom, div_Fin_pos by lia.
  rewrite Hlen.
  replace ((4 * (width img * height img) - 0 + 4 - 1) / 4)
    with (width img * height img) by (apply Z.div_unique with 3; lia).
  set (keys := pixelKey (data img) <$> _).
  set (S := list_to_set keys : gset colorKey).
  assert (Hkey : forall k, 0 <= k < width img * height img ->
            pixelKey (data img) (0 + k * 4) ∈ allBuckets).
  { intros k Hk. unfold pixelKey.
    assert (Hrd : forall c, 0 <= c < 3 ->
              exists v, get (data img) (0 + k * 4 + c) = Some v /\ 0 <= v <= 255).
    { intros c Hc. destruct (get_is_Some (data img) (0 + k * 4 + c)) as [v Hv]; [lia|].
      exists v. split; [done|]. by eapply get_bytes. }
    destruct (Hrd 0) as (r & Hr & Hr'); [lia|]. rewrite Z.add_0_r in Hr.
    destruct (Hrd 1) as (g & Hg & Hg'); [lia|].
    destruct (Hrd 2) as (b & Hbl & Hbl'); [lia|].
    rewrite Hr, Hg, Hbl. by apply elem_of_allBuckets. }
  assert (Hup : (base.size S <= 512)%nat).
  { transitivity (base.size (list_to_set allBuckets : gset colorKey)).
    - apply subseteq_size. subst S keys. intros k Hk.
      apply elem_of_list_to_set, list_elem_of_fmap in Hk as (i & -> & Hi).
      apply list_elem_of_fmap in Hi as (j & -> & Hj). apply elem_of_seqZ in Hj.
      apply elem_of_list_to_set, Hkey. lia.
    - etransitivity; [apply size_list_to_set_le|]. by vm_compute. }
  assert (Hlo : (1 <= base.size S)%nat).
  { assert (Hin : pixelKey (data img) (0 + 0 * 4) ∈ S).
    { subst S keys. apply elem_of_list_to_set, list_elem_of_fmap.
      exists (0 + 0 * 4). split; [done|]. apply list_elem_of_fmap.
      exists 0. split; [done|]. apply elem_of_seqZ. lia. }
    destruct (decide (base.size S = 0%nat)) as [Hz | ?]; [|lia].
    apply size_empty_inv in Hz. set_solver. }
  eexists. split; [reflexivity|].
  assert (H1 : (inject_Z 1 <= inject_Z (Z.of_nat (base.size S)))%Q)
    by (rewrite <- Zle_Qle; lia).
  assert (H2 : (inject_Z (Z.of_nat (base.size S)) <= inject_Z 512)%Q)
    by (rewrite <- Zle_Qle; lia).
  change (inject_Z 1) with 1%Q in H1. change (inject_Z 512) with 512%Q in H2.
  unfold Qdiv. change (/ inject_Z (8 * 8 * 8))%Q with (1 # 512)%Q. lra.
Qed.

End ColorFacts.

(** [colorVariance_bounds] at [noiseSample]. *)
Lemma colorVariance_bounds_witness :
  exists q, ImageAnalyzer.calculateColorVariance noiseSample = JS.Fin q /\
            (1 # 512 <= q <= 1)%Q.
Proof.
  apply ColorFacts.colorVariance_bounds;
    [apply NoiseTheorems.noiseSample_wf | apply NoiseTheorems.noiseSample_bytes
     | by vm_compute].
Defined.

(** ** The background colours are the most frequent border buckets *)

Module BackgroundFacts.
Import JS LoopFacts ArrayFacts CanvasProcessor.

Section Counts.
Context {K : Type} `{EqDecision K}.

Lemma countOf_elem (m : list (K * Z)) k c :
  NoDup m.*1 -> (k, c) ∈ m -> countOf m k = c.
Proof.
  induction m as [|[k' c'] m IH]; intros Hnd Hin; [by apply elem_of_nil in Hin|].
  cbn [fmap list_fmap fst] in Hnd. apply NoDup_cons in Hnd as [Hk' Hnd].
  cbn [countOf]. apply elem_of_cons in Hin as [[= -> ->] | Hin].
  - by rewrite decide_True.
  - rewrite decide_False; [by apply IH|].
    intros ->. apply Hk'. apply list_elem_of_fmap. by exists (k, c).
Qed.

Lemma countOf_found (m : list (K * Z)) k :
  countOf m k <> 0 -> (k, countOf m k) ∈ m.
Proof.
  induction m as [|[k' c'] m IH]; intros Hc; [done|].
  cbn [countOf] in *. destruct (decide (k' = k)) as [-> | Hne]; [by left|].
  right. by apply IH.
Qed.

Lemma bump_keys (k : K) m :
  (bump k m).*1 = if decide (k ∈ m.*1) then m.*1 else m.*1 ++ [k].
Proof.
  induction m as [|[k' c] m IH]; [done|].
  cbn [bump fmap list_fmap fst].
  destruct (decide (k = k')) as [-> | Hne].
  - rewrite decide_True by (by left). done.
  - cbn [fmap list_fmap fst]. rewrite IH.
    destruct (decide (k ∈ m.*1)) as [Hin | Hout].
    + rewrite decide_True by (by right). done.
    + rewrite decide_False; [done|]. intros Hin.
      apply elem_of_cons in Hin as [? | ?]; done.
Qed.

Lemma bump_count (k : K) m k' :
  countOf (bump k m) k' = countOf m k' + (if decide (k = k') then 1 else 0).
Proof.
  induction m as [|[k0 c] m IH].
  - cbn [bump countOf]. destruct (decide _); lia.
  - cbn [bump]. destruct (decide (k = k0)) as [-> | Hne].
    + cbn [countOf]. destruct (decide (k0 = k')); lia.
    + cbn [countOf]. rewrite IH.
      destruct (decide (k0 = k')) as [-> | ?]; [|done].
      rewrite decide_False by done. lia.
Qed.

Lemma bump_NoDup (k : K) m : NoDup m.*1 -> NoDup (bump k m).*1.
Proof.
  intros Hnd. rewrite bump_keys. destruct (decide _); [done|].
  apply NoDup_app. split; [done|]. split; [|apply NoDup_singleton].
  intros x Hx Hx'. apply list_elem_of_singleton in Hx' as ->. done.
Qed.

Lemma bump_pos (k : K) m :
  Forall (fun e => 0 < e.2) m -> Forall (fun e => 0 < e.2) (bump k m).
Proof.
  induction m as [|[k' c] m IH]; intros Hm.
  - cbn. by repeat constructor.
  - apply Forall_cons in Hm as [Hc Hm]. cbn [bump snd] in *.
    destruct (decide _); constructor; cbn [snd]; auto with lia.
Qed.

(** The map after counting a list of keys. *)
Lemma count_fold (keys : list K) :
  let m := foldl (fun m k => bump k m) [] keys in
  NoDup m.*1 /\ Forall (fun e => 0 < e.2) m /\
  (forall k, countOf m k = Z.of_nat (length (filter (fun k' => k' = k) keys))).
Proof.
  cbv zeta. induction keys as [|k0 keys IH] using rev_ind.
  { split; [apply NoDup_nil_2|]. split; [constructor | done]. }
  rewrite foldl_app. cbn [foldl].
  set (m := foldl _ [] keys) in *. destruct IH as (Hnd & Hpos & Hcount).
  split; [by apply bump_NoDup|]. split; [by apply bump_pos|].
  intros k. rewrite bump_count, Hcount, filter_app, length_app.
  rewrite filter_cons, filter_nil.
  destruct (decide (k0 = k)); cbn [length]; lia.
Qed.

(** The stable sort by decreasing count. *)
Lemma insert_desc_perm (x : K * Z) l : insert_desc x l ≡ₚ x :: l.
Proof.
  induction l as [|y l IH]; [done|]. cbn [insert_desc].
  destruct (_ <? _); [|done]. rewrite IH. apply Permutation_swap.
Qed.

Lemma sort_desc_perm (l : list (K * Z)) : sort_desc l ≡ₚ l.
Proof.
  unfold sort_desc. induction l as [|x l IH]; [done|].
  cbn [foldr]. rewrite insert_desc_perm. by rewrite IH.
Qed.

Lemma descending_cons (x : K * Z) l :
  descending (x :: l) <-> (forall y, y ∈ l -> y.2 <= x.2) /\ descending l.
Proof.
  split.
  - intros Hd. split.
    + intros y Hy. apply list_elem_of_lookup in Hy as [j Hj].
      by apply (Hd 0%nat (S j) x y); [lia | |].
    + intros i j a b Hij Ha Hb. by apply (Hd (S i) (S j) a b); [lia | |].
  - intros [Hx Hd] i j a b Hij Ha Hb.
    destruct i as [|i], j as [|j]; cbn in Ha, Hb.
    + injection Ha as <-. injection Hb as <-. lia.
    + injection Ha as <-. apply Hx. by eapply list_elem_of_lookup_2.
    + lia.
    + apply (Hd i j a b); [lia | done | done].
Qed.

Lemma insert_desc_descending (x : K * Z) l :
  descending l -> descending (insert_desc x l).
Proof.
  induction l as [|y l IH]; intros Hd.
  - cbn. apply descending_cons. split; [|done]. intros y Hy. by apply elem_of_nil in Hy.
  - cbn [insert_desc]. apply descending_cons in Hd as [Hy Hd].
    destruct (Z.ltb_spec x.2 y.2) as [Hlt | Hge].
    + apply descending_cons. split; [|by apply IH].
      intros z Hz. rewrite insert_desc_perm in Hz.
      apply elem_of_cons in Hz as [-> | Hz]; [lia | by apply Hy].
    + apply descending_cons. split.
      * intros z Hz. apply elem_of_cons in Hz as [-> | Hz]; [done|].
        specialize (Hy z Hz). lia.
      * apply descending_cons. by split.
Qed.

Lemma sort_desc_descending (l : list (K * Z)) : descending (sort_desc l).
Proof.
  unfold sort_desc. induction l as [|x l IH].
  - intros i j a b _ Ha. done.
  - cbn [foldr]. by apply insert_desc_descending.
Qed.

Lemma foldl_keys {A : Type} (key : A -> K) (l : list A) (m : list (K * Z)) :
  foldl (fun m p => bump (key p) m) m l = foldl (fun m k => bump k m) m (key <$> l).
Proof. revert m. induction l as [|p l IH]; intros m; [done|]. cbn. apply IH. Qed.

End Counts.

Section WithMath.
Context `{JSMath}.

Lemma detectBackgroundColors_sorted img :
  detectBackgroundColors img
  = color_of_key <$>
      (take 3 (sort_desc (foldl (fun m k => bump k m) [] (borderKeys img)))).*1.
Proof.
  unfold detectBackgroundColors, borderKeys. cbv zeta.
  rewrite <- foldl_keys, <- list_fmap_compose.
  match goal with
  | |- _ <$> take 3 (sort_desc (foldl ?F1 [] ?pts))
       = _ <$> take 3 (sort_desc (foldl ?F2 [] _)) =>
      assert (HF : forall l m, foldl F1 m l = foldl F2 m l)
        by (induction l as [|[x y] l IH]; intros m; [done | cbn [foldl]; apply IH]);
      rewrite HF
  end.
  apply list_fmap_ext. by intros i [k c] _.
Qed.

(** Extra X19.  The background colours are the up to three most frequent
    16-level buckets among the border samples: they are distinct buckets
    that were sampled, no bucket left out was sampled more often than one
    that is returned, and with fewer than three colours returned every
    sampled bucket is returned. *)
Theorem detectBackgroundColors_most_frequent (img : ImageData) :
  exists ks,
    detectBackgroundColors img = color_of_key <$> ks /\
    (length ks <= 3)%nat /\ NoDup ks /\
    (forall k, k ∈ ks -> 0 < sampleCount img k) /\
    (forall k k', k ∈ ks -> k' ∉ ks -> sampleCount img k' <= sampleCount img k) /\
    ((length ks < 3)%nat -> forall k', 0 < sampleCount img k' -> k' ∈ ks).
Proof.
  rewrite detectBackgroundColors_sorted.
  destruct (count_fold (borderKeys img)) as (Hnd & Hpos & Hcount).
  set (m := foldl _ [] (borderKeys img)) in *.
  pose proof (sort_desc_perm m) as Hperm.
  pose proof (sort_desc_descending m) as Hdesc.
  set (sorted := sort_desc m) in *.
  assert (Hnds : NoDup sorted.*1) by (by rewrite Hperm).
  assert (Hval : forall k c, (k, c) ∈ sorted -> c = sampleCount img k /\ 0 < c).
  { intros k c Hin. rewrite Hperm in Hin. split.
    - unfold sampleCount. rewrite <- Hcount. symmetry. by apply countOf_elem.
    - rewrite Forall_forall in Hpos. by apply (Hpos (k, c)). }
  assert (Hall : forall k, 0 < sampleCount img k -> (k, sampleCount img k) ∈ sorted).
  { intros k Hk. rewrite Hperm. unfold sampleCount in *. rewrite <- Hcount in *.
    apply countOf_found. lia. }
  exists (take 3 sorted).*1. split; [done|]. split; [|split; [|split; [|split]]].
  - rewrite length_fmap, length_take. lia.
  - rewrite fmap_take. eapply sublist_NoDup; [|apply sublist_take]. done.
  - intros k Hk. apply list_elem_of_fmap in Hk as ([k0 c] & -> & Hin). cbn [fst].
    apply elem_of_take in Hin as (i & Hi & _).
    destruct (Hval k0 c) as [<- Hc]; [by eapply list_elem_of_lookup_2 | done].
  - intros k k' Hk Hk'.
    apply list_elem_of_fmap in Hk as ([k0 c] & -> & Hin). cbn [fst].
    apply elem_of_take in Hin as (i & Hi & Hi3).
    destruct (Hval k0 c) as [Hc Hc0]; [by eapply list_elem_of_lookup_2|].
    destruct (decide (0 < sampleCount img k')) as [Hpos' | ?]; [|lia].
    pose proof (Hall k' Hpos') as Hin'.
    apply list_elem_of_lookup in Hin' as [j Hj].
    destruct (decide (j < 3)%nat) as [Hj3 | Hj3].
    + exfalso. apply Hk'. apply list_elem_of_fmap. exists (k', sampleCount img k').
      split; [done|]. apply elem_of_take. exists j. split; [done | lia].
    + rewrite <- Hc. apply (Hdesc i j (k0, c) (k', sampleCount img k')); [lia | done | done].
  - intros Hlen k' Hpos'. rewrite length_fmap, length_take in Hlen.
    rewrite take_ge by lia. apply list_elem_of_fmap.
    exists (k', sampleCount img k'). split; [done | by apply Hall].
Qed.

End WithMath.
End BackgroundFacts.

(** ** Edges of the two tiers, and the median filter *)

Module MedianFacts.
Import JS LoopFacts ArrayFacts WriteFacts ComplexityFacts.
Import MediaPipeProcessor.

(** Extra X20.  Every edge pixel of the balanced tier (a 4-neighbour whose
    alpha differs by more than 100) is an edge pixel of the precise tier
    (an 8-neighbour whose alpha differs by more than 50). *)
Theorem balanced_edges_are_precise_edges (x y : Z) (data : list Z) (w h : Z) :
  isEdgePixel x y data w h = true ->
  TensorFlowProcessor.isEdgePixel x y data w h = true.
Proof.
  unfold isEdgePixel, TensorFlowProcessor.isEdgePixel. intros Hedge.
  apply existsb_exists in Hedge as ([nx ny] & Hin & Hn).
  apply andb_prop in Hn as [Hb Hd].
  apply existsb_exists. exists (nx, ny). split.
  - unfold neighbors4 in Hin. unfold TensorFlowProcessor.neighbors8.
    cbn [In] in *. destruct Hin as [<- | [<- | [<- | [<- | []]]]]; auto 10.
  - apply andb_true_intro. split; [done|].
    revert Hd. unfold TensorFlowProcessor.alphaDiff, gt, lt, num.
    destruct (alphaDiff data x y nx ny w) as [d| | |]; try done.
    rewrite !negb_true_iff, !Qle_bool_false. intros Hd.
    apply Qlt_trans with (inject_Z 100); [reflexivity | done].
Qed.

Lemma insert_asc_perm v l : insert_asc v l ≡ₚ v :: l.
Proof.
  induction l as [|u l IH]; [done|]. cbn [insert_asc].
  destruct (_ <? _); [done|]. rewrite IH. apply Permutation_swap.
Qed.

Lemma sort_perm l : foldr insert_asc [] l ≡ₚ l.
Proof.
  induction l as [|v l IH]; [done|]. cbn [foldr].
  rewrite insert_asc_perm. by rewrite IH.
Qed.

Lemma ascending_cons x l :
  ascending (x :: l) <-> (forall y, y ∈ l -> x <= y) /\ ascending l.
Proof.
  split.
  - intros Hd. split.
    + intros y Hy. apply list_elem_of_lookup in Hy as [j Hj].
      by apply (Hd 0%nat (S j) x y); [lia | |].
    + intros i j a b Hij Ha Hb. by apply (Hd (S i) (S j) a b); [lia | |].
  - intros [Hx Hd] i j a b Hij Ha Hb.
    destruct i as [|i], j as [|j]; cbn in Ha, Hb.
    + injection Ha as <-. injection Hb as <-. lia.
    + injection Ha as <-. apply Hx. by eapply list_elem_of_lookup_2.
    + lia.
    + apply (Hd i j a b); [lia | done | done].
Qed.

Lemma insert_asc_ascending v l : ascending l -> ascending (insert_asc v l).
Proof.
  induction l as [|u l IH]; intros Hd.
  - cbn. apply ascending_cons. split; [|done]. intros y Hy. by apply elem_of_nil in Hy.
  - cbn [insert_asc]. apply ascending_cons in Hd as [Hu Hd].
    destruct (Z.ltb_spec v u) as [Hlt | Hge].
    + apply ascending_cons. split.
      * intros z Hz. apply elem_of_cons in Hz as [-> | Hz]; [lia|].
        specialize (Hu z Hz). lia.
      * apply ascending_cons. by split.
    + apply ascending_cons. split; [|by apply IH].
      intros z Hz. rewrite insert_asc_perm in Hz.
      apply elem_of_cons in Hz as [-> | Hz]; [lia | by apply Hu].
Qed.

Lemma sort_ascending l : ascending (foldr insert_asc [] l).
Proof.
  induction l as [|v l IH].
  - intros i j a b _ Ha. done.
  - cbn [foldr]. by apply insert_asc_ascending.
Qed.

Lemma omap_id_Some (l : list (option Z)) :
  Forall is_Some l -> l = Some <$> omap id l.
Proof.
  induction 1 as [|o l [v ->] _ IH]; [done|]. cbn. by rewrite <- IH.
Qed.

Lemma medianFilter_writes img :
  data (medianFilter img)
  = apply_writes
      (seqZ 1 (height img - 1 - 1) ≫= fun y =>
       seqZ 1 (width img - 1 - 1) ≫= fun x =>
         medianStores (data img) (width img) x y) (data img).
Proof.
  unfold medianFilter. cbn [data]. by rewrite <- for_range2_writes.
Qed.

(** Extra X21.  At a pixel with all eight neighbours in the image the
    median filter stores the fifth smallest of the nine alphas of the 3x3
    window as they were before the filter ran (the loop reads a copy); every
    other pixel keeps its alpha. *)
Theorem medianFilter_stores_the_median (img : ImageData) (x y : Z) :
  wf_image img -> bytes (data img) ->
  0 <= x < width img -> 0 <= y < height img ->
  let index := (y * width img + x) * 4 in
  if decide (1 <= x < width img - 1 /\ 1 <= y < height img - 1)
  then exists values sorted,
         window3 (data img) x y (width img) = Some <$> values /\
         sorted ≡ₚ values /\ ascending sorted /\
         get (data (medianFilter img)) (index + 3) = sorted !! 4%nat
  else get (data (medianFilter img)) (index + 3) = get (data img) (index + 3).
Proof.
  intros (Hw & Hh & Hlen) Hb Hx Hy index. rewrite medianFilter_writes.
  destruct (decide _) as [[Hx1 Hy1] | Hborder].
  - assert (Hsome : Forall is_Some (window3 (data img) x y (width img))).
    { apply Forall_forall. intros o Ho. unfold window3 in Ho.
      apply list_elem_of_bind in Ho as (dy & Ho & Hdy).
      apply list_elem_of_bind in Ho as (dx & Ho & Hdx).
      apply list_elem_of_singleton in Ho as ->.
      apply elem_of_seqZ in Hdx, Hdy.
      apply get_is_Some. rewrite Hlen. apply pixel_index_range; lia. }
    pose proof (omap_id_Some _ Hsome) as Hwin.
    set (values := omap id (window3 (data img) x y (width img))) in *.
    exists values, (foldr insert_asc [] values).
    split; [done|]. split; [apply sort_perm|]. split; [apply sort_ascending|].
    assert (Hlen9 : length values = 9%nat).
    { apply (f_equal length) in Hwin. rewrite length_fmap in Hwin.
      rewrite <- Hwin. reflexivity. }
    assert (Hsorted : sort_numbers (window3 (data img) x y (width img))
                      = Some <$> foldr insert_asc [] values).
    { unfold sort_numbers. fold values.
      replace (length (window3 (data img) x y (width img))) with 9%nat
        by reflexivity.
      rewrite Hlen9, Nat.sub_diag. cbn [replicate]. by rewrite app_nil_r. }
    assert (Hmed : exists v, foldr insert_asc [] values !! 4%nat = Some v /\
                             0 <= v <= 255).
    { destruct (lookup_lt_is_Some_2 (foldr insert_asc [] values) 4) as [v Hv].
      { rewrite (Permutation_length (sort_perm values)). lia. }
      exists v. split; [done|].
      assert (Hin : v ∈ values).
      { rewrite <- (sort_perm values). by eapply list_elem_of_lookup_2. }
      assert (Hin' : Some v ∈ window3 (data img) x y (width img)).
      { rewrite Hwin. apply list_elem_of_fmap. by exists v. }
      unfold window3 in Hin'.
      apply list_elem_of_bind in Hin' as (dy & Ho & _).
      apply list_elem_of_bind in Ho as (dx & Ho & _).
      apply list_elem_of_singleton in Ho. symmetry in Ho.
      by eapply get_bytes. }
    destruct Hmed as (v & Hv & Hbyte).
    assert (Hstore : medianStores (data img) (width img) x y = [(index + 3, v)]).
    { unfold medianStores. rewrite Hsorted, list_lookup_fmap, Hv.
      cbn [fmap option_fmap option_map mjoin option_join of_read].
      by rewrite toUint8Clamped_byte. }
    rewrite Hv. apply get_apply_writes_hit.
    + apply elem_of_writes2. exists x, y. split; [lia|]. split; [lia|].
      rewrite Hstore. by left.
    + intros v' Hv'. apply elem_of_writes2 in Hv' as (x' & y' & Hy' & Hx' & Hv').
      assert (Hsame : x' = x /\ y' = y).
      { unfold medianStores in Hv'. apply list_elem_of_singleton in Hv'.
        injection Hv' as Hidx _. subst index.
        apply pixel_index_inj in Hidx as (-> & -> & _); [done | lia..]. }
      destruct Hsame as [-> ->]. rewrite Hstore in Hv'.
      apply list_elem_of_singleton in Hv'. congruence.
    + rewrite Hlen. subst index. apply pixel_index_range; lia.
  - apply get_apply_writes_miss. intros v Hv.
    apply elem_of_writes2 in Hv as (x' & y' & Hy' & Hx' & Hv).
    unfold medianStores in Hv. apply list_elem_of_singleton in Hv.
    injection Hv as Hidx _. subst index.
    apply pixel_index_inj in Hidx as (-> & -> & _); [|lia..].
    apply Hborder. lia.
Qed.

End MedianFacts.

(** [balanced_edges_are_precise_edges] at the pixel (2,2) of [stripeSample]. *)
Lemma balanced_edges_are_precise_edges_witness :
  TensorFlowProcessor.isEdgePixel 2 2 (data stripeSample) 5 5 = true.
Proof.
  apply MedianFacts.balanced_edges_are_precise_edges. by vm_compute.
Defined.

(** [medianFilter_stores_the_median] at the centre of [noiseSample]. *)
Lemma medianFilter_stores_the_median_witness :
  exists values sorted,
    MediaPipeProcessor.window3 (data noiseSample) 1 1 3 = Some <$> values /\
    sorted ≡ₚ values /\ ascending sorted /\
    JS.get (data (MediaPipeProcessor.medianFilter noiseSample)) ((1 * 3 + 1) * 4 + 3)
      = sorted !! 4%nat.
Proof.
  exact (MedianFacts.medianFilter_stores_the_median noiseSample 1 1
           NoiseTheorems.noiseSample_wf NoiseTheorems.noiseSample_bytes
           ltac:(cbn; lia) ltac:(cbn; lia)).
Defined.

(** ** The fast tier never raises alpha *)

Module FastTierFacts.
Import JS LoopFacts ArrayFacts WriteFacts ComplexityFacts MaskFacts CanvasFacts.
Import CanvasProcessor.

Lemma notAbove_refl a : bytes a -> notAbove a a.
Proof.
  intros Hb j v Hv. exists v. split; [done|].
  pose proof (get_bytes _ _ _ Hb Hv). lia.
Qed.

(** Lowering one entry keeps the relation. *)
Lemma notAbove_set a out i v :
  length out = length a -> notAbove a out ->
  (forall u, get out i = Some u -> 0 <= v <= u) ->
  notAbove a (set out i v).
Proof.
  intros Hlen Hle Hv j u Hu.
  destruct (Hle j u Hu) as (u' & Hu' & Hb).
  destruct (decide (i = j)) as [-> | Hne].
  - exists v. split.
    + apply get_set_eq. apply get_Some in Hu. by rewrite Hlen.
    + specialize (Hv u' Hu'). lia.
  - exists u'. by rewrite get_set_ne.
Qed.

Section WithMath.
Context `{JSMath}.

(** The falloff near an edge only lowers the alpha. *)
Lemma falloff_le a d :
  0 <= a <= 255 -> lt d (num 3) = true ->
  0 <= toUint8Clamped
         (max (num 0) (sub (num a) (div (mul (num 50) (sub (num 3) d)) (num 3))))
    <= a.
Proof.
  intros Ha Hd. destruct d as [q| | |]; try done.
  - unfold sub, num. cbn [neg add mul]. unfold lt, num in Hd.
    apply negb_true_iff, Qle_bool_false in Hd. change (inject_Z 3) with 3%Q in *.
    assert (Hnz : Qeq_bool 3 0 = false) by done.
    unfold div. rewrite Hnz. cbn [neg add max lt].
    set (X := (inject_Z a + - (inject_Z 50 * (3 + - q) / 3))%Q).
    assert (HX : (X <= inject_Z a)%Q).
    { subst X. change (inject_Z 50) with 50%Q.
      assert (Hpos : (0 <= 50 * (3 + - q) / 3)%Q).
      { apply Qdiv_nonneg; [|reflexivity]. lra. }
      lra. }
    destruct (Qle_bool X (inject_Z 0)) eqn:Hneg; cbn [negb toUint8Clamped].
    + rewrite round_half_even_Z. unfold clamp8. lia.
    + apply Qle_bool_false in Hneg. change (inject_Z 0) with 0%Q in Hneg.
      pose proof (round_half_even_le X a HX).
      assert (0 <= round_half_even X) by (apply round_half_even_nonneg; lra).
      unfold clamp8. lia.
  - change (0 <= 0 <= a). lia.
Qed.

(** The classification loop keeps bytes and only lowers entries. *)
Lemma classification_notAbove img :
  bytes (data img) ->
  let out :=
    for_step 0 (Z.of_nat (length (data img))) 4 (fun i d =>
      let pixelIndex := i / 4 in
      let x := pixelIndex mod width img in
      let y := pixelIndex / width img in
      let r := of_read (get d i) in
      let g := of_read (get d (i + 1)) in
      let b := of_read (get d (i + 2)) in
      if isBackgroundPixel r g b (detectBackgroundColors img) (createEdgeMap img)
           x y (width img) (height img)
      then set d (i + 3) 0
      else
        let edgeDistance :=
          getEdgeDistance x y (createEdgeMap img) (width img) (height img) in
        if lt edgeDistance (num 3)
        then store d (i + 3)
               (max (num 0)
                    (sub (of_read (get d (i + 3)))
                         (div (mul (num 50) (sub (num 3) edgeDistance)) (num 3))))
        else d) (data img) in
  bytes out /\ length out = length (data img) /\ notAbove (data img) out.
Proof.
  intros Hb. cbv zeta.
  apply (for_step_ind (fun d =>
           bytes d /\ length d = length (data img) /\ notAbove (data img) d));
    [lia | by split; [|split; [|apply notAbove_refl]] |].
  intros i d _ _ (Hbd & Hlen & Hle).
  destruct (isBackgroundPixel _ _ _ _ _ _ _ _ _).
  - split; [apply bytes_set; [done | lia]|]. split; [by rewrite length_set|].
    apply notAbove_set; [done | done |]. intros u Hu.
    pose proof (get_bytes _ _ _ Hbd Hu). lia.
  - destruct (lt _ _) eqn:Hnear; [|done].
    split; [by apply bytes_store|]. split; [by rewrite length_store|].
    unfold store. apply notAbove_set; [done | done |]. intros u Hu.
    rewrite Hu. cbn [of_read]. apply falloff_le; [by eapply get_bytes | done].
Qed.

(** Extra X22.  The fast tier never raises an entry: every byte of the
    output of [removeBackground] is at most the byte of the input at the
    same place (alpha is lowered or kept; R, G and B are kept). *)
Theorem removeBackground_never_raises_alpha (img : ImageData) :
  bytes (data img) ->
  notAbove (data img) (data (removeBackground img)).
Proof.
  intros Hb. destruct (classification_notAbove img Hb) as (Hbo & Hlen & Hle).
  cbv zeta in Hbo, Hlen, Hle. unfold removeBackground. cbv zeta.
  match goal with
  | |- notAbove _ (data (removeNoise ?mid)) =>
      intros j v Hv; destruct (Hle j v Hv) as (v' & Hv' & Hbound);
      destruct (removeNoise_cases mid j Hbo) as [Hk | [Hk _]]; rewrite Hk
  end.
  - exists v'. by split.
  - exists 0. split; [done | lia].
Qed.

End WithMath.
End FastTierFacts.

(** [removeBackground_never_raises_alpha] at [noiseSample]. *)
Lemma removeBackground_never_raises_alpha_witness :
  notAbove (data noiseSample)
           (data (@CanvasProcessor.removeBackground refMath noiseSample)).
Proof.
  exact (@FastTierFacts.removeBackground_never_raises_alpha refMath noiseSample
           NoiseTheorems.noiseSample_bytes).
Defined.

(** ** Applying the DeepLab mask *)

Module DeepLabFacts.
Import JS LoopFacts ArrayFacts WriteFacts ComplexityFacts MaskFacts TensorFlowMask.

(** The smoothness factor is one of four constants, none of them 0. *)
Lemma calculateEdgeSmoothness_values i maskData w h :
  exists f, calculateEdgeSmoothness i maskData w h = Fin f /\ (1 # 5 <= f <= 1)%Q.
Proof.
  unfold calculateEdgeSmoothness. cbv zeta.
  repeat (destruct (lt _ _); [eexists; split; [reflexivity|]; split; by vm_compute|]).
  eexists; split; [reflexivity|]; split; by vm_compute.
Qed.

(** Rounding is within one half. *)
Lemma round_half_even_ge q : (q - (1 # 2) <= inject_Z (round_half_even q))%Q.
Proof.
  unfold round_half_even. cbv zeta.
  pose proof (Qlt_floor q) as Hup.
  destruct (Qle_bool _ _) eqn:Hle.
  - apply Qle_bool_iff in Hle.
    destruct (Qeq_bool _ _); [destruct (Z.even _)|];
      first [lra | rewrite inject_Z_plus; change (inject_Z 1) with 1%Q; lra].
  - first [lra | rewrite inject_Z_plus; change (inject_Z 1) with 1%Q; lra].
Qed.

Lemma smoothedAlpha_bounds maskData w h i a :
  0 <= a <= 255 ->
  0 <= smoothedAlpha maskData w h i a <= a /\
  (lt (of_read (get maskData i)) (num 128) = false ->
   a <= 5 * smoothedAlpha maskData w h i a + 2).
Proof.
  intros Ha. unfold smoothedAlpha. destruct (lt _ _); [split; [lia | done]|].
  destruct (calculateEdgeSmoothness_values i maskData w h) as (f & -> & Hf).
  assert (Ha0 : (0 <= inject_Z a)%Q)
    by (change 0%Q with (inject_Z 0); rewrite <- Zle_Qle; lia).
  assert (Ha1 : (inject_Z a <= 255)%Q)
    by (change 255%Q with (inject_Z 255); rewrite <- Zle_Qle; lia).
  assert (Hprod : (inject_Z a * (1 # 5) <= inject_Z a * f <= inject_Z a)%Q).
  { split.
    - rewrite !(Qmult_comm (inject_Z a)). apply Qmult_le_compat_r; [apply Hf | done].
    - assert (Hle : (f * inject_Z a <= 1 * inject_Z a)%Q)
        by (apply Qmult_le_compat_r; [apply Hf | done]).
      rewrite Qmult_1_l in Hle. by rewrite Qmult_comm. }
  unfold num. cbn [mul min lt].
  destruct (Qle_bool (inject_Z 255) (inject_Z a * f)) eqn:Hbig; cbn [negb].
  - apply Qle_bool_iff in Hbig. cbn [toUint8Clamped].
    rewrite round_half_even_Z. unfold clamp8.
    assert (H255 : (inject_Z 255 <= inject_Z a)%Q) by lra.
    rewrite <- Zle_Qle in H255. lia.
  - cbn [toUint8Clamped]. unfold clamp8.
    pose proof (round_half_even_le (inject_Z a * f) a (proj2 Hprod)) as Hup.
    assert (Hnn : 0 <= round_half_even (inject_Z a * f))
      by (apply round_half_even_nonneg; lra).
    pose proof (round_half_even_ge (inject_Z a * f)) as Hlo.
    split; [lia|]. intros _.
    rewrite Z.max_r, Z.min_r by lia.
    assert (Hq : (inject_Z a <= inject_Z (5 * round_half_even (inject_Z a * f) + 3))%Q).
    { rewrite inject_Z_plus, inject_Z_mult.
      change (inject_Z 5) with 5%Q. change (inject_Z 3) with 3%Q. lra. }
    rewrite <- Zle_Qle in Hq.
    assert (Hstrict : (inject_Z a < inject_Z (5 * round_half_even (inject_Z a * f) + 3))%Q).
    { rewrite inject_Z_plus, inject_Z_mult.
      change (inject_Z 5) with 5%Q. change (inject_Z 3) with 3%Q. lra. }
    rewrite <- Zlt_Qlt in Hstrict. lia.
Qed.

Lemma applyDeepLabMask_pointwise maskData w h orig :
  let out := applyDeepLabMask maskData w h orig in
  length out = length orig /\
  (forall j, j mod 4 <> 3 -> get out j = get orig j) /\
  (forall p, 0 <= p ->
     get out (p * 4 + 3)
     = smoothedAlpha maskData w h (p * 4) <$> get orig (p * 4 + 3)).
Proof.
  intros out. subst out. unfold applyDeepLabMask.
  rewrite for_step_as_range.
  set (n := (Z.of_nat (length orig) - 0 + 4 - 1) / 4).
  assert (Hn : 0 <= n) by (subst n; apply Z.div_pos; lia).
  set (out := for_range 0 n _ orig).
  assert (Hinv : length out = length orig /\
            (forall j, j mod 4 <> 3 -> get out j = get orig j) /\
            (forall p, n <= p -> get out (p * 4 + 3) = get orig (p * 4 + 3)) /\
            (forall p, 0 <= p < n ->
               get out (p * 4 + 3)
               = smoothedAlpha maskData w h (p * 4) <$> get orig (p * 4 + 3))).
  { subst out.
    apply (for_range_ind_idx (fun k d =>
      length d = length orig /\
      (forall j, j mod 4 <> 3 -> get d j = get orig j) /\
      (forall p, k <= p -> get d (p * 4 + 3) = get orig (p * 4 + 3)) /\
      (forall p, 0 <= p < k ->
         get d (p * 4 + 3)
         = smoothedAlpha maskData w h (p * 4) <$> get orig (p * 4 + 3))));
      [done | |].
    - split; [done|]. split; [done|]. split; [done|]. intros p Hp. lia.
    - intros k d Hk (Hlen & Hrgb & Hrest & Hdone).
      replace (0 + k * 4) with (k * 4) by lia.
      set (v := if lt (of_read (get maskData (k * 4))) (num 128) then 0
                else toUint8Clamped
                       (min (num 255)
                          (mul (of_read (get d (k * 4 + 3)))
                               (calculateEdgeSmoothness (k * 4) maskData w h)))).
      assert (Hbody : (if lt (of_read (get maskData (k * 4))) (num 128)
                       then set d (k * 4 + 3) 0
                       else store d (k * 4 + 3)
                              (min (num 255)
                                 (mul (of_read (get d (k * 4 + 3)))
                                      (calculateEdgeSmoothness (k * 4) maskData w h))))
                      = set d (k * 4 + 3) v).
      { subst v. unfold store. by destruct (lt _ _). }
      rewrite Hbody. split; [by rewrite length_set|]. split; [|split].
      + intros j Hj. rewrite get_set_ne; [by apply Hrgb|].
        intros <-. by rewrite FrameFacts.alpha_index_mod in Hj.
      + intros p Hp. rewrite get_set_ne by lia. apply Hrest. lia.
      + intros p Hp. destruct (decide (p = k)) as [-> | Hne].
        * rewrite get_set_fmap, (Hrest k) by lia.
          subst v. rewrite (Hrest k) by lia. unfold smoothedAlpha.
          by destruct (get orig (k * 4 + 3)).
        * rewrite get_set_ne by lia. apply Hdone. lia. }
  destruct Hinv as (Hlen & Hrgb & Hrest & Hdone).
  split; [done|]. split; [done|]. intros p Hp.
  destruct (decide (p < n)) as [Hlt | Hge]; [apply Hdone; lia|].
  rewrite Hrest by lia.
  rewrite (get_None orig); [done|]. subst n.
  pose proof (Z.div_mod (Z.of_nat (length orig) - 0 + 4 - 1) 4).
  pose proof (Z.mod_pos_bound (Z.of_nat (length orig) - 0 + 4 - 1) 4). lia.
Qed.

(** Extra X23.  Writing the DeepLab mask into the alpha channel keeps R, G
    and B, never raises an alpha, and clears the alpha of every pixel whose
    mask value is below 128; the alpha of any other pixel stays at least
    about a fifth of what it was (the smoothness factor is never below 0.2),
    so it is cleared only if it was at most 2. *)
Theorem applyDeepLabMask_alpha (maskData : list Z) (w h : Z) (data : list Z) :
  bytes data ->
  let out := applyDeepLabMask maskData w h data in
  length out = length data /\
  (forall j, j mod 4 <> 3 -> get out j = get data j) /\
  (forall p a, 0 <= p -> get data (p * 4 + 3) = Some a ->
     exists a', get out (p * 4 + 3) = Some a' /\ 0 <= a' <= a /\
       (if lt (of_read (get maskData (p * 4))) (num 128)
        then a' = 0 else a <= 5 * a' + 2)).
Proof.
  intros Hb out. subst out.
  destruct (applyDeepLabMask_pointwise maskData w h data) as (Hlen & Hrgb & Halpha).
  split; [done|]. split; [done|]. intros p a Hp Ha.
  rewrite Halpha, Ha by done. cbn [fmap option_fmap option_map].
  eexists. split; [reflexivity|].
  destruct (smoothedAlpha_bounds maskData w h (p * 4) a) as [Hle Hge];
    [by eapply get_bytes|].
  split; [done|].
  destruct (lt (of_read (get maskData (p * 4))) (num 128)) eqn:Hbg.
  - unfold smoothedAlpha. by rewrite Hbg.
  - by apply Hge.
Qed.

End DeepLabFacts.

(** [applyDeepLabMask_alpha] with [noiseSample] as image and mask. *)
Lemma applyDeepLabMask_alpha_witness :
  let out := TensorFlowMask.applyDeepLabMask (data noiseSample) 3 3 (data noiseSample) in
  length out = length (data noiseSample) /\
  (forall j, j mod 4 <> 3 -> JS.get out j = JS.get (data noiseSample) j) /\
  (forall p a, 0 <= p -> JS.get (data noiseSample) (p * 4 + 3) = Some a ->
     exists a', JS.get out (p * 4 + 3) = Some a' /\ 0 <= a' <= a /\
       (if JS.lt (JS.of_read (JS.get (data noiseSample) (p * 4))) (JS.num 128)
        then a' = 0 else a <= 5 * a' + 2)).
Proof.
  exact (DeepLabFacts.applyDeepLabMask_alpha (data noiseSample) 3 3
           (data noiseSample) NoiseTheorems.noiseSample_bytes).
Defined.

(** ** Instances *)

(** [edge_density_of_uniform_image] for a 3x3 image. *)
Lemma edge_density_of_uniform_image_witness :
  JS.eq (@ImageAnalyzer.calculateEdgeDensity refMath (uniformImage 3 3 (10, 20, 30, 255)))
        (JS.num 0) = true.
Proof.
  apply (@AnalyzerFacts.edge_density_of_uniform_image refMath 3 3 (10, 20, 30, 255)
           ref_sqrt_le_30); try lia.
  intros c Hc. assert (Hcs : c = 0 \/ c = 1 \/ c = 2 \/ c = 3) by lia.
  destruct Hcs as [-> | [-> | [-> | ->]]]; cbn; lia.
Defined.

(** [degenerate_image_scores_NaN] for an image two pixels wide in which a
    human was detected. *)
Lemma degenerate_image_scores_NaN_witness :
  let img := uniformImage 2 5 (10, 20, 30, 255) in
  @ImageAnalyzer.calculateEdgeDensity refMath img = JS.NaN /\
  @ImageAnalyzer.calculateComplexity refMath img = JS.NaN /\
  BackgroundRemovalApp.getRecommendedMode
    (BackgroundRemovalApp.mkAnalysis true
       (@ImageAnalyzer.calculateComplexity refMath img) JS.NaN JS.NaN)
    = BackgroundRemovalApp.balanced.
Proof.
  intros img.
  apply (@AnalyzerFacts.degenerate_image_scores_NaN refMath img true JS.NaN JS.NaN).
  by left.
Defined.

(** [complexity_in_unit_interval] at the opaque 3x3 image. *)
Lemma complexity_in_unit_interval_witness :
  exists Y, @ImageAnalyzer.calculateComplexity refMath opaque3 = JS.Fin Y /\
            (0 <= Y <= 1)%Q.
Proof.
  apply (@AnalyzerFacts.complexity_in_unit_interval refMath opaque3); cbn; lia.
Defined.

(** [removeNoise_clears_or_keeps] at [noiseSample]. *)
Lemma removeNoise_clears_or_keeps_witness :
  let out := data (CanvasProcessor.removeNoise noiseSample) in
  (forall j, JS.get out j = JS.get (data noiseSample) j \/
             (j mod 4 = 3 /\ JS.get out j = Some 0)) /\
  (forall x y c,
     0 <= x < width noiseSample -> 0 <= c < 4 ->
     ~ (1 <= x < width noiseSample - 1 /\ 1 <= y < height noiseSample - 1) ->
     JS.get out ((y * width noiseSample + x) * 4 + c)
       = JS.get (data noiseSample) ((y * width noiseSample + x) * 4 + c)).
Proof.
  exact (CanvasFacts.removeNoise_clears_or_keeps noiseSample
           NoiseTheorems.noiseSample_bytes).
Defined.

(** [applyMask_never_raises_alpha] with [noiseSample] as image and mask. *)
Lemma applyMask_never_raises_alpha_witness :
  let out := MediaPipeMask.applyMask (data noiseSample) 3 3 (data noiseSample) in
  length out = length (data noiseSample) /\
  (forall j, j mod 4 <> 3 -> JS.get out j = JS.get (data noiseSample) j) /\
  (forall p a, 0 <= p -> JS.get (data noiseSample) (p * 4 + 3) = Some a ->
     exists a', JS.get out (p * 4 + 3) = Some a' /\ 0 <= a' <= a /\
       (JS.lt (JS.of_read (JS.get (data noiseSample) (p * 4))) (JS.num 128) = true ->
        a' = 0)).
Proof.
  exact (MaskFacts.applyMask_never_raises_alpha (data noiseSample) 3 3
           (data noiseSample) NoiseTheorems.noiseSample_bytes).
Defined.

(** [applyMask_foreground_mask] with a white 3x3 mask on [noiseSample]. *)
Lemma applyMask_foreground_mask_witness :
  MediaPipeMask.applyMask (data (uniformImage 3 3 (255, 255, 255, 255)))
    (width noiseSample) (height noiseSample) (data noiseSample)
  = data noiseSample.
Proof.
  apply (MaskFacts.applyMask_foreground_mask noiseSample);
    [apply NoiseTheorems.noiseSample_wf | apply NoiseTheorems.noiseSample_bytes |].
  intros x y Hx Hy. cbn in Hx, Hy.
  assert (Hc : x = 0 \/ x = 1 \/ x = 2) by lia.
  assert (Hr : y = 0 \/ y = 1 \/ y = 2) by lia.
  destruct Hc as [-> | [-> | ->]], Hr as [-> | [-> | ->]]; by vm_compute.
Defined.

(* ===================================================================== *)
(** * Part IV.  The two post-processing chains, stage by stage           *)
(* ===================================================================== *)

(** ** The two chains, stage by stage *)

Module StageFacts.
Import JS LoopFacts ArrayFacts WriteFacts.

(** A loop over the pixels at least [m] away from the sides that stores a
    new alpha where a test holds is a stage. *)
Lemma stage_of_stores m (R : ImageData -> Z -> Z -> Z -> Prop) src
    (c : Z -> Z -> bool) (val : Z -> Z -> jsnum) :
  wf_image src -> 0 <= m ->
  (forall x y, 0 <= x < width src -> 0 <= y < height src -> inside m src x y ->
     if c x y then R src x y (toUint8Clamped (val x y))
     else forall v, alphaAt (data src) (width src) x y = Some v -> R src x y v) ->
  stage m R src
    (mkImageData (width src) (height src)
       (for_range m (height src - m) (fun y =>
          for_range m (width src - m) (fun x a =>
            if c x y then store a ((y * width src + x) * 4 + 3) (val x y) else a))
          (data src))).
Proof.
  intros (Hw & Hh & Hlen) Hm HR.
  set (w := width src) in *. set (h := height src) in *.
  set (g := fun x y => if c x y
                       then [((y * w + x) * 4 + 3, toUint8Clamped (val x y))] else []).
  assert (Hloop : for_range m (h - m) (fun y => for_range m (w - m) (fun x a =>
             if c x y then store a ((y * w + x) * 4 + 3) (val x y) else a)) (data src)
           = apply_writes (seqZ m (h - m - m) ≫= fun y =>
                           seqZ m (w - m - m) ≫= fun x => g x y) (data src)).
  { rewrite <- for_range2_writes. apply for_range_ext. intros y a1 _.
    apply for_range_ext. intros x a2 _. unfold g. by destruct (c x y). }
  rewrite Hloop. clear Hloop.
  set (W := seqZ m (h - m - m) ≫= _).
  assert (HW : forall j v, (j, v) ∈ W ->
            exists x y, inside m src x y /\ c x y = true /\
              j = (y * w + x) * 4 + 3 /\ v = toUint8Clamped (val x y)).
  { intros j v Hin. subst W. apply elem_of_writes2 in Hin as (x & y & Hy & Hx & Hin).
    exists x, y. unfold g in Hin. destruct (c x y); [|by apply elem_of_nil in Hin].
    apply list_elem_of_singleton in Hin. injection Hin as -> ->.
    split; [split; fold w h; lia | done]. }
  split; [done|]. split; [done|]. cbn [data width height]. split.
  { split; [apply length_apply_writes|]. intros j Hj.
    apply get_apply_writes_miss. intros v Hv.
    apply HW in Hv as (x & y & _ & _ & -> & _). apply Hj.
    apply FrameFacts.alpha_index_mod. }
  intros x y Hx Hy.
  assert (Hidx : 0 <= (y * w + x) * 4 + 3 < Z.of_nat (length (data src))).
  { rewrite Hlen. apply pixel_index_range; lia. }
  destruct (get_is_Some (data src) _ Hidx) as [v0 Hv0].
  assert (Hsame : forall x' y', inside m src x' y' ->
            (y' * w + x') * 4 + 3 = (y * w + x) * 4 + 3 -> x' = x /\ y' = y).
  { intros x' y' [Hx' Hy'] Heq. fold w h in Hx', Hy'.
    apply pixel_index_inj in Heq as (-> & -> & _); [done | lia..]. }
  unfold alphaAt.
  destruct (decide (inside m src x y)) as [Hin | Hout].
  - specialize (HR x y Hx Hy Hin). destruct (c x y) eqn:Hc.
    + exists (toUint8Clamped (val x y)). split; [|by split].
      apply get_apply_writes_hit; [| |by rewrite Hlen in *].
      * subst W. apply elem_of_writes2. exists x, y.
        destruct Hin as [Hx' Hy']. fold w h in Hx', Hy'.
        split; [lia|]. split; [lia|]. unfold g. rewrite Hc. by left.
      * intros v' Hv'. apply HW in Hv' as (x' & y' & Hin' & _ & Heq & ->).
        symmetry in Heq. by destruct (Hsame x' y' Hin' Heq) as [-> ->].
    + exists v0. split; [|split; [intros _; by apply HR | done]].
      rewrite get_apply_writes_miss; [done|]. intros v Hv.
      apply HW in Hv as (x' & y' & Hin' & Hc' & Heq & _).
      symmetry in Heq. destruct (Hsame x' y' Hin' Heq) as [-> ->]. congruence.
  - exists v0. split; [|by split].
    rewrite get_apply_writes_miss; [done|]. intros v Hv.
    apply HW in Hv as (x' & y' & Hin' & _ & Heq & _).
    symmetry in Heq. by destruct (Hsame x' y' Hin' Heq) as [-> ->].
Qed.

End StageFacts.

Module WindowFacts.
Import JS LoopFacts ArrayFacts WriteFacts StageFacts MediaPipeProcessor.

Lemma stage_wf m R src out : wf_image src -> stage m R src out -> wf_image out.
Proof.
  intros (Hw & Hh & Hlen) (Hw' & Hh' & [Hl _] & _).
  unfold wf_image. rewrite Hw', Hh', Hl. done.
Qed.

(** The loops of the stages store bytes. *)
Lemma stores_bytes lo hi lo' hi' (c : Z -> Z -> bool) (i : Z -> Z -> Z)
    (val : Z -> Z -> jsnum) a :
  bytes a ->
  bytes (for_range lo hi (fun y => for_range lo' hi' (fun x a =>
           if c x y then store a (i x y) (val x y) else a)) a).
Proof.
  intros Ha. apply for_range_ind; [done|]. intros y a1 _ Ha1.
  apply for_range_ind; [done|]. intros x a2 _ Ha2.
  destruct (c x y); [by apply bytes_store | done].
Qed.

Lemma alpha_defined img x y :
  wf_image img -> 0 <= x < width img -> 0 <= y < height img ->
  get (data img) ((y * width img + x) * 4 + 3) = Some (alphaZ img x y).
Proof.
  intros (Hw & Hh & Hlen) Hx Hy. unfold alphaZ, alphaAt.
  destruct (get_is_Some (data img) ((y * width img + x) * 4 + 3)) as [v ->]; [|done].
  rewrite Hlen. apply pixel_index_range; lia.
Qed.

Lemma alphaZ_byte img x y :
  wf_image img -> bytes (data img) ->
  0 <= x < width img -> 0 <= y < height img -> 0 <= alphaZ img x y <= 255.
Proof.
  intros Hwf Hb Hx Hy. eapply get_bytes; [done|]. by apply alpha_defined.
Qed.

(** The window the code reads is the window of the nine alphas. *)
Lemma window3_alphas img x y :
  wf_image img -> inside 1 img x y ->
  window3 (data img) x y (width img) = Some <$> windowAlphas img x y.
Proof.
  intros Hwf [Hx Hy]. unfold window3, windowAlphas, square.
  change (seqZ (- (1)) (2 * 1 + 1)) with [-1; 0; 1].
  change (seqZ (-1) 3) with [-1; 0; 1].
  cbn [mbind list_bind fmap list_fmap app fst snd].
  by rewrite !alpha_defined by (done || lia).
Qed.

Lemma windowAlphas_bytes img x y :
  wf_image img -> bytes (data img) -> inside 1 img x y ->
  Forall (fun v => 0 <= v <= 255) (windowAlphas img x y).
Proof.
  intros Hwf Hb [Hx Hy]. unfold windowAlphas. apply Forall_fmap, Forall_forall.
  intros [dx dy] Hd. unfold square in Hd.
  apply list_elem_of_bind in Hd as (dy' & Hd & Hdy).
  apply list_elem_of_fmap in Hd as (dx' & [= -> ->] & Hdx).
  apply elem_of_seqZ in Hdx, Hdy. unfold compose. cbn [fst snd].
  apply alphaZ_byte; [done | done | lia | lia].
Qed.

Lemma omap_id_fmap_Some (l : list Z) : omap id (Some <$> l) = l.
Proof. induction l as [|v l IH]; [done|]. cbn. by rewrite IH. Qed.

Lemma sort_numbers_defined (values : list Z) :
  sort_numbers (Some <$> values) = Some <$> foldr insert_asc [] values.
Proof.
  unfold sort_numbers. rewrite omap_id_fmap_Some, length_fmap, Nat.sub_diag.
  cbn [replicate]. by rewrite app_nil_r.
Qed.

(** The median filter, as a stage. *)
Lemma medianFilter_stage img :
  wf_image img -> bytes (data img) -> medianStage img (medianFilter img).
Proof.
  intros Hwf Hb.
  refine (stage_of_stores 1 _ img (fun _ _ => true)
            (fun x y => of_read (mjoin (sort_numbers
                          (window3 (data img) x y (width img)) !! 4%nat)))
            Hwf _ _); [lia|].
  intros x y Hx Hy Hin. cbv beta.
  rewrite window3_alphas, sort_numbers_defined, list_lookup_fmap by done.
  set (values := windowAlphas img x y).
  pose proof (windowAlphas_bytes img x y Hwf Hb Hin) as Hvalues. fold values in Hvalues.
  destruct (lookup_lt_is_Some_2 (foldr insert_asc [] values) 4) as [v Hv].
  { rewrite (Permutation_length (MedianFacts.sort_perm values)).
    unfold values, windowAlphas. rewrite length_fmap.
    change (length (square 1)) with 9%nat. lia. }
  rewrite Hv. cbn [fmap option_fmap option_map mjoin option_join of_read].
  assert (Hbyte : 0 <= v <= 255).
  { rewrite Forall_forall in Hvalues. apply Hvalues.
    rewrite <- (MedianFacts.sort_perm values). by eapply list_elem_of_lookup_2. }
  rewrite toUint8Clamped_byte by done.
  exists (foldr insert_asc [] values).
  split; [apply MedianFacts.sort_perm|]. split; [apply MedianFacts.sort_ascending | done].
Qed.

Lemma min_num a b : min (num a) (num b) = num (Z.min a b).
Proof.
  unfold min, lt, num. destruct (Qle_bool (inject_Z a) (inject_Z b)) eqn:Hle; cbn [negb].
  - apply Qle_bool_iff in Hle. rewrite <- Zle_Qle in Hle. by rewrite Z.min_l.
  - apply ComplexityFacts.Qle_bool_false in Hle. rewrite <- Zlt_Qlt in Hle.
    by rewrite Z.min_r by lia.
Qed.

Lemma max_num a b : max (num a) (num b) = num (Z.max a b).
Proof.
  unfold max, lt, num. destruct (Qle_bool (inject_Z b) (inject_Z a)) eqn:Hle; cbn [negb].
  - apply Qle_bool_iff in Hle. rewrite <- Zle_Qle in Hle. by rewrite Z.max_l.
  - apply ComplexityFacts.Qle_bool_false in Hle. rewrite <- Zlt_Qlt in Hle.
    by rewrite Z.max_r by lia.
Qed.

Lemma fold_extreme (op : jsnum -> jsnum -> jsnum) (zop : Z -> Z -> Z) init values :
  (forall a b, op (num a) (num b) = num (zop a b)) ->
  foldl (fun acc v => op acc (of_read v)) (num init) (Some <$> values)
  = num (foldl zop init values).
Proof.
  intros Hop. revert init. induction values as [|v l IH]; intros init; [done|].
  cbn [fmap list_fmap foldl of_read]. by rewrite Hop, IH.
Qed.

Lemma foldl_min_spec init values :
  let m := foldl Z.min init values in
  m <= init /\ (forall u, u ∈ values -> m <= u) /\ (m = init \/ m ∈ values).
Proof.
  revert init. induction values as [|v l IH]; intros init; cbn [foldl].
  - split; [lia|]. split; [|by left]. intros u Hu. by apply elem_of_nil in Hu.
  - destruct (IH (Z.min init v)) as (Hle & Hall & Hin).
    split; [lia|]. split.
    + intros u Hu. apply elem_of_cons in Hu as [-> | Hu]; [lia | by apply Hall].
    + destruct Hin as [Heq | Hin]; [|right; by right].
      destruct (Z.min_spec init v) as [[_ Hm] | [_ Hm]].
      * left. congruence.
      * right. rewrite Heq, Hm. by left.
Qed.

Lemma foldl_max_spec init values :
  let m := foldl Z.max init values in
  init <= m /\ (forall u, u ∈ values -> u <= m) /\ (m = init \/ m ∈ values).
Proof.
  revert init. induction values as [|v l IH]; intros init; cbn [foldl].
  - split; [lia|]. split; [|by left]. intros u Hu. by apply elem_of_nil in Hu.
  - destruct (IH (Z.max init v)) as (Hle & Hall & Hin).
    split; [lia|]. split.
    + intros u Hu. apply elem_of_cons in Hu as [-> | Hu]; [lia | by apply Hall].
    + destruct Hin as [Heq | Hin]; [|right; by right].
      destruct (Z.max_spec init v) as [[_ Hm] | [_ Hm]].
      * right. rewrite Heq, Hm. by left.
      * left. congruence.
Qed.

Lemma windowAlphas_centre img x y : alphaZ img x y ∈ windowAlphas img x y.
Proof.
  unfold windowAlphas. apply list_elem_of_fmap. exists (0, 0).
  cbn [fst snd]. rewrite !Z.add_0_r. split; [done|].
  unfold square. change (seqZ (- (1)) (2 * 1 + 1)) with [-1; 0; 1].
  cbn [mbind list_bind fmap list_fmap app]. set_solver.
Qed.

(** The two passes of the morphological open, as stages. *)
Lemma erosion_stage img :
  wf_image img -> bytes (data img) ->
  erosionStage img
    (mkImageData (width img) (height img)
       (morph_pass min 255 (data img) (width img) (height img) (data img))).
Proof.
  intros Hwf Hb.
  refine (stage_of_stores 1 _ img (fun _ _ => true)
            (fun x y => foldl (fun acc v => min acc (of_read v)) (num 255)
                          (window3 (data img) x y (width img)))
            Hwf _ _); [lia|].
  intros x y Hx Hy Hin. cbv beta.
  rewrite window3_alphas, (fold_extreme min Z.min) by (done || apply min_num).
  pose proof (windowAlphas_bytes img x y Hwf Hb Hin) as Hvalues.
  rewrite Forall_forall in Hvalues.
  pose proof (windowAlphas_centre img x y) as Hc.
  destruct (foldl_min_spec 255 (windowAlphas img x y)) as (Hle & Hall & Hm).
  set (m := foldl Z.min 255 (windowAlphas img x y)) in *.
  assert (Hbyte : 0 <= m <= 255).
  { split; [|done]. destruct Hm as [-> | Hm]; [lia | by apply Hvalues]. }
  rewrite toUint8Clamped_byte by done. split; [|done].
  destruct Hm as [Hm | Hm]; [|done].
  pose proof (Hall _ Hc). pose proof (Hvalues _ Hc).
  replace m with (alphaZ img x y) by lia. done.
Qed.

Lemma dilation_stage img :
  wf_image img -> bytes (data img) ->
  dilationStage img
    (mkImageData (width img) (height img)
       (morph_pass max 0 (data img) (width img) (height img) (data img))).
Proof.
  intros Hwf Hb.
  refine (stage_of_stores 1 _ img (fun _ _ => true)
            (fun x y => foldl (fun acc v => max acc (of_read v)) (num 0)
                          (window3 (data img) x y (width img)))
            Hwf _ _); [lia|].
  intros x y Hx Hy Hin. cbv beta.
  rewrite window3_alphas, (fold_extreme max Z.max) by (done || apply max_num).
  pose proof (windowAlphas_bytes img x y Hwf Hb Hin) as Hvalues.
  rewrite Forall_forall in Hvalues.
  pose proof (windowAlphas_centre img x y) as Hc.
  destruct (foldl_max_spec 0 (windowAlphas img x y)) as (Hle & Hall & Hm).
  set (m := foldl Z.max 0 (windowAlphas img x y)) in *.
  assert (Hbyte : 0 <= m <= 255).
  { split; [done|]. destruct Hm as [-> | Hm]; [lia | by apply Hvalues]. }
  rewrite toUint8Clamped_byte by done. split; [|done].
  destruct Hm as [Hm | Hm]; [|done].
  pose proof (Hall _ Hc). pose proof (Hvalues _ Hc).
  replace m with (alphaZ img x y) by lia. done.
Qed.

End WindowFacts.

Module FeatherStageFacts.
Import JS LoopFacts ArrayFacts WriteFacts StageFacts WindowFacts.

Lemma abs_sub_num a b : abs (sub (num a) (num b)) = num (Z.abs (a - b)).
Proof.
  unfold sub, neg, add, abs, num, inject_Z, Qabs, Qplus, Qopp. cbn [Qnum Qden].
  f_equal. f_equal. lia.
Qed.

Lemma gt_num a b : gt (num a) (num b) = bool_decide (b < a).
Proof.
  unfold gt, lt, num. destruct (Qle_bool (inject_Z a) (inject_Z b)) eqn:Hle; cbn [negb].
  - apply Qle_bool_iff in Hle. rewrite <- Zle_Qle in Hle.
    symmetry. apply bool_decide_eq_false. lia.
  - apply ComplexityFacts.Qle_bool_false in Hle. rewrite <- Zlt_Qlt in Hle.
    symmetry. by apply bool_decide_eq_true.
Qed.

Section Jumps.
Variables (img : ImageData) (x y : Z).
Hypothesis Hwf : wf_image img.
Hypothesis Hx : 0 <= x < width img.
Hypothesis Hy : 0 <= y < height img.

Lemma in_bounds_decide nx ny :
  MediaPipeProcessor.in_bounds nx ny (width img) (height img)
  = bool_decide (0 <= nx < width img /\ 0 <= ny < height img).
Proof.
  unfold MediaPipeProcessor.in_bounds.
  destruct (bool_decide _) eqn:Hd.
  - apply bool_decide_eq_true in Hd.
    rewrite !andb_true_iff, !Z.leb_le, !Z.ltb_lt. lia.
  - apply bool_decide_eq_false in Hd. apply not_true_iff_false.
    rewrite !andb_true_iff, !Z.leb_le, !Z.ltb_lt. lia.
Qed.

Lemma alphaDiff_num nx ny :
  0 <= nx < width img -> 0 <= ny < height img ->
  MediaPipeProcessor.alphaDiff (data img) x y nx ny (width img)
  = num (Z.abs (alphaZ img x y - alphaZ img nx ny)).
Proof.
  intros Hnx Hny. unfold MediaPipeProcessor.alphaDiff. cbv zeta.
  rewrite !alpha_defined by done. cbn [of_read]. apply abs_sub_num.
Qed.

Lemma foldr_max_nonneg l : 0 <= foldr Z.max 0 l.
Proof. induction l as [|v l IH]; cbn [foldr]; lia. Qed.

(** The test of the code is the test on the largest jump. *)
Lemma existsb_edgeStrength (nbrs : Z -> Z -> list (Z * Z)) t :
  0 <= t ->
  existsb (fun '(nx, ny) =>
    MediaPipeProcessor.in_bounds nx ny (width img) (height img) &&
    gt (MediaPipeProcessor.alphaDiff (data img) x y nx ny (width img)) (num t))
    (nbrs x y)
  = bool_decide (t < edgeStrength nbrs img x y).
Proof.
  intros Ht. unfold edgeStrength, jumps.
  induction (nbrs x y) as [|[nx ny] l IH].
  - cbn. symmetry. apply bool_decide_eq_false. lia.
  - cbn [existsb mbind list_bind fst snd]. rewrite IH, in_bounds_decide.
    pose proof (foldr_max_nonneg
      (l ≫= fun n => if decide (0 <= n.1 < width img /\ 0 <= n.2 < height img)
                     then [Z.abs (alphaZ img x y - alphaZ img n.1 n.2)] else [])) as Hnn.
    destruct (decide (0 <= nx < width img /\ 0 <= ny < height img)) as [Hn | Hn].
    + rewrite bool_decide_eq_true_2 by done. cbn [andb app foldr].
      rewrite alphaDiff_num, gt_num by lia.
      destruct (bool_decide (t < Z.abs _)) eqn:H1; cbn [orb].
      * apply bool_decide_eq_true in H1. symmetry. apply bool_decide_eq_true. lia.
      * apply bool_decide_eq_false in H1.
        apply bool_decide_ext. lia.
    + rewrite bool_decide_eq_false_2 by done. cbn [andb orb app]. done.
Qed.

(** [calculateEdgeStrength] is the largest jump to an 8-neighbour. *)
Lemma calculateEdgeStrength_num :
  TensorFlowProcessor.calculateEdgeStrength x y (data img) (width img) (height img)
  = num (edgeStrength neighbours8 img x y).
Proof.
  unfold TensorFlowProcessor.calculateEdgeStrength, edgeStrength, jumps.
  change (TensorFlowProcessor.neighbors8 x y) with (neighbours8 x y).
  enough (Hgen : forall l a, 0 <= a ->
            foldl (fun maxDiff '(nx, ny) =>
               if TensorFlowProcessor.in_bounds nx ny (width img) (height img)
               then max maxDiff
                      (TensorFlowProcessor.alphaDiff (data img) x y nx ny (width img))
               else maxDiff) (num a) l
            = num (Z.max a (foldr Z.max 0
                (l ≫= fun n => if decide (0 <= n.1 < width img /\ 0 <= n.2 < height img)
                      then [Z.abs (alphaZ img x y - alphaZ img n.1 n.2)] else [])))).
  { rewrite (Hgen _ 0) by lia. f_equal. apply Z.max_r, foldr_max_nonneg. }
  induction l as [|[nx ny] l IH]; intros a Ha.
  - cbn. f_equal. lia.
  - cbn [foldl mbind list_bind fst snd].
    change (TensorFlowProcessor.in_bounds nx ny (width img) (height img))
      with (MediaPipeProcessor.in_bounds nx ny (width img) (height img)).
    rewrite in_bounds_decide.
    destruct (decide (0 <= nx < width img /\ 0 <= ny < height img)) as [Hn | Hn].
    + rewrite bool_decide_eq_true_2 by done. cbn [app foldr].
      change (TensorFlowProcessor.alphaDiff (data img) x y nx ny (width img))
        with (MediaPipeProcessor.alphaDiff (data img) x y nx ny (width img)).
      rewrite alphaDiff_num, max_num by lia. rewrite IH by lia. f_equal. lia.
    + rewrite bool_decide_eq_false_2 by done. cbn [app]. by apply IH.
Qed.

End Jumps.

Section WithMath.
Context `{JSMath}.

(** Two sums accumulated by two nested loops are the sums over the window,
    row by row. *)
Lemma for_range2_sums (f g : Z -> Z -> jsnum) lo hi a0 w0 :
  for_range lo hi (fun dy => for_range lo hi (fun dx '(a, w) =>
     (add a (f dx dy), add w (g dx dy)))) (a0, w0)
  = (foldl (fun s d => add s (f d.1 d.2)) a0
       (seqZ lo (hi - lo) ≫= fun dy => (fun dx => (dx, dy)) <$> seqZ lo (hi - lo)),
     foldl (fun s d => add s (g d.1 d.2)) w0
       (seqZ lo (hi - lo) ≫= fun dy => (fun dx => (dx, dy)) <$> seqZ lo (hi - lo))).
Proof.
  unfold for_range.
  assert (Hrow : forall dy l a w,
            foldl (fun (s : jsnum * jsnum) dx =>
                     (let '(a, w) := s in (add a (f dx dy), add w (g dx dy)))) (a, w) l
            = (foldl (fun s d => add s (f d.1 d.2)) a ((fun dx => (dx, dy)) <$> l),
               foldl (fun s d => add s (g d.1 d.2)) w ((fun dx => (dx, dy)) <$> l))).
  { intros dy l. induction l as [|dx l IH]; intros a w; [done|].
    cbn [foldl fmap list_fmap fst snd]. apply IH. }
  generalize (seqZ lo (hi - lo)) at 2 4 6. intros rows. revert a0 w0.
  induction rows as [|dy rows IH]; intros a0 w0; [done|].
  cbn [foldl mbind list_bind]. rewrite Hrow, IH. by rewrite !foldl_app.
Qed.

Lemma gaussianWeight_gaussian sigma dx dy :
  MediaPipeProcessor.gaussianWeight (Fin sigma) dx dy = gaussian sigma (dx, dy).
Proof. reflexivity. Qed.

(** The two sums of the feathering loops. *)
Lemma gaussianSums_square img x y r sigma :
  MediaPipeProcessor.gaussianSums (data img) x y (width img) r (Fin sigma)
  = (sumOver (fun d => mul (alphaNum img (x + d.1) (y + d.2)) (gaussian sigma d))
             (square r),
     sumOver (gaussian sigma) (square r)).
Proof.
  unfold MediaPipeProcessor.gaussianSums.
  rewrite (for_range2_sums
    (fun dx dy => mul (of_read (get (data img) (((y + dy) * width img + (x + dx)) * 4 + 3)))
                      (MediaPipeProcessor.gaussianWeight (Fin sigma) dx dy))
    (fun dx dy => MediaPipeProcessor.gaussianWeight (Fin sigma) dx dy)).
  replace (r + 1 - - r) with (2 * r + 1) by lia. reflexivity.
Qed.

(** The edge feathering of the balanced tier, as a stage. *)
Lemma edgeFeathering_stage img :
  wf_image img ->
  featherStage neighbours4 100 (fun _ => 1%Q) (fun _ => 2) img
    (MediaPipeProcessor.edgeFeathering img).
Proof.
  intros Hwf.
  assert (Hloop : MediaPipeProcessor.edgeFeathering img
    = mkImageData (width img) (height img)
        (for_range 2 (height img - 2) (fun y =>
           for_range 2 (width img - 2) (fun x a =>
             if MediaPipeProcessor.isEdgePixel x y (data img) (width img) (height img)
             then store a ((y * width img + x) * 4 + 3)
                    (weightedMean img (gaussian 1) 2 x y)
             else a)) (data img))).
  { unfold MediaPipeProcessor.edgeFeathering. cbv zeta. by f_equal. }
  rewrite Hloop. apply stage_of_stores; [done | lia |].
  intros x y Hx Hy Hin. cbv zeta.
  unfold MediaPipeProcessor.isEdgePixel.
  change (MediaPipeProcessor.neighbors4 x y) with (neighbours4 x y).
  rewrite (existsb_edgeStrength img x y Hwf Hx Hy neighbours4 100) by lia.
  destruct (decide (100 < edgeStrength neighbours4 img x y)) as [Hs | Hs].
  - by rewrite bool_decide_eq_true_2.
  - by rewrite bool_decide_eq_false_2.
Qed.

End WithMath.
End FeatherStageFacts.

Module PreciseStageFacts.
Import JS LoopFacts ArrayFacts WriteFacts StageFacts WindowFacts FeatherStageFacts.
Import TensorFlowProcessor.

Section WithMath.
Context `{JSMath}.

(** The bilateral filter, as a stage. *)
Lemma bilateralFilter_stage img :
  wf_image img -> bilateralStage img (bilateralFilter img).
Proof.
  intros Hwf.
  assert (Hloop : bilateralFilter img
    = mkImageData (width img) (height img)
        (for_range 5 (height img - 5) (fun y =>
           for_range 5 (width img - 5) (fun x a =>
             if true
             then store a ((y * width img + x) * 4 + 3)
                    (weightedMean img (bilateral img x y) 5 x y)
             else a)) (data img))).
  { unfold bilateralFilter. cbv zeta. by f_equal. }
  rewrite Hloop.
  apply (stage_of_stores 5 _ img (fun _ _ => true)
           (fun x y => weightedMean img (bilateral img x y) 5 x y)); [done | lia |].
  intros x y Hx Hy Hin. done.
Qed.

Lemma adaptive_radius s :
  50 < s -> Qceiling (adaptiveSigma s * inject_Z 2) = adaptiveRadius s.
Proof.
  intros Hs. unfold adaptiveSigma, adaptiveRadius.
  assert (HsQ : (50 < inject_Z s)%Q)
    by (change 50%Q with (inject_Z 50); by rewrite <- Zlt_Qlt).
  destruct (Z.ltb_spec s 100) as [Hlt | Hge].
  - set (q := (inject_Z s / inject_Z 50 * inject_Z 2)%Q).
    pose proof (Qle_ceiling q) as Hup. pose proof (Qceiling_lt q) as Hlo.
    assert (Hq : (q == inject_Z s * (1 # 25))%Q).
    { subst q. unfold Qdiv. change (/ inject_Z 50)%Q with (1 # 50)%Q.
      change (inject_Z 2) with 2%Q. ring. }
    clearbody q.
    destruct (Z.leb_spec s 75) as [H75 | H75].
    + assert (H1 : (inject_Z s <= 75)%Q)
        by (change 75%Q with (inject_Z 75); by rewrite <- Zle_Qle).
      assert (H2 : (inject_Z 2 < inject_Z (Qceiling q))%Q)
        by (change (inject_Z 2) with 2%Q; lra).
      assert (H3 : (inject_Z (Qceiling q - 1) < inject_Z 3)%Q)
        by (change (inject_Z 3) with 3%Q; lra).
      rewrite <- Zlt_Qlt in H2, H3. lia.
    + assert (H1 : (75 < inject_Z s)%Q)
        by (change 75%Q with (inject_Z 75); by rewrite <- Zlt_Qlt).
      assert (H0 : (inject_Z s < 100)%Q)
        by (change 100%Q with (inject_Z 100); by rewrite <- Zlt_Qlt).
      assert (H2 : (inject_Z 3 < inject_Z (Qceiling q))%Q)
        by (change (inject_Z 3) with 3%Q; lra).
      assert (H3 : (inject_Z (Qceiling q - 1) < inject_Z 4)%Q)
        by (change (inject_Z 4) with 4%Q; lra).
      rewrite <- Zlt_Qlt in H2, H3. lia.
  - destruct (Z.leb_spec s 75) as [H75 | H75]; [lia|]. done.
Qed.

(** For a pixel whose largest jump is above 50, the sums of the adaptive
    feathering are the sums of the Gaussian window of that sigma and
    radius. *)
Lemma adaptiveSums_square img x y :
  wf_image img -> 0 <= x < width img -> 0 <= y < height img ->
  let s := edgeStrength neighbours8 img x y in
  50 < s ->
  adaptiveSums (data img) x y (width img) (height img)
  = (sumOver (fun d => mul (alphaNum img (x + d.1) (y + d.2))
                           (gaussian (adaptiveSigma s) d))
             (square (adaptiveRadius s)),
     sumOver (gaussian (adaptiveSigma s)) (square (adaptiveRadius s))).
Proof.
  intros Hwf Hx Hy s Hs. unfold adaptiveSums. cbv zeta.
  rewrite (calculateEdgeStrength_num img x y Hwf Hx Hy). fold s.
  rewrite ComplexityFacts.div_Fin_pos by lia.
  assert (Hsigma : max (Fin (1 # 2)) (min (num 2) (Fin (inject_Z s / inject_Z 50)))
                   = Fin (adaptiveSigma s)).
  { assert (HsQ : (50 < inject_Z s)%Q)
      by (change 50%Q with (inject_Z 50); by rewrite <- Zlt_Qlt).
    unfold adaptiveSigma, num, min, max, lt.
    destruct (Z.ltb_spec s 100) as [Hlt | Hge].
    - assert (H0 : (inject_Z s < 100)%Q)
        by (change 100%Q with (inject_Z 100); by rewrite <- Zlt_Qlt).
      assert (Hq : (1 < inject_Z s / inject_Z 50 < 2)%Q).
      { unfold Qdiv. change (/ inject_Z 50)%Q with (1 # 50)%Q. lra. }
      destruct (Qle_bool (inject_Z 2) _) eqn:H2.
      { apply Qle_bool_iff in H2. change (inject_Z 2) with 2%Q in H2. lra. }
      cbn [negb].
      destruct (Qle_bool (inject_Z s / inject_Z 50) (1 # 2)) eqn:H3; [|done].
      apply Qle_bool_iff in H3. lra.
    - assert (H0 : (100 <= inject_Z s)%Q)
        by (change 100%Q with (inject_Z 100); by rewrite <- Zle_Qle).
      assert (Hq : (2 <= inject_Z s / inject_Z 50)%Q).
      { unfold Qdiv. change (/ inject_Z 50)%Q with (1 # 50)%Q. lra. }
      destruct (Qle_bool (inject_Z 2) _) eqn:H2.
      2:{ apply ComplexityFacts.Qle_bool_false in H2.
          change (inject_Z 2) with 2%Q in H2. lra. }
      cbn [negb]. done. }
  rewrite Hsigma.
  assert (Hceil : ceil (mul (Fin (adaptiveSigma s)) (num 2))
                  = Fin (inject_Z (adaptiveRadius s))).
  { rewrite <- (adaptive_radius s Hs). reflexivity. }
  rewrite Hceil. cbv iota beta. rewrite Qfloor_Z.
  apply gaussianSums_square.
Qed.

(** The adaptive feathering of the precise tier, as a stage. *)
Lemma edgeOptimization_stage img :
  wf_image img ->
  featherStage neighbours8 50 adaptiveSigma adaptiveRadius img (edgeOptimization img).
Proof.
  intros Hwf.
  assert (Hloop : edgeOptimization img
    = mkImageData (width img) (height img)
        (for_range 2 (height img - 2) (fun y =>
           for_range 2 (width img - 2) (fun x a =>
             if isEdgePixel x y (data img) (width img) (height img)
             then store a ((y * width img + x) * 4 + 3)
                    (weightedMean img
                       (gaussian (adaptiveSigma (edgeStrength neighbours8 img x y)))
                       (adaptiveRadius (edgeStrength neighbours8 img x y)) x y)
             else a)) (data img))).
  { unfold edgeOptimization. cbv zeta. f_equal.
    apply for_range_ext. intros y a1 Hy. apply for_range_ext. intros x a2 Hx.
    destruct (isEdgePixel x y (data img) (width img) (height img)) eqn:Hedge; [|done].
    unfold isEdgePixel in Hedge.
    change (neighbors8 x y) with (neighbours8 x y) in Hedge.
    change in_bounds with MediaPipeProcessor.in_bounds in Hedge.
    change alphaDiff with MediaPipeProcessor.alphaDiff in Hedge.
    rewrite (existsb_edgeStrength img x y Hwf ltac:(lia) ltac:(lia) neighbours8 50)
      in Hedge by lia.
    apply bool_decide_eq_true in Hedge.
    rewrite adaptiveSums_square by (done || lia). done. }
  rewrite Hloop. apply stage_of_stores; [done | lia |].
  intros x y Hx Hy Hin. cbv zeta.
  unfold isEdgePixel.
  change (neighbors8 x y) with (neighbours8 x y).
  change in_bounds with MediaPipeProcessor.in_bounds.
  change alphaDiff with MediaPipeProcessor.alphaDiff.
  rewrite (existsb_edgeStrength img x y Hwf Hx Hy neighbours8 50) by lia.
  destruct (decide (50 < edgeStrength neighbours8 img x y)) as [Hs | Hs].
  - by rewrite bool_decide_eq_true_2.
  - by rewrite bool_decide_eq_false_2.
Qed.

End WithMath.

(** Small-region pruning, as a stage. *)
Lemma pruning_stage img :
  wf_image img ->
  exists out, connectedComponentAnalysis img = Some out /\ pruningStage img out.
Proof.
  intros (Hw & Hh & Hlen).
  set (w := width img) in *. set (h := height img) in *.
  destruct (ComponentFacts.findComponents_spec (data img) w h Hw Hh ltac:(lia))
    as (V & comps & Hfind & Hcomps & Hall).
  unfold connectedComponentAnalysis. fold w h. rewrite Hfind.
  cbn [mbind option_bind]. cbv zeta. rewrite ComponentFacts.prune_writes.
  eexists. split; [reflexivity|].
  unfold pruningStage, stage. cbn [width height data]. fold w h.
  set (W := comps ≫= zeroStores w h).
  assert (HW : forall j v, (j, v) ∈ W <->
            exists c i, c ∈ comps /\ i ∈ c /\ j = i * 4 + 3 /\ v = 0 /\
              smallComponent (Z.of_nat (length c)) w h).
  { intros j v. subst W. rewrite list_elem_of_bind. unfold zeroStores. split.
    - intros (c & Hj & Hc). destruct (lt _ _) eqn:Hsmall; [|by apply elem_of_nil in Hj].
      apply list_elem_of_fmap in Hj as (i & [= -> ->] & Hi).
      exists c, i. repeat split; try done. by apply ComponentFacts.lt_minComponentSize.
    - intros (c & i & Hc & Hi & -> & -> & Hsmall). exists c. split; [|done].
      apply ComponentFacts.lt_minComponentSize in Hsmall. rewrite Hsmall.
      apply list_elem_of_fmap. by exists i. }
  split; [done|]. split; [done|]. split.
  { split; [apply length_apply_writes|]. intros j Hj.
    apply get_apply_writes_miss. intros v Hv.
    apply HW in Hv as (c & i & _ & _ & -> & _). apply Hj.
    rewrite Z.add_comm, Z.mod_add by lia. done. }
  intros x y Hx Hy. set (p := (x, y)).
  assert (Hp : inImage w h p) by done.
  assert (Hidx : 0 <= (y * w + x) * 4 + 3 < Z.of_nat (length (data img))).
  { rewrite Hlen. apply pixel_index_range; lia. }
  destruct (get_is_Some (data img) _ Hidx) as [v0 Hv0].
  assert (Hkeep : (forall c, c ∈ comps -> pixelIndex w p ∈ c ->
               ~ smallComponent (Z.of_nat (length c)) w h) ->
            alphaAt (apply_writes W (data img)) w x y = Some v0).
  { intros Hno. unfold alphaAt. rewrite get_apply_writes_miss; [done|]. intros v Hv.
    apply HW in Hv as (c & i & Hc & Hi & Hj & _ & Hsmall).
    assert (i = pixelIndex w p) as -> by (unfold pixelIndex, p; cbn [fst snd]; lia).
    by apply (Hno c). }
  assert (Hzero : forall c, c ∈ comps -> pixelIndex w p ∈ c ->
            smallComponent (Z.of_nat (length c)) w h ->
            alphaAt (apply_writes W (data img)) w x y = Some 0).
  { intros c Hc Hi Hsmall. unfold alphaAt. apply get_apply_writes_hit; [| |done].
    - apply HW. exists c, (pixelIndex w p). by repeat split.
    - intros v' Hv'. apply HW in Hv'. by destruct Hv' as (_ & _ & _ & _ & _ & -> & _). }
  destruct (foreground (data img) (pixelIndex w p)) eqn:Hfg.
  - assert (Hfgp : fgPixel (data img) w h p) by done.
    destruct (Hall p Hfgp) as (c & Hc & Hi).
    destruct (PruningFacts.component_exists (data img) w h c p (Hcomps c Hc) Hp Hi)
      as (comp0 & Hcomp0).
    assert (Hlength : forall c' comp, c' ∈ comps -> pixelIndex w p ∈ c' ->
              componentOf (data img) w h p comp -> length comp = length c').
    { intros c' comp Hc' Hi' Hcomp.
      by apply (PruningFacts.component_length (data img) w h c' p comp (Hcomps c' Hc')). }
    destruct (decide (Z.of_nat (length c) < 50 \/ 1000 * Z.of_nat (length c) < w * h))
      as [Hsmall | Hbig].
    + exists 0. split; [by apply (Hzero c)|]. split; [|intros Hout; exfalso; apply Hout; split; lia].
      intros _. split; [done|]. intros _. split; [by exists comp0|].
      intros comp Hcomp. split; [done|]. intros Hno. exfalso. apply Hno.
      by rewrite (Hlength c comp Hc Hi Hcomp).
    + exists v0. split; [|split; [|intros Hout; exfalso; apply Hout; split; lia]].
      * apply Hkeep. intros c' Hc' Hi'.
        rewrite <- (Hlength c' comp0 Hc' Hi' Hcomp0), (Hlength c comp0 Hc Hi Hcomp0). done.
      * intros _. split; [done|]. intros _. split; [by exists comp0|].
        intros comp Hcomp. split; [|done]. intros Hs. exfalso. apply Hbig.
        by rewrite <- (Hlength c comp Hc Hi Hcomp).
  - assert (Hnfg : ~ fgPixel (data img) w h p) by (intros [_ Hf]; congruence).
    exists v0. split; [|split; [|intros Hout; exfalso; apply Hout; split; lia]].
    + apply Hkeep. intros c Hc Hi.
      by destruct (PruningFacts.component_member (data img) w h c p (Hcomps c Hc) Hp Hi).
    + intros _. split; [done|]. intros Hf. done.
Qed.

End PreciseStageFacts.

Module ChainStageFacts.
Import JS LoopFacts ArrayFacts WriteFacts StageFacts WindowFacts.
Import FeatherStageFacts PreciseStageFacts.

Lemma medianFilter_bytes img :
  bytes (data img) -> bytes (data (MediaPipeProcessor.medianFilter img)).
Proof.
  intros Hb. unfold MediaPipeProcessor.medianFilter. cbn [data].
  apply for_range_ind; [done|]. intros y a1 _ Ha1.
  apply for_range_ind; [done|]. intros x a2 _ Ha2. by apply bytes_store.
Qed.

Lemma morph_pass_bytes op init src w h a :
  bytes a -> bytes (MediaPipeProcessor.morph_pass op init src w h a).
Proof.
  intros Hb. unfold MediaPipeProcessor.morph_pass.
  apply for_range_ind; [done|]. intros y a1 _ Ha1.
  apply for_range_ind; [done|]. intros x a2 _ Ha2. by apply bytes_store.
Qed.

Section WithMath.
Context `{JSMath}.

(** Claim C2, amended.  On every well-formed byte mask the balanced tier
    applies, in this order, the 3x3 median filter, the 3x3 erosion and the
    3x3 dilation of a morphological open, and an edge feathering whose
    pixels are those at least 2 away from the sides with a jump of alpha
    above 100 to a 4-neighbour, smoothed with sigma 1 and radius 2; it has
    no pruning stage.  The precise tier always returns, and applies the
    bilateral filter (radius 5, sigmas 5 and 50), then the pruning of small
    4-connected components, then an edge feathering whose pixels are those
    with a jump above 50 to an 8-neighbour, smoothed with sigma
    min(2, jump/50) and radius 3 or 4.  Every stage keeps the size and the
    R, G and B entries.  The two chains are different functions: the
    balanced tier returns the opaque 3x3 mask unchanged and the precise tier
    returns it fully transparent. *)
Theorem postProcess_stage_by_stage (img : ImageData) :
  wf_image img -> bytes (data img) ->
  (exists filtered eroded opened,
     medianStage img filtered /\
     erosionStage filtered eroded /\
     dilationStage eroded opened /\
     featherStage neighbours4 100 (fun _ => 1%Q) (fun _ => 2) opened
       (MediaPipeProcessor.postProcessSegmentation img)) /\
  (exists smoothed pruned out,
     TensorFlowProcessor.postProcessSegmentation img = Some out /\
     bilateralStage img smoothed /\
     pruningStage smoothed pruned /\
     featherStage neighbours8 50 adaptiveSigma adaptiveRadius pruned out) /\
  MediaPipeProcessor.postProcessSegmentation opaque3 = opaque3 /\
  TensorFlowProcessor.postProcessSegmentation opaque3 = Some transparent3.
Proof.
  intros Hwf Hb.
  split; [|split; [|split; [apply ChainFacts.opaque3_balanced
                           | apply ChainFacts.opaque3_precise]]].
  - set (filtered := MediaPipeProcessor.medianFilter img).
    pose proof (medianFilter_stage img Hwf Hb) as Hmedian. fold filtered in Hmedian.
    assert (Hwf1 : wf_image filtered) by (by eapply stage_wf).
    assert (Hb1 : bytes (data filtered)) by (by apply medianFilter_bytes).
    pose proof (erosion_stage filtered Hwf1 Hb1) as Herode.
    set (eroded := mkImageData _ _ _) in Herode.
    assert (Hwf2 : wf_image eroded) by (by eapply stage_wf).
    assert (Hb2 : bytes (data eroded)) by (by apply morph_pass_bytes).
    pose proof (dilation_stage eroded Hwf2 Hb2) as Hdilate.
    change (mkImageData _ _ _)
      with (MediaPipeProcessor.morphologicalOperations filtered) in Hdilate.
    assert (Hwf3 : wf_image (MediaPipeProcessor.morphologicalOperations filtered))
      by (by eapply stage_wf).
    exists filtered, eroded, (MediaPipeProcessor.morphologicalOperations filtered).
    split; [done|]. split; [done|]. split; [done|].
    by apply edgeFeathering_stage.
  - set (smoothed := TensorFlowProcessor.bilateralFilter img).
    pose proof (bilateralFilter_stage img Hwf) as Hsmooth. fold smoothed in Hsmooth.
    assert (Hwf1 : wf_image smoothed) by (by eapply stage_wf).
    destruct (pruning_stage smoothed Hwf1) as (pruned & Hrun & Hprune).
    assert (Hwf2 : wf_image pruned) by (by eapply stage_wf).
    exists smoothed, pruned, (TensorFlowProcessor.edgeOptimization pruned).
    split; [|split; [done|split; [done | by apply edgeOptimization_stage]]].
    unfold TensorFlowProcessor.postProcessSegmentation. cbv zeta.
    fold smoothed. by rewrite Hrun.
Qed.

End WithMath.
End ChainStageFacts.

(** [postProcess_stage_by_stage] at [edgeSample], with [refMath]. *)
Lemma postProcess_stage_by_stage_witness :
  (exists filtered eroded opened,
     medianStage edgeSample filtered /\
     erosionStage filtered eroded /\
     dilationStage eroded opened /\
     @featherStage refMath neighbours4 100 (fun _ => 1%Q) (fun _ => 2) opened
       (@MediaPipeProcessor.postProcessSegmentation refMath edgeSample)) /\
  (exists smoothed pruned out,
     @TensorFlowProcessor.postProcessSegmentation refMath edgeSample = Some out /\
     @bilateralStage refMath edgeSample smoothed /\
     pruningStage smoothed pruned /\
     @featherStage refMath neighbours8 50 adaptiveSigma adaptiveRadius pruned out) /\
  @MediaPipeProcessor.postProcessSegmentation refMath opaque3 = opaque3 /\
  @TensorFlowProcessor.postProcessSegmentation refMath opaque3 = Some transparent3.
Proof.
  exact (@ChainStageFacts.postProcess_stage_by_stage refMath edgeSample
           FeatherFacts.edgeSample_wf FeatherFacts.edgeSample_bytes).
Defined.
